(** * LatNet Builder: t-value engine, weight helpers and random search

    A shallow embedding of the parts of LatNet Builder that the
    specification talks about, and of the code around them (digital
    nets, random generating values, the stride permutation, the kernel
    of the interlaced discrepancy), together with the properties that
    hold of them.  The first half of the file holds the definitions, each one
    transcribed from the C++ function named in its comment; the second
    half holds the theorems.

    Conventions.
    - [unsigned int] values are integers in [Z]; arithmetic that can leave
      the range [0, 2^32) is wrapped with [u32].
    - [Real] (a C++ [double]) is idealised as a real number in [R];
      where [std::pow] gives an infinity or a NaN no real number stands
      for its value, and the statements about such values assume
      [pow_is_real]; [std::log2], whose rounding decides a floor, is a
      parameter with a bound on its error.
    - [std::vector] is a [list]; reading or writing past its end is
      undefined behaviour in C++ and yields [None] in the model.
    - a thrown exception is the left summand of the result type. *)

From Stdlib Require Import ZArith Reals Lra Lia Ascii String.
From stdpp Require Import gmap list strings.

Local Open Scope Z_scope.

(* ================================================================== *)
(** * Part I: definitions                                              *)
(* ================================================================== *)

(** ** Machine integers and exceptions *)

(** Value of an arithmetic expression once stored in an [unsigned int]. *)
Definition u32 (z : Z) : Z := z mod 2 ^ 32.

(** Largest [unsigned int]. *)
Definition UINT_MAX : Z := 2 ^ 32 - 1.

(** The two standard exceptions the sources throw. *)
Inductive exception : Type :=
| runtime_error (what : string)
| invalid_argument (what : string).

(** A computation that either throws or returns. *)
Definition throws (A : Type) : Type := (exception + A)%type.

Definition is_thrown {A : Type} (r : throws A) : bool :=
  match r with inl _ => true | inr _ => false end.

(** Modelled from the spec: [intPow(base, exponent)] of latbuilder/Util.h
    (not among the sources) is the power of a real with an integer
    exponent. *)
Definition intPow (base : R) (exponent : Z) : R := (base ^ Z.to_nat exponent)%R.

(** [std::pow] on reals: [Rpower] at a positive base, the conventions
    [pow(0, 0) = 1] and [pow(0, y) = 0] for [y > 0] at a zero base, and
    at a negative base the power with the integer exponent that [y] is
    ([pow(-3, 2) = 9]). *)
Definition std_pow (x y : R) : R :=
  if Req_dec_T x 0 then (if Req_dec_T y 0 then 1%R else 0%R)
  else if Rlt_dec 0 x then Rpower x y
  else powerRZ x (Zfloor y).

(** Where [std::pow(x, y)] is a real number, which [std_pow x y] then
    is: at a zero base with a negative exponent [std::pow] gives an
    infinity, and at a negative base with an exponent that is not an
    integer it gives a NaN. *)
Definition pow_is_real (x y : R) : Prop :=
  (0 < x)%R
  \/ (x = 0%R /\ (0 <= y)%R)
  \/ ((x < 0)%R /\ exists n : Z, y = IZR n).

(* ------------------------------------------------------------------ *)
(** ** latbuilder/Functor/IAAlpha.h *)

Module IAAlpha.

(** The private members of the functor. *)
Record t : Type := {
  m_alpha : Z;
  m_interlacingFactor : Z;
  m_min : Z;
  m_denom : R
}.

(** [IAAlpha::IAAlpha(alpha, interlacingFactor)]: the member
    initialisers run first (they cannot throw), then the two checks of
    the constructor body, in this order. *)
Definition IAAlpha (alpha interlacingFactor : Z) : throws t :=
  let m_alpha := alpha in
  let m_interlacingFactor := interlacingFactor in
  let m_min := Z.min m_alpha m_interlacingFactor in
  let m_denom :=
    (sqrt (intPow 2 (u32 (m_alpha + 2))) * (intPow 2 (u32 (m_min - 1)) - 1))%R in
  if m_alpha <? 2 then
    inl (runtime_error "Interlaced A alpha kernel requires alpha > 1")
  else if m_interlacingFactor <? 2 then
    inl (runtime_error "Interlaced A alpha kernel requires interlacing factor > 1")
  else
    inr {| m_alpha := m_alpha;
           m_interlacingFactor := m_interlacingFactor;
           m_min := m_min;
           m_denom := m_denom |}.

End IAAlpha.

(* ------------------------------------------------------------------ *)
(** ** LatticeTester weights (external library) *)

Module LatticeTester.

(** Modelled from the spec: the LatticeTester classes are not among the
    sources.  Order-dependent weights give the weight Γ_k of every
    projection of order k: a vector indexed by the order, and a default
    weight for the orders beyond it. *)
Record OrderDependentWeights : Type := {
  od_defaultWeight : R;
  od_weights : list R
}.

Definition od_getDefaultWeight (w : OrderDependentWeights) : R :=
  od_defaultWeight w.

Definition od_getSize (w : OrderDependentWeights) : nat :=
  length (od_weights w).

Definition getWeightForOrder (w : OrderDependentWeights) (order : nat) : R :=
  default (od_defaultWeight w) (od_weights w !! order).

(** Modelled from the spec: product weights give a weight γ_j per
    coordinate: a vector indexed by the coordinate (from 0), and a
    default weight for the coordinates beyond it. *)
Record ProductWeights : Type := {
  pw_defaultWeight : R;
  pw_weights : list R
}.

Definition pw_getDefaultWeight (w : ProductWeights) : R :=
  pw_defaultWeight w.

Definition getWeights (w : ProductWeights) : list R := pw_weights w.

Definition getWeightForCoordinate (w : ProductWeights) (coordinate : nat) : R :=
  default (pw_defaultWeight w) (pw_weights w !! coordinate).

(** Modelled from the spec: POD weights are the product of an
    order-dependent and of a product part. *)
Record PODWeights : Type := {
  getOrderDependentWeights : OrderDependentWeights;
  getProductWeights : ProductWeights
}.

(** Modelled from the spec: projection-dependent weights list a weight
    for explicitly given projections, grouped by the largest coordinate
    of the projection; a projection is the list of its coordinates. *)
Record ProjectionDependentWeights : Type := {
  pd_weights : list (list (list nat * R))
}.

Definition getWeightsForLargestIndex (w : ProjectionDependentWeights)
    (largestIndex : nat) : list (list nat * R) :=
  default [] (pd_weights w !! largestIndex).

End LatticeTester.

(* ------------------------------------------------------------------ *)
(** ** netbuilder/Parser/ComputeMaxCardFromWeights.h *)

Module ComputeMaxCardFromWeights.
Import LatticeTester.

Section Formatting.

(** [myStream << w], the text the weights print as. *)
Context {W : Type} (format : W -> string).

Definition default_weight_message (w : W) : string :=
  "The figure of merit does not support " +:+ format w +:+
  ": " +:+ String "010"%char "default weight must be zero.".

End Formatting.

(** One turn of the loop over the orders [1 <= i < w.getSize()]. *)
Definition od_step (w : OrderDependentWeights) (maxCard i : nat) : nat :=
  if Req_dec_T (getWeightForOrder w i) 0 then maxCard else i.

(** [ComputeMaxCardFromWeights<OrderDependentWeights>::operator()]. *)
Definition OrderDependent (format : OrderDependentWeights -> string)
    (w : OrderDependentWeights) : throws nat :=
  if Rgt_dec (od_getDefaultWeight w) 0 then
    inl (invalid_argument (default_weight_message format w))
  else
    inr (foldl (od_step w) 0%nat (seq 1 (od_getSize w - 1))).

(** [ComputeMaxCardFromWeights<ProductWeights>::operator()]. *)
Definition Product (format : ProductWeights -> string)
    (w : ProductWeights) : throws nat :=
  if Rgt_dec (pw_getDefaultWeight w) 0 then
    inl (invalid_argument (default_weight_message format w))
  else
    inr (length (getWeights w)).

(** [ComputeMaxCardFromWeights<PODWeights>::operator()]: an exception of
    the order-dependent part propagates, one of the product part is
    caught. *)
Definition POD (formatOD : OrderDependentWeights -> string)
    (formatP : ProductWeights -> string) (w : PODWeights) : throws nat :=
  match OrderDependent formatOD (getOrderDependentWeights w) with
  | inl e => inl e
  | inr maxCardOD =>
      match Product formatP (getProductWeights w) with
      | inr maxCardPD => inr (Nat.min maxCardOD maxCardPD)
      | inl _ => inr maxCardOD
      end
  end.

(** Order [maxCard] is the largest order of positive weight: it has a
    positive weight itself unless it is 0 (no order from 1 on has one),
    and no larger order has a positive weight. *)
Definition largest_positive_order (w : OrderDependentWeights) (maxCard : nat) : Prop :=
  (maxCard = 0%nat \/ (0 < getWeightForOrder w maxCard)%R)
  /\ forall k : nat, (maxCard < k)%nat -> ~ (0 < getWeightForOrder w k)%R.

(** Order [maxCard] is the largest order from 1 on whose weight is not
    zero, or 0 when there is none. *)
Definition largest_nonzero_order (w : OrderDependentWeights) (maxCard : nat) : Prop :=
  (maxCard = 0%nat \/ ((1 <= maxCard)%nat /\ getWeightForOrder w maxCard <> 0%R))
  /\ forall k : nat, (maxCard < k)%nat -> getWeightForOrder w k = 0%R.

(** Coordinate index [j], counted from [base] (0 as in the C++ vector,
    or 1), is the largest one of positive weight. *)
Definition largest_positive_coordinate (base : nat) (w : ProductWeights) (j : nat) : Prop :=
  (0 < getWeightForCoordinate w (j - base))%R
  /\ forall j' : nat, (j < j')%nat -> ~ (0 < getWeightForCoordinate w (j' - base))%R.

(** Order-dependent weights with Γ_3 = 1 and every other order at 0. *)
Definition gamma3 : OrderDependentWeights :=
  {| od_defaultWeight := 0; od_weights := [0; 0; 0; 1]%R |}.

(** Order-dependent weights with Γ_1 = 1 and Γ_2 = -1. *)
Definition negative_last : OrderDependentWeights :=
  {| od_defaultWeight := 0; od_weights := [0; 1; -1]%R |}.

(** Product weights γ_0 = 1, γ_1 = 0, both stored. *)
Definition trailing_zero : ProductWeights :=
  {| pw_defaultWeight := 0; pw_weights := [1; 0]%R |}.

(** Product weights γ_0 = γ_1 = γ_2 = 1. *)
Definition gamma_ones : ProductWeights :=
  {| pw_defaultWeight := 0; pw_weights := [1; 1; 1]%R |}.

End ComputeMaxCardFromWeights.

(* ------------------------------------------------------------------ *)
(** ** LatBuilder/Norm/PAlphaSL10.cc *)

Module SumHelperPAlphaSL10.
Import LatticeTester.

(** Modelled from the spec: [WeightsDispatcher] (not among the sources)
    dispatches at run time on the shape of a weights object: one case
    per recognised shape, and [CombinedWeights], whose [list()] holds
    weights objects of any of these shapes. *)
#[warnings="-register-all"]
Inductive Weights : Type :=
| ProjectionDependent (w : ProjectionDependentWeights)
| OrderDependent (w : OrderDependentWeights)
| Product (w : ProductWeights)
| POD (w : PODWeights)
| CombinedWeights (list : list Weights).

(** The C++ test [if (weight)] on a [Real]. *)
Definition nonzero (weight : R) : bool :=
  if Req_dec_T weight 0 then false else true.

(** [SumHelper<ProjectionDependentWeights>::operator()]. *)
Definition sumProjectionDependent (weights : ProjectionDependentWeights)
    (normType z lambda : R) (dimension : nat) : R :=
  foldl
    (fun val largestIndex =>
       foldl
         (fun val pw =>
            let proj := fst pw in
            let weight := snd pw in
            if nonzero weight then
              (val + intPow z (Z.of_nat (length proj))
                     * std_pow weight (lambda * 2 / normType))%R
            else val)
         val (getWeightsForLargestIndex weights largestIndex))
    0%R (seq 0 dimension).

(** [SumHelper<OrderDependentWeights>::operator()]; the state of the
    loop is the pair [(cumul, val)]. *)
Definition sumOrderDependent (weights : OrderDependentWeights)
    (normType z lambda : R) (dimension : nat) : R :=
  snd (foldl
         (fun st order =>
            let weight := getWeightForOrder weights order in
            let cumul := (fst st * (INR (dimension - order + 1) * z / INR order))%R in
            if nonzero weight then
              (cumul, (snd st + cumul * std_pow weight (lambda * 2 / normType))%R)
            else (cumul, snd st))
         (1%R, 0%R) (seq 1 dimension)).

(** [SumHelper<ProductWeights>::operator()]. *)
Definition sumProduct (weights : ProductWeights)
    (normType z lambda : R) (dimension : nat) : R :=
  (foldl
     (fun val coord =>
        let weight := getWeightForCoordinate weights coord in
        if nonzero weight then
          (val * (1 + z * std_pow weight (lambda * 2 / normType)))%R
        else val)
     1%R (seq 0 dimension) - 1)%R.

(** [states[order]]; every read below is within the vector. *)
Definition at_order (states : list R) (order : nat) : R :=
  default 0%R (states !! order).

(** [SumHelper<PODWeights>::operator()]. *)
Definition sumPOD (weights : PODWeights)
    (normType z lambda : R) (dimension : nat) : R :=
  let states :=
    foldl
      (fun states s =>
         let pweight :=
           std_pow (getWeightForCoordinate (getProductWeights weights) s)
                   (lambda * 2 / normType) in
         let states := states ++ [0%R] in
         foldl
           (fun states order =>
              <[order := (at_order states order
                          + z * pweight * at_order states (order - 1))%R]> states)
           states (reverse (seq 1 (length states - 1))))
      [1%R] (seq 1 dimension) in
  foldl
    (fun val order =>
       (val + std_pow (getWeightForOrder (getOrderDependentWeights weights) order)
                      (lambda * 2 / normType)
              * at_order states order)%R)
    0%R (seq 1 dimension).

(** [WeightsDispatcher::dispatch<SumHelper>(w, normType, z, lambda,
    dimension)]; the case of combined weights is the body of
    [sumCombined], which [SumHelper<CombinedWeights>::operator()]
    forwards to. *)
Fixpoint SumHelper (w : Weights) (normType z lambda : R) (dimension : nat) : R :=
  match w with
  | ProjectionDependent w => sumProjectionDependent w normType z lambda dimension
  | OrderDependent w => sumOrderDependent w normType z lambda dimension
  | Product w => sumProduct w normType z lambda dimension
  | POD w => sumPOD w normType z lambda dimension
  | CombinedWeights list =>
      foldl
        (fun val w =>
           (val + SumHelper w normType z (lambda * 2 / normType) dimension)%R)
        0%R list
  end.

(** [sumCombined(weights, normType, z, lambda, dimension)], on the
    [list()] of the combined weights. *)
Definition sumCombined (list : list Weights)
    (normType z lambda : R) (dimension : nat) : R :=
  foldl
    (fun val w =>
       (val + SumHelper w normType z (lambda * 2 / normType) dimension)%R)
    0%R list.

(** The sum of the members' norm-bound sums, each member evaluated with
    the exponent parameter [lambda']. *)
Definition sum_of_members (list : list Weights)
    (normType z lambda' : R) (dimension : nat) : R :=
  foldr (fun w acc => (SumHelper w normType z lambda' dimension + acc)%R) 0%R list.

(** Combined weights with the single member γ_0 = 2 (product weights). *)
Definition single_product : list Weights :=
  [Product {| pw_defaultWeight := 0; pw_weights := [2%R] |}].

End SumHelperPAlphaSL10.

(* ------------------------------------------------------------------ *)
(** ** netbuilder/Task/RandomSearch.h *)

Module RandomSearch.

(** What [RandomSearch::execute] calls into: the random generator of
    generating values, the net constructor, the evaluator of the figure
    of merit and the observer.  None of them is among the sources; each
    is an operation on the state of the object it belongs to. *)
Record Collaborators : Type := {
  GenValue : Type;
  SizeParameter : Type;
  Net : Type;
  Merit : Type;
  Generator : Type;
  Evaluator : Type;
  Observer : Type;
  (** [m_randomGenValueGenerator(dim)] *)
  randomGenValue : Generator -> Z -> GenValue * Generator;
  (** [DigitalNetConstruction<NC>(dimension, sizeParameter, genVals)] *)
  DigitalNetConstruction : Z -> SizeParameter -> list GenValue -> Net;
  (** The call of the evaluator on [(net, verbose)]; the flag tells
      whether the progress and abort signals of the evaluator are
      connected to the observer, which the evaluation may then call
      into. *)
  evaluate : bool -> Evaluator -> Observer -> Net -> Z -> Merit * Evaluator * Observer;
  (** [m_observer->observe(net, merit)] *)
  observe : Observer -> Net -> Merit -> Observer;
  hasFoundNet : Observer -> bool;
  bestNet : Observer -> Net;
  bestMerit : Observer -> Merit
}.

Section Search.
Context {C : Collaborators}.

(** What the search does that can be seen from outside. *)
Inductive event : Type :=
| Evaluated (net : Net C) (merit : Merit C)
| Observed (net : Net C) (merit : Merit C)
| FailedSearch
| SelectedBestNet (net : Net C) (merit : Merit C).

(** The members of the search task, and the log of its events. *)
Record t : Type := {
  m_dimension : Z;
  m_sizeParameter : SizeParameter C;
  m_verbose : Z;
  m_earlyAbortion : bool;
  m_nbTries : Z;
  m_randomGenValueGenerator : Generator C;
  evaluator : Evaluator C;
  m_observer : Observer C;
  connected : bool;
  events : list event
}.

(** The loop over [dim] that fills [genVals]. *)
Definition drawGenVals (dimension : Z) (gen : Generator C)
    : list (GenValue C) * Generator C :=
  foldl
    (fun st dim =>
       let (tmp, gen) := randomGenValue C (snd st) dim in
       (fst st ++ [tmp], gen))
    ([], gen) (seqZ 0 dimension).

(** The body of the loop over [attempt] (printing left out). *)
Definition attempt_body (s : t) : t :=
  let (genVals, gen) := drawGenVals (m_dimension s) (m_randomGenValueGenerator s) in
  let net := DigitalNetConstruction C (m_dimension s) (m_sizeParameter s) genVals in
  let '(merit, ev, obs) :=
    evaluate C (connected s) (evaluator s) (m_observer s) net (m_verbose s - 3) in
  let obs := observe C obs net merit in
  {| m_dimension := m_dimension s;
     m_sizeParameter := m_sizeParameter s;
     m_verbose := m_verbose s;
     m_earlyAbortion := m_earlyAbortion s;
     m_nbTries := m_nbTries s;
     m_randomGenValueGenerator := gen;
     evaluator := ev;
     m_observer := obs;
     connected := connected s;
     events := events s ++ [Evaluated net merit; Observed net merit] |}.

(** [for (unsigned int attempt = ...; attempt <= m_nbTries; ++attempt)]
    from the current value of the counter; [None] when the loop has
    not ended within [fuel] turns. *)
Fixpoint attempts (fuel : nat) (attempt : Z) (s : t) : option t :=
  match fuel with
  | O => None
  | S fuel =>
      if attempt <=? m_nbTries s then
        attempts fuel (u32 (attempt + 1)) (attempt_body s)
      else Some s
  end.

Definition log (e : event) (s : t) : t :=
  {| m_dimension := m_dimension s;
     m_sizeParameter := m_sizeParameter s;
     m_verbose := m_verbose s;
     m_earlyAbortion := m_earlyAbortion s;
     m_nbTries := m_nbTries s;
     m_randomGenValueGenerator := m_randomGenValueGenerator s;
     evaluator := evaluator s;
     m_observer := m_observer s;
     connected := connected s;
     events := events s ++ [e] |}.

Definition connect (s : t) : t :=
  {| m_dimension := m_dimension s;
     m_sizeParameter := m_sizeParameter s;
     m_verbose := m_verbose s;
     m_earlyAbortion := m_earlyAbortion s;
     m_nbTries := m_nbTries s;
     m_randomGenValueGenerator := m_randomGenValueGenerator s;
     evaluator := evaluator s;
     m_observer := m_observer s;
     connected := true;
     events := events s |}.

(** What follows the loop: [onFailedSearch] and return, or
    [selectBestNet]. *)
Definition conclude (s : t) : t :=
  if negb (hasFoundNet C (m_observer s)) then log FailedSearch s
  else log (SelectedBestNet (bestNet C (m_observer s)) (bestMerit C (m_observer s))) s.

(** [RandomSearch::execute()].  The loop takes at most [m_nbTries]
    turns unless [m_nbTries] is [UINT_MAX], where the counter wraps
    and the loop does not end. *)
Definition execute (s : t) : option t :=
  let s := if m_earlyAbortion s then connect s else s in
  s ← attempts (S (Z.to_nat (m_nbTries s))) 1 s;
  Some (conclude s).

(** The events of evaluating the candidates [cands] one after the
    other. *)
Definition evaluations (cands : list (Net C * Merit C)) : list event :=
  flat_map (fun c => [Evaluated (fst c) (snd c); Observed (fst c) (snd c)]) cands.

(** The event that closes the search, from the observer's record. *)
Definition closing (obs : Observer C) : event :=
  if hasFoundNet C obs then SelectedBestNet (bestNet C obs) (bestMerit C obs)
  else FailedSearch.

(** [drawn gen dim genVals gen']: the generating values [genVals] are
    those that the generator gives when it is called for the coordinates
    [dim], [dim + 1], ... in turn, from its state [gen]; it is left in
    the state [gen']. *)
Inductive drawn : Generator C -> Z -> list (GenValue C) -> Generator C -> Prop :=
| drawn_nil gen dim : drawn gen dim [] gen
| drawn_cons gen dim tmp gen1 genVals gen' :
    randomGenValue C gen dim = (tmp, gen1) ->
    drawn gen1 (dim + 1) genVals gen' ->
    drawn gen dim (tmp :: genVals) gen'.

(** [tried dimension sizeParameter verbose linked st cands st']: from
    the generator, the evaluator and the observer in the states [st],
    the candidates [cands] are tried one after the other, which leaves
    the three in the states [st'].  Every candidate is the net
    constructed from [dimension] generating values drawn for the
    coordinates from 0 on, with the merit that the evaluator returns for
    this net, and the observer is told the net with this merit before
    the next candidate is drawn. *)
Inductive tried (dimension : Z) (sizeParameter : SizeParameter C)
    (verbose : Z) (linked : bool)
    : Generator C * Evaluator C * Observer C -> list (Net C * Merit C)
      -> Generator C * Evaluator C * Observer C -> Prop :=
| tried_nil st : tried dimension sizeParameter verbose linked st [] st
| tried_cons gen ev obs genVals gen' net merit ev' obs' cands st' :
    drawn gen 0 genVals gen' ->
    length genVals = Z.to_nat dimension ->
    net = DigitalNetConstruction C dimension sizeParameter genVals ->
    evaluate C linked ev obs net (verbose - 3) = (merit, ev', obs') ->
    tried dimension sizeParameter verbose linked
      (gen', ev', observe C obs' net merit) cands st' ->
    tried dimension sizeParameter verbose linked
      (gen, ev, obs) ((net, merit) :: cands) st'.

(** The generator, the evaluator and the observer of a search. *)
Definition components (s : t) : Generator C * Evaluator C * Observer C :=
  (m_randomGenValueGenerator s, evaluator s, m_observer s).

End Search.

Arguments t : clear implicits.
Arguments event : clear implicits.

(** A small environment to run the search in: generating values and
    merits are integers, a net is its list of generating values, the
    generator counts up, the merit of a net is the sum of its values
    and the observer keeps the smallest merit below [100] seen so far,
    with its net. *)
Definition counting : Collaborators :=
  {| GenValue := Z;
     SizeParameter := unit;
     Net := list Z;
     Merit := Z;
     Generator := Z;
     Evaluator := unit;
     Observer := option (list Z * Z);
     randomGenValue := fun gen dim => (gen, gen + 1);
     DigitalNetConstruction := fun _ _ genVals => genVals;
     evaluate := fun _ ev obs net _ => (foldr Z.add 0 net, ev, obs);
     observe := fun obs net merit =>
       match obs with
       | Some (_, best) => if merit <? best then Some (net, merit) else obs
       | None => if merit <? 100 then Some (net, merit) else None
       end;
     hasFoundNet := fun obs => match obs with Some _ => true | None => false end;
     bestNet := fun obs => match obs with Some (net, _) => net | None => [] end;
     bestMerit := fun obs => match obs with Some (_, merit) => merit | None => 100 end |}.

Definition three_tries : t counting :=
  @Build_t counting 2 tt 0 false 3 5 tt None false [].

(** The same search with [nbTries = UINT_MAX]. *)
Definition endless : t counting :=
  @Build_t counting 2 tt 0 false UINT_MAX 5 tt None false [].

End RandomSearch.

(* ------------------------------------------------------------------ *)
(** ** Vectors with checked accesses *)

(** [v[i]], read. *)
Definition read {A : Type} (v : list A) (i : Z) : option A :=
  if 0 <=? i then v !! Z.to_nat i else None.

(** [v[i] = x]. *)
Definition write {A : Type} (v : list A) (i : Z) (x : A) : option (list A) :=
  if (0 <=? i) && (i <? Z.of_nat (length v)) then Some (<[Z.to_nat i := x]> v)
  else None.

(** A [for] loop over the values [l] of its counter, with a body that may
    run into undefined behaviour. *)
Fixpoint for_each {A S : Type} (body : S -> A -> option S) (st : S) (l : list A)
    : option S :=
  match l with
  | [] => Some st
  | x :: l => st ← body st x; for_each body st l
  end.

(* ------------------------------------------------------------------ *)
(** ** The classes the t-value computation relies on *)

(** [GeneratingMatrix] (netbuilder/GeneratingMatrix.h is not among the
    sources): a bit matrix with its shape and its sub-matrix operation
    [subMatrix(startingRow, startingCol, nRows, nCols)]. *)
Class GeneratingMatrixOps (GM : Type) : Type := {
  nRows : GM -> Z;
  nCols : GM -> Z;
  subMatrix : GM -> Z -> Z -> Z -> Z -> GM
}.

(** [ProgressiveRowReducer], from the declarations of
    netbuilder/ProgressiveRowReducer.h (its implementation is not among
    the sources); the mutating members return the new state.  The pivots
    come as the (row, column) pairs that iterating the map yields. *)
Class ProgressiveRowReducerOps (GM RR : Type) : Type := {
  ProgressiveRowReducer : Z -> RR;
  addRow : RR -> GM -> RR;
  replaceRow : RR -> Z -> GM -> RR;
  smallestFullRank : RR -> Z;
  getPivots : RR -> list (Z * Z)
}.

(** A change [((fromPart, fromUnit), (toPart, toUnit))] between two
    compositions. *)
Definition rowChange_t : Type := ((Z * Z) * (Z * Z))%type.

(** Modelled from the spec: [CompositionMaker] (netbuilder/CompositionMaker.h
    is not among the sources) enumerates the compositions of [k] into [s]
    parts.  [goToNextComposition] returns whether there was a next
    composition, and the new state; [changeFromPreviousComposition]
    gives the move of one unit that led to the current composition.  The
    enumeration is finite: [compositionsLeft] bounds the number of
    compositions still to come. *)
Class CompositionMakerOps (CM : Type) : Type := {
  CompositionMaker : Z -> Z -> CM;
  goToNextComposition : CM -> bool * CM;
  changeFromPreviousComposition : CM -> rowChange_t;
  compositionsLeft : CM -> nat
}.

(* ------------------------------------------------------------------ *)
(** ** NetBuilder/GaussMethod.cc *)

Module GaussMethod.

Section Engine.
Context {GM RR CM : Type}.
Context `{!GeneratingMatrixOps GM} `{!ProgressiveRowReducerOps GM RR}
        `{!CompositionMakerOps CM}.

(** A call of a mutating member of the reducer. *)
Inductive call : Type :=
| AddRow (newRow : GM)
| ReplaceRow (rowIndex : Z) (newRow : GM).

(** The local state of [iteration_on_k], with the calls made to the
    reducer and the changes of composition gone through so far. *)
Record run : Type := {
  rowReducer : RR;
  Origin_to_M : gmap (Z * Z) Z;
  calls : list call;
  visited : list rowChange_t
}.

(** Body of the first seeding loop, [baseMatrices[s-1]] being [M]. *)
Definition seed_last (M : GM) (nCols : Z) (st : run) (i : Z) : run :=
  let newRow := subMatrix M i 0 1 nCols in
  {| rowReducer := addRow (rowReducer st) newRow;
     Origin_to_M := <[(1, i + 1) := i]> (Origin_to_M st);
     calls := calls st ++ [AddRow newRow];
     visited := visited st |}.

(** Body of the second seeding loop. *)
Definition seed_earlier (baseMatrices : list GM) (nCols k s : Z)
    (st : run) (i : Z) : option run :=
  M ← read baseMatrices (u32 (s - 1 - i));
  let newRow := subMatrix M 0 0 1 nCols in
  Some {| rowReducer := addRow (rowReducer st) newRow;
          Origin_to_M := <[(i + 1, 1) := u32 (k - s + i)]> (Origin_to_M st);
          calls := calls st ++ [AddRow newRow];
          visited := visited st |}.

(** The two seeding loops, from the fresh reducer ([baseMatrices[s-1]]
    is read once; the family is not empty here). *)
Definition seed (baseMatrices : list GM) (nCols k s : Z) : option run :=
  let st := {| rowReducer := ProgressiveRowReducer nCols;
               Origin_to_M := ∅; calls := []; visited := [] |} in
  M ← read baseMatrices (u32 (s - 1));
  let st := foldl (seed_last M nCols) st (seqZ 0 (u32 (k - s + 1))) in
  for_each (seed_earlier baseMatrices nCols k s) st (seqZ 1 (s - 1)).

(** Body of the [while] loop, once [goToNextComposition] has returned
    true.  [Origin_to_M[rowChange.first]] reads 0 for a key that is
    not in the map. *)
Definition exchange (baseMatrices : list GM) (nCols s : Z)
    (rowChange : rowChange_t) (st : run) : option run :=
  let ind_exchange := default 0 (Origin_to_M st !! fst rowChange) in
  let origin :=
    delete (fst rowChange) (<[snd rowChange := ind_exchange]> (Origin_to_M st)) in
  M ← read baseMatrices (u32 (s - fst (snd rowChange)));
  let newRow := subMatrix M (snd (snd rowChange) - 1) 0 1 nCols in
  Some {| rowReducer := replaceRow (rowReducer st) ind_exchange newRow;
          Origin_to_M := origin;
          calls := calls st ++ [ReplaceRow ind_exchange newRow];
          visited := visited st ++ [rowChange] |}.

(** The [while] loop; [None] on undefined behaviour, or when the loop
    has not ended within [fuel] turns. *)
Fixpoint compositions (fuel : nat) (baseMatrices : list GM) (nCols s : Z)
    (compositionMaker : CM) (st : run) (smallestFullRankIndex : Z)
    : option (Z * run) :=
  match fuel with
  | O => None
  | S fuel =>
      let (more, compositionMaker) := goToNextComposition compositionMaker in
      if more then
        st ← exchange baseMatrices nCols s
               (changeFromPreviousComposition compositionMaker) st;
        let smallestFullRankIndex := u32 (smallestFullRank (rowReducer st) - 1) in
        if smallestFullRankIndex =? nCols then Some (smallestFullRankIndex, st)
        else compositions fuel baseMatrices nCols s compositionMaker st
               smallestFullRankIndex
      else Some (smallestFullRankIndex, st)
  end.

(** [iteration_on_k(baseMatrices, k, verbose)], with its final local
    state ([verbose] only drives printing). *)
Definition iteration_on_k_run (baseMatrices : list GM) (k : Z)
    : option (Z * run) :=
  M0 ← read baseMatrices 0;
  let nCols := u32 (nCols M0) in
  let s := Z.of_nat (length baseMatrices) in
  st ← seed baseMatrices nCols k s;
  let smallestFullRankIndex := u32 (smallestFullRank (rowReducer st) - 1) in
  if smallestFullRankIndex =? nCols then Some (nCols, st)
  else
    let compositionMaker := CompositionMaker k s in
    compositions (S (compositionsLeft compositionMaker)) baseMatrices nCols s
      compositionMaker st smallestFullRankIndex.

Definition iteration_on_k (baseMatrices : list GM) (k : Z) : option Z :=
  fst <$> iteration_on_k_run baseMatrices k.

(** The branch [s == 1] of the multilevel [computeTValue]. *)
Definition single_matrix_levels (M0 : GM) (nRows nCols mMin : Z)
    : option (list Z) :=
  let rowReducer :=
    foldl (fun rowReducer r => addRow rowReducer (subMatrix M0 r 0 1 nCols))
          (ProgressiveRowReducer nCols) (seqZ 0 nRows) in
  let pivotPos := getPivots rowReducer in
  countPivot ←
    for_each
      (fun countPivot rowCol =>
         let c := Z.max (fst rowCol) (snd rowCol) in
         x ← read countPivot c;
         write countPivot c (u32 (x + 1)))
      (replicate (Z.to_nat nCols) 0) pivotPos;
  count ←
    for_each (fun count c => x ← read countPivot c; Some (u32 (count + x)))
      0 (seqZ 0 mMin);
  snd <$>
    for_each
      (fun st c =>
         x ← read countPivot c;
         let count := u32 (fst st + x) in
         res ← write (snd st) (u32 (c - mMin)) (u32 (c + 1 - count));
         Some (count, res))
      (count, replicate (Z.to_nat (u32 (nCols - mMin))) 0)
      (seqZ mMin (nCols - mMin)).

(** [result[i+diff] = std::max(bound, maxSubProj[i+diff])]. *)
Definition raise_level (maxSubProj : list Z) (diff : Z) (bound : Z -> Z)
    (result : list Z) (i : Z) : option (list Z) :=
  m ← read maxSubProj (u32 (i + diff));
  write result (u32 (i + diff)) (Z.max (bound i) m).

(** The loop over [k], on the values [ks] that [k] takes, from
    [result] and [previousIndSmallestInvertible]. *)
Fixpoint levels_loop (baseMatrices : list GM) (nCols : Z)
    (maxSubProj : list Z) (diff nLevel mMin : Z)
    (ks : list Z) (result : list Z) (previousIndSmallestInvertible : Z)
    : option (list Z) :=
  match ks with
  | [] => Some result
  | k :: ks =>
      smallestFullRankIndex ← iteration_on_k baseMatrices k;
      if smallestFullRankIndex =? nCols then
        levels_loop baseMatrices nCols maxSubProj diff nLevel mMin ks result
          previousIndSmallestInvertible
      else
        let first :=
          if mMin <? smallestFullRankIndex then u32 (smallestFullRankIndex - mMin)
          else 0 in
        result ←
          for_each
            (raise_level maxSubProj diff
               (fun i => u32 (nCols - (nLevel - 1 - i) - k)))
            result (seqZ first (previousIndSmallestInvertible - first));
        if smallestFullRankIndex <=? mMin then Some result
        else
          levels_loop baseMatrices nCols maxSubProj diff nLevel mMin ks result
            (u32 (smallestFullRankIndex - mMin))
  end.

(** The multilevel [computeTValue] from the first loop over the levels
    on, [diff], [nLevel] and [mMin] having their final values.  The
    loop [for (k = nRows - maxSubProj.back(); k >= s; k--)] takes the
    values from its first one down to [s] (here [s >= 2], so that the
    counter does not wrap). *)
Definition refine_levels (baseMatrices : list GM) (nRows nCols s : Z)
    (maxSubProj : list Z) (diff nLevel mMin : Z) : option (list Z) :=
  result ←
    for_each
      (raise_level maxSubProj diff
         (fun i => u32 (nCols - (nLevel - 1 - i) - s + 1)))
      maxSubProj (seqZ 0 nLevel);
  back ← last maxSubProj;
  levels_loop baseMatrices nCols maxSubProj diff nLevel mMin
    (reverse (seqZ s (u32 (nRows - back) - s + 1))) result nLevel.

(** [GaussMethod::computeTValue(baseMatrices, mMin, maxSubProj,
    verbose)], the multilevel overload. *)
Definition computeTValue_multilevel (baseMatrices : list GM) (mMin : Z)
    (maxSubProj : list Z) : option (list Z) :=
  M0 ← read baseMatrices 0;
  let nRows := u32 (nRows M0) in
  let nCols := u32 (nCols M0) in
  let s := Z.of_nat (length baseMatrices) in
  let nLevel := Z.of_nat (length maxSubProj) in
  if s =? 1 then single_matrix_levels M0 nRows nCols mMin
  else
    let result := maxSubProj in
    if mMin <? u32 (s - 1) then
      let diff := u32 (s - 1 - mMin) in
      if nLevel <=? u32 (s - 1 - mMin) then Some result
      else
        refine_levels baseMatrices nRows nCols s maxSubProj diff
          (u32 (nLevel - u32 (s - 1 - mMin))) (u32 (s - 1))
    else refine_levels baseMatrices nRows nCols s maxSubProj 0 nLevel mMin.

(** [GaussMethod::computeTValue(baseMatrices, maxSubProj, verbose)],
    the unilevel overload. *)
Definition computeTValue (baseMatrices : list GM) (maxSubProj : Z) : option Z :=
  let s := Z.of_nat (length baseMatrices) in
  if s =? 1 then Some 0
  else
    M0 ← read baseMatrices 0;
    res ← computeTValue_multilevel baseMatrices (u32 (nCols M0 - 1)) [maxSubProj];
    read res 0.

End Engine.

Arguments call : clear implicits.
Arguments run : clear implicits.

End GaussMethod.

(* ------------------------------------------------------------------ *)
(** ** Reference implementations of the three classes *)

Module Reference.

(** Modelled from the spec: a bit matrix is a rectangular array of bits
    of shape (R, C); its sub-matrix is a copy of the designated window
    of contiguous rows and columns. *)
Record BitMatrix : Type := {
  bm_nCols : Z;
  bm_rows : list (list bool)
}.

#[export] Instance BitMatrix_ops : GeneratingMatrixOps BitMatrix := {|
  nRows M := Z.of_nat (length (bm_rows M));
  nCols M := bm_nCols M;
  subMatrix M startingRow startingCol nRows nCols :=
    {| bm_nCols := nCols;
       bm_rows :=
         (fun row => take (Z.to_nat nCols) (drop (Z.to_nat startingCol) row))
           <$> take (Z.to_nat nRows) (drop (Z.to_nat startingRow) (bm_rows M)) |}
|}.

(** Rows of bits, and the sum of two rows over GF(2). *)
Definition bit (row : list bool) (c : nat) : bool := default false (row !! c).

Definition row_xor (dst src : list bool) : list bool := zip_with xorb dst src.

Fixpoint first_one (row : list bool) : option nat :=
  match row with
  | [] => None
  | b :: row => if b then Some 0%nat else S <$> first_one row
  end.

(** A row of the reduced matrix, with the column of its pivot if it has
    one. *)
Definition reduced_row : Type := (list bool * option nat)%type.

(** Modelled from the spec: [addRow] reduces the new row against the
    existing pivots; if the remainder is non-zero its first 1-bit
    becomes the pivot of the new row, and that column is eliminated
    from all the other rows. *)
Definition reduce_against (reduced : list reduced_row) (newRow : list bool)
    : list bool :=
  foldl (fun newRow r =>
           match snd r with
           | Some c => if bit newRow c then row_xor newRow (fst r) else newRow
           | None => newRow
           end)
        newRow reduced.

Definition add_reduced (reduced : list reduced_row) (newRow : list bool)
    : list reduced_row :=
  let remainder := reduce_against reduced newRow in
  match first_one remainder with
  | Some c =>
      ((fun r => if bit (fst r) c then (row_xor (fst r) remainder, snd r) else r)
         <$> reduced) ++ [(remainder, Some c)]
  | None => reduced ++ [(remainder, None)]
  end.

(** The state of the reference reducer: the number of columns and the
    rows it currently stands for; the reduced matrix is computed from
    them. *)
Record Reducer : Type := {
  red_nCols : Z;
  red_rows : list (list bool)
}.

Definition reducedMatrix (r : Reducer) : list reduced_row :=
  foldl add_reduced [] (red_rows r).

(** The bits of a one-row matrix, on [n] columns. *)
Definition bits_of (n : Z) (newRow : BitMatrix) : list bool :=
  resize (Z.to_nat n) false (List.hd [] (bm_rows newRow)).

Definition pivots_of (reduced : list reduced_row) : list (Z * Z) :=
  omap (fun x => x) (imap (fun r row => (fun c => (Z.of_nat r, Z.of_nat c)) <$> snd row) reduced).

(** Modelled from the spec: [smallestFullRank] is the least number of
    leading columns that hold all the pivots when every row has one,
    and [C + 1] when some row has none; replacing a row gives the
    reduction of the matrix with that row substituted. *)
#[export] Instance Reducer_ops : ProgressiveRowReducerOps BitMatrix Reducer := {|
  ProgressiveRowReducer nCols := {| red_nCols := nCols; red_rows := [] |};
  addRow r newRow :=
    {| red_nCols := red_nCols r;
       red_rows := red_rows r ++ [bits_of (red_nCols r) newRow] |};
  replaceRow r rowIndex newRow :=
    {| red_nCols := red_nCols r;
       red_rows := <[Z.to_nat rowIndex := bits_of (red_nCols r) newRow]> (red_rows r) |};
  smallestFullRank r :=
    let pivots := pivots_of (reducedMatrix r) in
    if decide (length pivots = length (red_rows r)) then
      foldr (fun p acc => Z.max (snd p + 1) acc) 0 pivots
    else red_nCols r + 1;
  getPivots r := pivots_of (reducedMatrix r)
|}.

(** An enumerator that plays the changes of a given script: its state
    is the changes still to come and the last change played. *)
Definition Scripted : Type := (list rowChange_t * rowChange_t)%type.

Definition scripted (script : Z -> Z -> list rowChange_t)
    : CompositionMakerOps Scripted := {|
  CompositionMaker k s := (script k s, ((0, 0), (0, 0)));
  goToNextComposition cm :=
    match fst cm with
    | [] => (false, cm)
    | change :: rest => (true, (rest, change))
    end;
  changeFromPreviousComposition cm := snd cm;
  compositionsLeft cm := length (fst cm)
|}.

(** The compositions of [k] into two parts, from (k-1, 1) on: each
    change moves the last unit of part 1 to the end of part 2. *)
Definition two_parts (k s : Z) : list rowChange_t :=
  (fun j => ((1, k - 1 - j), (2, 2 + j))) <$> seqZ 0 (k - 2).

#[export] Instance two_parts_ops : CompositionMakerOps Scripted := scripted two_parts.

Definition matrix (nCols : Z) (rows : list (list bool)) : BitMatrix :=
  {| bm_nCols := nCols; bm_rows := rows |}.

Definition I3 : BitMatrix :=
  matrix 3 [[true; false; false]; [false; true; false]; [false; false; true]].

Definition J3 : BitMatrix :=
  matrix 3 [[true; true; true]; [true; true; true]; [true; true; true]].

(** The 2 x 2 matrix that exchanges the two coordinates. *)
Definition swap2 : BitMatrix := matrix 2 [[false; true]; [true; false]].

(** A matrix with three rows and two columns, whose only pivot is in its
    last row. *)
Definition tall : BitMatrix :=
  matrix 2 [[false; false]; [false; false]; [true; false]].

End Reference.

(* ------------------------------------------------------------------ *)
(** ** Vocabulary of the statements about the t-value computation *)

Section Vocabulary.
Context {GM RR CM : Type}.
Context `{!GeneratingMatrixOps GM} `{!ProgressiveRowReducerOps GM RR}
        `{!CompositionMakerOps CM}.
Import GaussMethod.

(** Every successful [goToNextComposition] leaves fewer compositions to
    come. *)
Definition finite_enumeration : Prop :=
  forall cm cm' : CM,
    goToNextComposition cm = (true, cm') ->
    (compositionsLeft cm' < compositionsLeft cm)%nat.

(** The changes the enumerator goes through from the state [cm], at
    most [fuel] of them. *)
Fixpoint changes (fuel : nat) (cm : CM) : list rowChange_t :=
  match fuel with
  | O => []
  | S fuel =>
      let (more, cm) := goToNextComposition cm in
      if more then changeFromPreviousComposition cm :: changes fuel cm else []
  end.

(** All the changes of the enumeration of the compositions of [k] into
    [s] parts. *)
Definition all_changes (k s : Z) : list rowChange_t :=
  changes (compositionsLeft (CompositionMaker k s)) (CompositionMaker k s).

(** Matrix [j] of the family ([M0] stands for a matrix that is not
    there). *)
Definition matrix_at (baseMatrices : list GM) (M0 : GM) (j : Z) : GM :=
  default M0 (read baseMatrices j).

(** The rows the reducer is seeded with: the first [k-s+1] rows of
    matrix [s-1], then the first row of matrix [s-1-i] for
    [i = 1..s-1]. *)
Definition seed_rows (baseMatrices : list GM) (M0 : GM) (nCols k s : Z) : list GM :=
  ((fun i => subMatrix (matrix_at baseMatrices M0 (s - 1)) i 0 1 nCols)
     <$> seqZ 0 (k - s + 1))
  ++ ((fun i => subMatrix (matrix_at baseMatrices M0 (s - 1 - i)) 0 0 1 nCols)
        <$> seqZ 1 (s - 1)).

(** The map from (part, unit) to the row of the reducer, once the
    reducer is seeded. *)
Definition seeded_origin (origin : gmap (Z * Z) Z) (k s : Z) : Prop :=
  (forall i, 0 <= i < k - s + 1 -> origin !! (1, i + 1) = Some i)
  /\ (forall i, 1 <= i < s -> origin !! (i + 1, 1) = Some (k - s + i)).

(** [exchanges baseMatrices nCols s origin changes replaced origin']:
    going through [changes] from the map [origin] makes the calls
    [replaced], one [replaceRow] per change, and leaves the map
    [origin'].  For the change [((p1, u1), (p2, u2))] the row of the
    reducer that [(p1, u1)] maps to is replaced by row [u2 - 1] of
    matrix [s - p2], and [(p2, u2)] takes over that row in the map. *)
Inductive exchanges (baseMatrices : list GM) (nCols s : Z)
    : gmap (Z * Z) Z -> list rowChange_t -> list (call GM) -> gmap (Z * Z) Z -> Prop :=
| exchanges_nil origin : exchanges baseMatrices nCols s origin [] [] origin
| exchanges_cons origin change changes M replaced origin' :
    read baseMatrices (s - fst (snd change)) = Some M ->
    exchanges baseMatrices nCols s
      (delete (fst change)
         (<[snd change := default 0 (origin !! fst change)]> origin))
      changes replaced origin' ->
    exchanges baseMatrices nCols s origin (change :: changes)
      (ReplaceRow (default 0 (origin !! fst change))
         (subMatrix M (snd (snd change) - 1) 0 1 nCols) :: replaced)
      origin'.

(** The reducer that the calls [made] leave, when they are made in
    their order on the reducer [rr]. *)
Definition replay (rr : RR) (made : list (call GM)) : RR :=
  foldl
    (fun rr c =>
       match c with
       | AddRow newRow => addRow rr newRow
       | ReplaceRow rowIndex newRow => replaceRow rr rowIndex newRow
       end)
    rr made.

(** [res] has an entry for every entry of [maxSubProj], which is at
    least that entry and not negative. *)
Definition dominates (maxSubProj res : list Z) : Prop :=
  length res = length maxSubProj
  /\ forall (i : nat) (m : Z),
       maxSubProj !! i = Some m ->
       exists x, res !! i = Some x /\ m <= x /\ 0 <= x.

(** The step bound on consecutive levels. *)
Definition steps_by_one (res : list Z) : Prop :=
  forall (i : nat) (x y : Z),
    res !! i = Some x -> res !! S i = Some y -> y <= x + 1.

(** The level index [max(row, column)] that a pivot counts for. *)
Definition pivot_level (rowCol : Z * Z) : Z := Z.max (fst rowCol) (snd rowCol).

(** The contract of the single-net routine towards the multilevel one,
    for [s <= k <= kmax]: it returns an index that is at most [nCols]. *)
Definition index_in_range (baseMatrices : list GM) (C s kmax : Z) : Prop :=
  forall k, s <= k <= kmax ->
    exists r, iteration_on_k baseMatrices k = Some r /\ r <= C.

(** The index returned for [k] is [nCols] or at least [k - 1] (as many
    columns as rows are needed for full rank), and it does not grow when
    [k] decreases. *)
Definition index_monotone (baseMatrices : list GM) (C s kmax : Z) : Prop :=
  (forall k r, s <= k <= kmax ->
     iteration_on_k baseMatrices k = Some r -> r = C \/ k - 1 <= r)
  /\ (forall k k' r r', s <= k <= k' /\ k' <= kmax ->
        iteration_on_k baseMatrices k = Some r ->
        iteration_on_k baseMatrices k' = Some r' -> r <= r').

(** Number of pivots that count for the level index [c]. *)
Definition count_at (pivotPos : list (Z * Z)) (c : Z) : Z :=
  Z.of_nat (length (filter (fun rowCol => pivot_level rowCol = c) pivotPos)).

(** Number of pivots that count for the level indices [a], ..., [a+n-1]. *)
Definition count_between (pivotPos : list (Z * Z)) (a n : Z) : Z :=
  foldr (fun c acc => count_at pivotPos c + acc) 0 (seqZ a n).

(** Number of pivots (row, column) with both coordinates at most [c]. *)
Definition used_columns (pivotPos : list (Z * Z)) (c : Z) : Z :=
  Z.of_nat (length (filter (fun rowCol => pivot_level rowCol <= c) pivotPos)).

(** The reducer once the rows of the single matrix [M0] are added. *)
Definition single_matrix_reducer (M0 : GM) : RR :=
  foldl (fun rowReducer r => addRow rowReducer (subMatrix M0 r 0 1 (u32 (nCols M0))))
        (ProgressiveRowReducer (u32 (nCols M0))) (seqZ 0 (u32 (nRows M0))).

End Vocabulary.

(* ------------------------------------------------------------------ *)
(** ** 64-bit machine integers *)

(** Value of an arithmetic expression once stored in a 64-bit unsigned
    integer ([uInteger], [size_t], [unsigned long], [unsigned long
    long]). *)
Definition u64 (z : Z) : Z := z mod 2 ^ 64.

(* ------------------------------------------------------------------ *)
(** ** latbuilder/Storage-SIMPLE-DIGITAL.h *)

Module StorageDigital.

(** The loop [while (x >>= 1) r++] of [getmsb]; a 64-bit [x] is
    exhausted within 64 turns. *)
Fixpoint getmsb_loop (fuel : nat) (x r : Z) : Z :=
  match fuel with
  | O => r
  | S fuel =>
      let x := Z.shiftr x 1 in
      if x =? 0 then r else getmsb_loop fuel x (u32 (r + 1))
  end.

(** [Stride::getmsb(x)]. *)
Definition getmsb (x : Z) : Z :=
  if x <? 1 then 0 else getmsb_loop 64 x 0.

(** The entry pushed for [i] by the first loop of the constructor:
    [getmsb(((i >> 1) ^ i) ^ (((i+1) >> 1) ^ (i+1)))]. *)
Definition graycode_entry (i : Z) : Z :=
  getmsb (Z.lxor (Z.lxor (Z.shiftr i 1) i)
                 (Z.lxor (Z.shiftr (u64 (i + 1)) 1) (u64 (i + 1)))).

(** The first loop of the constructor of [Stride], on the static table
    [m_graycode] that all the instances share: it runs from the current
    size of the table to the size [n] of [m_permutation]. *)
Definition extend_graycode (m_graycode : list Z) (n : Z) : list Z :=
  let size := Z.of_nat (length m_graycode) in
  foldl (fun m_graycode i => m_graycode ++ [graycode_entry i])
        m_graycode (seqZ size (n - size)).

(** The second loop of the constructor, from [m_permutation(n, 0)]. *)
Definition fill_permutation (cols m_graycode : list Z) (n : Z) : option (list Z) :=
  for_each
    (fun m_permutation i =>
       previous ← read m_permutation (i - 1);
       g ← read m_graycode (i - 1);
       col ← read cols g;
       write m_permutation i (Z.lxor previous col))
    (replicate (Z.to_nat n) 0) (seqZ 1 (n - 1)).

(** [Stride::Stride(storage, stride)], for a storage of virtual size
    [virtualSize] and a stride of reversed columns [cols]
    ([m_stride.getColsReverse()]): the new state of the static table and
    [m_permutation]. *)
Definition Stride (m_graycode : list Z) (virtualSize : Z) (cols : list Z)
    : option (list Z * list Z) :=
  let m_graycode := extend_graycode m_graycode virtualSize in
  m_permutation ← fill_permutation cols m_graycode virtualSize;
  Some (m_graycode, m_permutation).

(** The Gray code [(i >> 1) ^ i] of [i]. *)
Definition gray (i : Z) : Z := Z.lxor (Z.shiftr i 1) i.

(** The sum over GF(2) of the entries [cols[b - from]] for the bits
    [b >= from] that are set in [g]. *)
Fixpoint xor_cols (cols : list Z) (from g : Z) : Z :=
  match cols with
  | [] => 0
  | col :: cols =>
      Z.lxor (if Z.testbit g from then col else 0) (xor_cols cols (from + 1) g)
  end.

(** The table holds, at every index [i], the position of the lowest
    1-bit of [i + 1]. *)
Definition ruler (m_graycode : list Z) : Prop :=
  forall (i : nat) (t : Z),
    m_graycode !! i = Some t ->
    0 <= t /\ exists q, 0 <= q /\ Z.of_nat i + 1 = 2 ^ t * (2 * q + 1).

End StorageDigital.

(* ------------------------------------------------------------------ *)
(** ** ComputeMaxCardFromWeights.h, the remaining specialisations *)

Module ComputeMaxCardMore.
Import LatticeTester.

(** Modelled from the spec: [ProjectionDependentWeights::getSize()], the
    number of largest indices the weights are stored for. *)
Definition pd_getSize (w : ProjectionDependentWeights) : nat :=
  length (pd_weights w).

(** [ComputeMaxCardFromWeights<ProjectionDependentWeights>::operator()]. *)
Definition ProjectionDependent (w : ProjectionDependentWeights) : nat :=
  foldl
    (fun maxCard i =>
       foldl (fun maxCard kv => Nat.max maxCard (length (fst kv)))
             maxCard (getWeightsForLargestIndex w i))
    0%nat (seq 0 (pd_getSize w)).

(** The primary template: every other type of weights is refused. *)
Definition Unsupported {W : Type} (format : W -> string) (w : W) : throws nat :=
  inl (invalid_argument ("The figure of merit does not support " +:+ format w +:+ ".")).

(** Order-dependent weights with a negative default weight and a
    negative weight at order 2. *)
Definition negative_default : OrderDependentWeights :=
  {| od_defaultWeight := -1; od_weights := [5; 0; -3; 0]%R |}.

(** Projection-dependent weights: the projection {0, 1} with weight 0
    and the projection {2} with weight 1. *)
Definition zero_weight_pair : ProjectionDependentWeights :=
  {| pd_weights := [[]; [([0; 1]%nat, 0%R)]; [([2%nat], 1%R)]] |}.

End ComputeMaxCardMore.

(* ------------------------------------------------------------------ *)
(** ** Closed forms of the sums of PAlphaSL10.cc *)

Module SumForms.
Import LatticeTester SumHelperPAlphaSL10.

(** The sum of the reals of a list. *)
Definition total (l : list R) : R := foldr Rplus 0%R l.

(** The term of order [order] in the sum over the orders: all the
    [C(dimension, order)] projections of that order have the same
    weight. *)
Definition order_term (weights : OrderDependentWeights)
    (normType z lambda : R) (dimension order : nat) : R :=
  if nonzero (getWeightForOrder weights order) then
    (C dimension order * z ^ order
     * std_pow (getWeightForOrder weights order) (lambda * 2 / normType))%R
  else 0%R.

(** The product over the coordinates [1..dimension] of
    [1 + z * γ_s ^ (2 λ / normType)]. *)
Definition coordinate_product (weights : ProductWeights)
    (normType z lambda : R) (dimension : nat) : R :=
  foldr
    (fun s acc =>
       ((1 + z * std_pow (getWeightForCoordinate weights s) (lambda * 2 / normType))
        * acc)%R)
    1%R (seq 1 dimension).

(** The update of [states[order]] in the inner loop of the sum for POD
    weights. *)
Definition pod_update (c : R) (states : list R) (order : nat) : list R :=
  <[order := (at_order states order + c * at_order states (order - 1))%R]> states.

(** Order-dependent weights with Γ_1 = -3. *)
Definition negative_order : OrderDependentWeights :=
  {| od_defaultWeight := 0; od_weights := [0; -3]%R |}.

(** POD weights with Γ_k = 1 for every order and γ_0 = 5, γ_1 = 2,
    γ_2 = 3. *)
Definition unit_orders : PODWeights :=
  {| getOrderDependentWeights := {| od_defaultWeight := 1; od_weights := [] |};
     getProductWeights := {| pw_defaultWeight := 0; pw_weights := [5; 2; 3]%R |} |}.

End SumForms.

(* ------------------------------------------------------------------ *)
(** ** netbuilder/DigitalNet.h *)

Module DigitalNet.

(** [NetConstructionTraits<NC>], as far as [DigitalNetConstruction<NC>]
    calls into it: the shape that goes with a size parameter, and the
    generating matrix and vector that go with a generating value (the
    definitions of these functions are not among the sources). *)
Class ConstructionMethod (GenValue SizeParameter GM : Type) : Type := {
  cm_nRows : SizeParameter -> Z;
  cm_nCols : SizeParameter -> Z;
  createGeneratingMatrix : GenValue -> SizeParameter -> GM;
  createGeneratingVector : GenValue -> SizeParameter -> list Z
}.

Section Net.
Context {GenValue SizeParameter GM : Type}.
Context `{!ConstructionMethod GenValue SizeParameter GM}.

(** The members of [DigitalNet] and of [DigitalNetConstruction<NC>];
    the shared pointers are modelled by the objects they point to,
    which are never modified once built. *)
Record t : Type := {
  m_dimension : Z;
  m_nRows : Z;
  m_nCols : Z;
  m_generatingMatrices : list GM;
  m_generatingVectors : list (list Z);
  m_sizeParameter : SizeParameter;
  m_genValues : list GenValue
}.

(** One turn of the loop of the constructor. *)
Definition push_genValue (net : t) (genValue : GenValue) : t :=
  {| m_dimension := m_dimension net;
     m_nRows := m_nRows net;
     m_nCols := m_nCols net;
     m_generatingMatrices :=
       m_generatingMatrices net
         ++ [createGeneratingMatrix genValue (m_sizeParameter net)];
     m_generatingVectors :=
       m_generatingVectors net
         ++ [createGeneratingVector genValue (m_sizeParameter net)];
     m_sizeParameter := m_sizeParameter net;
     m_genValues := m_genValues net ++ [genValue] |}.

(** The constructor for placeholder nets,
    [DigitalNetConstruction(dimension, sizeParameter)]. *)
Definition placeholder (dimension : Z) (sizeParameter : SizeParameter) : t :=
  {| m_dimension := dimension;
     m_nRows := cm_nRows sizeParameter;
     m_nCols := cm_nCols sizeParameter;
     m_generatingMatrices := [];
     m_generatingVectors := [];
     m_sizeParameter := sizeParameter;
     m_genValues := [] |}.

(** The net that [DigitalNetConstruction(dimension, sizeParameter,
    genValues)] builds once [m_genValues.reserve(m_dimension)] has
    returned: the members as the initialisers leave them, then the loop
    over [genValues]. *)
Definition DigitalNetConstruction (dimension : Z) (sizeParameter : SizeParameter)
    (genValues : list GenValue) : t :=
  foldl push_genValue (placeholder dimension sizeParameter) genValues.

(** What [m_genValues.reserve(n)] can throw. *)
Inductive reserve_exception : Type :=
| length_error
| bad_alloc.

(** [max_size()] of the vector [m_genValues], and whether storage for
    [n] of its elements can be had: both are the implementation's and
    the machine's. *)
Context (max_size : Z) (allocates : Z -> bool).

(** [m_genValues.reserve(n)] on the empty vector: [std::length_error]
    above [max_size()], nothing to do for [n = 0], and [std::bad_alloc]
    when the storage cannot be had. *)
Definition reserve (n : Z) : option reserve_exception :=
  if max_size <? n then Some length_error
  else if (n =? 0) || allocates n then None
  else Some bad_alloc.

(** [DigitalNetConstruction(dimension, sizeParameter, genValues)], the
    public constructor, with the exception of its [reserve]. *)
Definition make_DigitalNetConstruction (dimension : Z)
    (sizeParameter : SizeParameter) (genValues : list GenValue)
    : reserve_exception + t :=
  match reserve dimension with
  | Some e => inl e
  | None => inr (DigitalNetConstruction dimension sizeParameter genValues)
  end.


(** [generatingMatrix(coord)] and [generatingVector(coord)]. *)
Definition generatingMatrix (net : t) (coord : Z) : option GM :=
  read (m_generatingMatrices net) coord.

Definition generatingVector (net : t) (coord : Z) : option (list Z) :=
  read (m_generatingVectors net) coord.

End Net.

Arguments t : clear implicits.

(** A construction method to run the definitions on: generating values
    are integers, the matrix of the value [v] is [v + 100] and its
    vector is [[v]]. *)
Definition offset_method : ConstructionMethod Z unit Z :=
  {| cm_nRows := fun _ => 4;
     cm_nCols := fun _ => 4;
     createGeneratingMatrix := fun v _ => v + 100;
     createGeneratingVector := fun v _ => [v] |}.

End DigitalNet.

(* ------------------------------------------------------------------ *)
(** ** netbuilder/NetConstructionTraits.h: random generating values *)

(** The text of this header follows that of ComputeMaxCardFromWeights.h
    in src/include/netbuilder/Parser/ComputeMaxCardFromWeights.h. *)

Module NetConstructionTraits.

(** [1 << i] on [int]: defined here as long as the result is a
    positive [int]. *)
Definition shl_int (i : Z) : option Z :=
  if (0 <=? i) && (i <? 31) then Some (2 ^ i) else None.

Module SOBOL.
Section Generator.

(** The pseudo-random generator [RAND] with the distribution [m_unif]:
    [unif upperBound randomGen] is [m_unif.setUpperBound(upperBound)]
    followed by [m_unif(m_randomGen)], with the new state of the
    generator (latbuilder/UniformUIntDistribution.h is not among the
    sources).  [nthPrimitivePolynomialDegree] is declared only. *)
Context {RAND : Type} (unif : Z -> RAND -> Z * RAND).
Context (nthPrimitivePolynomialDegree : Z -> Z).

(** One turn of the loop over [k]; the state is [res], [upperBound]
    and the generator. *)
Definition draw (st : list Z * Z * RAND) (k : Z) : option (list Z * Z * RAND) :=
  let '(res, upperBound, m_randomGen) := st in
  let (u, m_randomGen) := unif upperBound m_randomGen in
  res ← write res k (u64 (2 * u + 1));
  Some (res, u64 (2 * (upperBound + 1) - 1), m_randomGen).

(** [RandomGenValueGenerator::operator()(coord)], with the new state
    of the generator. *)
Definition RandomGenValueGenerator (m_randomGen : RAND) (coord : Z)
    : option ((Z * list Z) * RAND) :=
  if coord =? 0 then Some ((0, [0]), m_randomGen)
  else
    let size := u32 (nthPrimitivePolynomialDegree coord) in
    st ← for_each draw (replicate (Z.to_nat size) 0, 0, m_randomGen) (seqZ 0 size);
    Some ((coord, fst (fst st)), snd st).

End Generator.

(** A distribution to run the generator on: the state is a counter,
    reduced into the range asked for. *)
Definition counter (upperBound : Z) (randomGen : Z) : Z * Z :=
  (randomGen mod (upperBound + 1), randomGen + 1).

End SOBOL.

Module EXPLICIT.
Section Generator.

(** [m_randomGen()], with the new state of the generator. *)
Context {RAND : Type} (next : RAND -> Z * RAND).

(** One turn of the loop over [i] of the generator for multilevel
    nets. *)
Definition push_row (st : list Z * RAND) (i : Z) : option (list Z * RAND) :=
  let (nb, m_randomGen) := next (snd st) in
  low ← shl_int i;
  high ← shl_int (i + 1);
  Some (fst st ++ [u64 (low + (nb - nb mod high))], m_randomGen).

(** [RandomGenValueGenerator<MULTILEVEL>::operator()(dimension)]: the
    arguments [(nRows, nCols, init)] given to the constructor of
    [GeneratingMatrix], and the new state of the generator. *)
Definition RandomGenValueGenerator_MULTILEVEL (m_sizeParameter : Z * Z)
    (m_randomGen : RAND) : option ((Z * Z * list Z) * RAND) :=
  st ← for_each push_row ([], m_randomGen) (seqZ 0 (fst m_sizeParameter));
  Some ((fst m_sizeParameter, snd m_sizeParameter, fst st), snd st).

End Generator.

(** A generator to run the definitions on: a counter stepping by a
    fixed odd amount. *)
Definition stepper (randomGen : Z) : Z * Z :=
  (randomGen mod 2 ^ 64, (randomGen + 11400714819323198485) mod 2 ^ 64).

End EXPLICIT.

End NetConstructionTraits.

(* ------------------------------------------------------------------ *)
(** ** IAAlpha.h: the kernel function *)

Module IAAlphaKernel.
Import IAAlpha.

(** [std::numeric_limits<double>::epsilon()]. *)
Definition epsilon : R := (/ 2 ^ 52)%R.

Section Kernel.

(** [std::log2] on [double], the function of the C++ library: its value
    is close to the logarithm in base 2, and need not be it (just below
    a power of two it is rounded to the integer above). *)
Context (std_log2 : R -> R).

(** [(int) std::floor(std::log2(x))]; for every positive [double] the
    value is within the range of [int]. *)
Definition floor_log2 (x : R) : Z := Zfloor (std_log2 x).

(** The exponent [- (m_min - 1) * (int) std::floor(std::log2(x))], in
    [unsigned int] arithmetic: the negation wraps, and the [int]
    factor is converted to [unsigned int]. *)
Definition exponent (k : t) (x : R) : Z :=
  u32 (u32 (- u32 (m_min k - 1)) * u32 (floor_log2 x)).

(** [IAAlpha::operator()(x, n)]. *)
Definition operator_call (k : t) (x : R) : R :=
  if Rlt_dec x epsilon then (1 / m_denom k)%R
  else
    ((1 - (intPow 2 (m_min k) - 1) / intPow 2 (exponent k x)) / m_denom k)%R.

End Kernel.

(** [std_log2] is within [err] of the logarithm in base 2. *)
Definition log2_accurate (std_log2 : R -> R) (err : R) : Prop :=
  forall x : R, (0 < x)%R -> (Rabs (std_log2 x - ln x / ln 2) <= err)%R.

(** The logarithm in base 2 itself. *)
Definition exact_log2 (x : R) : R := (ln x / ln 2)%R.

(** The kernel with [m_min = 3] and [m_denom = 1]. *)
Definition unit_denom : t :=
  {| m_alpha := 3; m_interlacingFactor := 4; m_min := 3; m_denom := 1 |}.

End IAAlphaKernel.

(* ------------------------------------------------------------------ *)
(** ** Vocabulary of the further statements about GaussMethod.cc *)

(** The map sends its keys one-to-one onto the rows [0..k-1] of the
    reducer. *)
Definition one_to_one (origin : gmap (Z * Z) Z) (k : Z) : Prop :=
  (forall key r, origin !! key = Some r -> 0 <= r < k)
  /\ (forall key key' r, origin !! key = Some r -> origin !! key' = Some r -> key = key')
  /\ (forall r, 0 <= r < k -> exists key, origin !! key = Some r).

(** Every change of the list moves a unit that the map knows to a
    place that the map does not hold yet, the map being updated as
    [iteration_on_k] does. *)
Inductive moves : gmap (Z * Z) Z -> list rowChange_t -> Prop :=
| moves_nil origin : moves origin []
| moves_cons origin change changes :
    is_Some (origin !! fst change) ->
    origin !! snd change = None ->
    moves (delete (fst change)
             (<[snd change := default 0 (origin !! fst change)]> origin)) changes ->
    moves origin (change :: changes).

(** Every entry of [result] is at most the larger of the cap of its
    index and of the entry of [maxSubProj]. *)
Definition capped (cap : Z -> Z) (maxSubProj result : list Z) : Prop :=
  forall j m x,
    read maxSubProj j = Some m -> read result j = Some x -> x <= Z.max (cap j) m.

(** The product weights with every coordinate renamed to the one
    below: the weight of coordinate [j] is the one [weights] gives to
    [j + 1]. *)
Definition shift_coordinates (weights : LatticeTester.ProductWeights)
    : LatticeTester.ProductWeights :=
  {| LatticeTester.pw_defaultWeight := LatticeTester.pw_defaultWeight weights;
     LatticeTester.pw_weights := tail (LatticeTester.pw_weights weights) |}.

(* ================================================================== *)
(** * Part II: theorems                                                *)
(* ================================================================== *)

(** ** IAAlpha *)

Section IAAlphaFacts.

(** C10. Constructing [IAAlpha(alpha, interlacingFactor)] throws exactly
    when [alpha < 2] or [interlacingFactor < 2]: in particular it throws
    for every [alpha] as soon as [interlacingFactor < 2], and it
    succeeds if and only if both are at least 2; the object built then
    stores both parameters. *)
Theorem IAAlpha_throws_iff (alpha interlacingFactor : Z) :
  is_thrown (IAAlpha.IAAlpha alpha interlacingFactor)
    = (alpha <? 2) || (interlacingFactor <? 2)
  /\ ((exists k, IAAlpha.IAAlpha alpha interlacingFactor = inr k
                 /\ IAAlpha.m_alpha k = alpha
                 /\ IAAlpha.m_interlacingFactor k = interlacingFactor)
      <-> 2 <= alpha /\ 2 <= interlacingFactor).
Proof.
  unfold IAAlpha.IAAlpha.
  destruct (Z.ltb_spec alpha 2) as [Ha|Ha];
    destruct (Z.ltb_spec interlacingFactor 2) as [Hd|Hd]; simpl;
    (split; [reflexivity|]); split.
  all: try (intros (k & Hk & _); discriminate Hk).
  all: try (intros [Ha' Hd']; exfalso; lia).
  - intros _. lia.
  - intros _. eexists. split; [reflexivity|]. simpl. auto.
Qed.

End IAAlphaFacts.

(** ** Maximal cardinality from the weights *)

Section MaxCardFacts.
Import LatticeTester ComputeMaxCardFromWeights.

Lemma od_scan (w : OrderDependentWeights) (len : nat) :
  let m := foldl (od_step w) 0%nat (seq 1 len) in
  (m = 0%nat \/ ((1 <= m <= len)%nat /\ getWeightForOrder w m <> 0%R))
  /\ forall k : nat, (m < k <= len)%nat -> getWeightForOrder w k = 0%R.
Proof.
  induction len as [|len IH].
  - simpl. split; [now left | intros k Hk; lia].
  - cbv zeta in *. rewrite seq_S, foldl_app.
    set (m := foldl (od_step w) 0%nat (seq 1 len)) in *.
    change (foldl (od_step w) m [(1 + len)%nat]) with (od_step w m (S len)).
    destruct IH as [IH1 IH2]. unfold od_step.
    destruct (Req_dec_T (getWeightForOrder w (S len)) 0) as [Hz|Hnz].
    + split.
      * destruct IH1 as [->|[Hr Hw]]; [now left | right; split; [lia | exact Hw]].
      * intros k Hk. destruct (decide (k = S len)) as [->|Hne]; [exact Hz|].
        apply IH2. lia.
    + split.
      * right. split; [lia | exact Hnz].
      * intros k Hk. lia.
Qed.

Lemma od_beyond_size (w : OrderDependentWeights) (k : nat) :
  (od_getSize w <= k)%nat -> getWeightForOrder w k = od_getDefaultWeight w.
Proof.
  intros Hk. unfold getWeightForOrder, od_getSize in *.
  now rewrite lookup_ge_None_2.
Qed.

Lemma od_nonneg (w : OrderDependentWeights) (k : nat) :
  od_getDefaultWeight w = 0%R ->
  Forall (fun x => (0 <= x)%R) (od_weights w) ->
  (0 <= getWeightForOrder w k)%R.
Proof.
  intros Hd Hall. unfold getWeightForOrder.
  destruct (od_weights w !! k) as [x|] eqn:Hx; simpl.
  - eapply Forall_lookup_1 in Hall; eauto.
  - unfold od_getDefaultWeight in Hd. rewrite Hd. lra.
Qed.

Lemma OrderDependent_scan format (w : OrderDependentWeights) :
  od_getDefaultWeight w = 0%R ->
  exists maxCard : nat,
    OrderDependent format w = inr maxCard /\ largest_nonzero_order w maxCard.
Proof.
  intros Hd. unfold OrderDependent.
  destruct (Rgt_dec (od_getDefaultWeight w) 0) as [Hgt|_]; [rewrite Hd in Hgt; lra|].
  eexists. split; [reflexivity|].
  destruct (od_scan w (od_getSize w - 1)) as [H1 H2].
  set (m := foldl (od_step w) 0%nat (seq 1 (od_getSize w - 1))) in *.
  split.
  - destruct H1 as [->|[Hm Hnz]]; [now left|right]. split; [lia | exact Hnz].
  - intros k Hk.
    destruct (decide (k <= od_getSize w - 1)%nat) as [Hin|Hout].
    + apply H2. lia.
    + rewrite od_beyond_size by lia. exact Hd.
Qed.

(** C7, amended. With default weight zero, [ComputeMaxCardFromWeights]
    returns the largest order from 1 on whose weight is not zero (0 when
    there is none), a negative weight counting like a positive one;
    when no stored weight is negative this is the largest order whose
    weight is strictly positive; with Γ_3 = 1 and every other order at
    0 it returns 3. *)
Theorem OrderDependent_max_card format (w : OrderDependentWeights) :
  od_getDefaultWeight w = 0%R ->
  exists maxCard : nat,
    OrderDependent format w = inr maxCard
    /\ largest_nonzero_order w maxCard
    /\ (Forall (fun x => (0 <= x)%R) (od_weights w) ->
        largest_positive_order w maxCard)
    /\ ((forall k : nat, getWeightForOrder w k = if decide (k = 3%nat) then 1%R else 0%R) ->
        maxCard = 3%nat).
Proof.
  intros Hd.
  destruct (OrderDependent_scan format w Hd) as (m & Hm & Hnz & Hmax).
  exists m. split; [exact Hm|]. split; [split; assumption|]. split.
  - intros Hall. split.
    + destruct Hnz as [->|[_ Hnz]]; [now left|right].
      pose proof (od_nonneg w m Hd Hall). lra.
    + intros k Hk Hpos. rewrite (Hmax k Hk) in Hpos. lra.
  - intros Hshape.
    assert (~ (m < 3)%nat) as Hge.
    { intros Hlt. pose proof (Hmax 3%nat Hlt) as H3. rewrite Hshape in H3.
      simpl in H3. lra. }
    destruct Hnz as [->|[_ Hnz]]; [lia|].
    rewrite Hshape in Hnz. destruct (decide (m = 3%nat)); [assumption|].
    exfalso. apply Hnz. reflexivity.
Qed.

(** C7, counterexample. With default weight zero, Γ_1 = 1 and Γ_2 = -1
    the result is 2, whose weight is negative; the largest order of
    strictly positive weight is 1. *)
Lemma OrderDependent_max_card_counterexample :
  od_getDefaultWeight negative_last = 0%R
  /\ OrderDependent (fun _ => "order-dependent") negative_last = inr 2%nat
  /\ ~ largest_positive_order negative_last 2
  /\ largest_positive_order negative_last 1.
Proof.
  split; [reflexivity|]. split.
  - unfold OrderDependent. simpl.
    destruct (Rgt_dec 0 0) as [H|_]; [lra|].
    unfold od_getSize, od_step, getWeightForOrder. simpl.
    repeat match goal with
           | |- context [Req_dec_T ?a ?b] => destruct (Req_dec_T a b); try lra
           end.
    reflexivity.
  - split.
    + intros [[H|H] _]; [discriminate|].
      unfold getWeightForOrder in H. simpl in H. lra.
    + split.
      * right. unfold getWeightForOrder. simpl. lra.
      * intros k Hk. unfold getWeightForOrder.
        destruct k as [|[|[|k]]]; try lia; simpl; lra.
Qed.

Lemma OrderDependent_max_card_witness :
  od_getDefaultWeight gamma3 = 0%R
  /\ OrderDependent (fun _ => "order-dependent") gamma3 = inr 3%nat.
Proof.
  assert (od_getDefaultWeight gamma3 = 0%R) as Hd by reflexivity.
  split; [exact Hd|].
  destruct (OrderDependent_max_card (fun _ => "order-dependent") gamma3 Hd)
    as (maxCard & -> & _ & _ & Hshape).
  f_equal. apply Hshape.
  intros k. unfold getWeightForOrder. simpl.
  destruct k as [|[|[|[|k]]]]; simpl; try reflexivity.
Defined.

Lemma Product_zero_default format (w : ProductWeights) :
  pw_getDefaultWeight w = 0%R ->
  Product format w = inr (length (getWeights w)).
Proof.
  intros Hd. unfold Product.
  destruct (Rgt_dec (pw_getDefaultWeight w) 0) as [Hgt|_]; [|reflexivity].
  rewrite Hd in Hgt. lra.
Qed.

(** C8, counterexample. For the product weights γ_0 = 1, γ_1 = 0 the
    result is 2, which is not the largest coordinate of positive weight,
    neither counting coordinates from 0 nor from 1. *)
Lemma Product_max_card_counterexample :
  pw_getDefaultWeight trailing_zero = 0%R
  /\ Product (fun _ => "product") trailing_zero = inr 2%nat
  /\ ~ largest_positive_coordinate 0 trailing_zero 2
  /\ ~ largest_positive_coordinate 1 trailing_zero 2.
Proof.
  split; [reflexivity|]. split.
  - now apply Product_zero_default.
  - split; intros [Hpos _]; unfold getWeightForCoordinate in Hpos;
      simpl in Hpos; lra.
Qed.

(** C8, amended. With default weight zero, [ComputeMaxCardFromWeights]
    returns the number of per-coordinate weights the object stores,
    whatever their values; this is the largest coordinate (counted from
    1) of positive weight whenever the last stored weight is strictly
    positive. *)
Theorem Product_max_card format (w : ProductWeights) :
  pw_getDefaultWeight w = 0%R ->
  Product format w = inr (length (getWeights w))
  /\ ((0 < getWeightForCoordinate w (length (getWeights w) - 1))%R ->
      largest_positive_coordinate 1 w (length (getWeights w))).
Proof.
  intros Hd. split.
  - now apply Product_zero_default.
  - intros Hlast. split; [exact Hlast|].
    intros j' Hj' Hpos. unfold getWeightForCoordinate, getWeights in *.
    rewrite lookup_ge_None_2 in Hpos by lia. simpl in Hpos.
    unfold pw_getDefaultWeight in Hd. rewrite Hd in Hpos. lra.
Qed.

Lemma Product_max_card_witness :
  Product (fun _ => "product") gamma_ones = inr 3%nat
  /\ largest_positive_coordinate 1 gamma_ones 3.
Proof.
  destruct (Product_max_card (fun _ => "product") gamma_ones eq_refl) as [Hres Hlargest].
  split; [exact Hres|].
  apply Hlargest. unfold getWeightForCoordinate. simpl. lra.
Defined.

(** C9. A strictly positive default weight makes
    [ComputeMaxCardFromWeights] throw [std::invalid_argument], for
    order-dependent and for product weights alike, whatever the stored
    weights. *)
Theorem positive_default_weight_rejected formatOD formatP
    (od : OrderDependentWeights) (pw : ProductWeights) :
  ((0 < od_getDefaultWeight od)%R ->
     OrderDependent formatOD od
     = inl (invalid_argument (default_weight_message formatOD od)))
  /\ ((0 < pw_getDefaultWeight pw)%R ->
        Product formatP pw
        = inl (invalid_argument (default_weight_message formatP pw))).
Proof.
  split; intros Hpos.
  - unfold OrderDependent.
    destruct (Rgt_dec (od_getDefaultWeight od) 0) as [_|Hn]; [reflexivity|].
    exfalso. apply Hn. lra.
  - unfold Product.
    destruct (Rgt_dec (pw_getDefaultWeight pw) 0) as [_|Hn]; [reflexivity|].
    exfalso. apply Hn. lra.
Qed.

Lemma positive_default_weight_rejected_witness :
  is_thrown (OrderDependent (fun _ => "order-dependent")
               {| od_defaultWeight := 1; od_weights := [] |}) = true
  /\ is_thrown (Product (fun _ => "product")
                  {| pw_defaultWeight := 1; pw_weights := [] |}) = true.
Proof.
  destruct (positive_default_weight_rejected
              (fun _ => "order-dependent") (fun _ => "product")
              {| od_defaultWeight := 1; od_weights := [] |}
              {| pw_defaultWeight := 1; pw_weights := [] |})
    as [Hod Hpw].
  split.
  - rewrite Hod; [reflexivity | simpl; lra].
  - rewrite Hpw; [reflexivity | simpl; lra].
Defined.

End MaxCardFacts.

(** ** The norm-bound sum of combined weights *)

Section SumCombinedFacts.
Import LatticeTester SumHelperPAlphaSL10.

Lemma sumCombined_from (list : list Weights) (normType z lambda : R)
    (dimension : nat) (val : R) :
  foldl (fun val w =>
           (val + SumHelper w normType z (lambda * 2 / normType) dimension)%R)
        val list
  = (val + sum_of_members list normType z (lambda * 2 / normType) dimension)%R.
Proof.
  revert val. induction list as [|w list IH]; intros val; simpl.
  - lra.
  - rewrite IH. lra.
Qed.

(** What [sumCombined] computes: the sum of the members' sums, each
    member evaluated with [lambda * 2 / normType] in place of [lambda]. *)
Lemma sumCombined_rescales_lambda (list : list Weights)
    (normType z lambda : R) (dimension : nat) :
  sumCombined list normType z lambda dimension
  = sum_of_members list normType z (lambda * 2 / normType) dimension
  /\ SumHelper (CombinedWeights list) normType z lambda dimension
     = sumCombined list normType z lambda dimension.
Proof.
  split; [|reflexivity].
  unfold sumCombined. rewrite sumCombined_from. lra.
Qed.

Lemma std_pow_pos (x y : R) : (0 < x)%R -> std_pow x y = Rpower x y.
Proof.
  intros Hx. unfold std_pow.
  destruct (Req_dec_T x 0) as [H|_]; [lra|].
  destruct (Rlt_dec 0 x) as [_|H]; [reflexivity | contradiction].
Qed.

Lemma std_pow_2_2 : std_pow 2 2 = 4%R.
Proof.
  rewrite std_pow_pos by lra.
  replace 2%R with (1 + 1)%R at 2 by lra.
  rewrite Rpower_plus, Rpower_1 by lra. lra.
Qed.

Lemma std_pow_2_4 : std_pow 2 4 = 16%R.
Proof.
  rewrite std_pow_pos by lra.
  replace 4%R with (1 + 1 + 1 + 1)%R by lra.
  rewrite !Rpower_plus, Rpower_1 by lra. lra.
Qed.

(** C6, at the failing input. For combined weights whose only member is
    the product weights γ_0 = 2, with [normType = 1], [z = 1],
    [lambda = 1] and dimension 1, the member's own sum is 4 while the
    combined sum is 16: [sumCombined] hands [lambda * 2 / normType = 2]
    to the member instead of [lambda]. *)
Theorem sumCombined_single_product :
  sum_of_members single_product 1 1 1 1 = 4%R
  /\ sumCombined single_product 1 1 1 1 = 16%R
  /\ sumCombined single_product 1 1 1 1 <> sum_of_members single_product 1 1 1 1.
Proof.
  assert (sum_of_members single_product 1 1 1 1 = 4%R) as Hmember.
  { unfold sum_of_members, single_product. simpl.
    unfold sumProduct, getWeightForCoordinate, nonzero. simpl.
    destruct (Req_dec_T 2 0) as [H|_]; [lra|].
    replace (1 * 2 / 1)%R with 2%R by lra.
    rewrite std_pow_2_2. lra. }
  assert (sumCombined single_product 1 1 1 1 = 16%R) as Hcombined.
  { unfold sumCombined, single_product. simpl.
    unfold sumProduct, getWeightForCoordinate, nonzero. simpl.
    destruct (Req_dec_T 2 0) as [H|_]; [lra|].
    replace (1 * 2 / 1 * 2 / 1)%R with 4%R by lra.
    rewrite std_pow_2_4. lra. }
  split; [exact Hmember|]. split; [exact Hcombined|].
  rewrite Hmember, Hcombined. lra.
Qed.

End SumCombinedFacts.

(** ** Random search *)

Section RandomSearchFacts.
Import RandomSearch.
Context {C : Collaborators}.

Lemma attempt_body_events (s : t C) :
  exists net merit,
    events (attempt_body s) = events s ++ evaluations [(net, merit)]
    /\ m_nbTries (attempt_body s) = m_nbTries s.
Proof.
  unfold attempt_body.
  destruct (drawGenVals (m_dimension s) (m_randomGenValueGenerator s)) as [genVals gen].
  destruct (evaluate C (connected s) (evaluator s) (m_observer s)
              (DigitalNetConstruction C (m_dimension s) (m_sizeParameter s) genVals)
              (m_verbose s - 3)) as [[merit ev] obs].
  simpl. eauto.
Qed.

Lemma evaluations_app (l1 l2 : list (Net C * Merit C)) :
  evaluations (l1 ++ l2) = evaluations l1 ++ evaluations l2.
Proof. unfold evaluations. apply flat_map_app. Qed.

Lemma drawn_snoc gen dim genVals gen1 tmp gen2 :
  drawn gen dim genVals gen1 ->
  randomGenValue C gen1 (dim + Z.of_nat (length genVals)) = (tmp, gen2) ->
  drawn gen dim (genVals ++ [tmp]) gen2.
Proof.
  induction 1 as [gen dim|gen dim tmp' gen1' genVals gen' Hdraw Hrest IH]; intros Hlast.
  - simpl in *. rewrite Z.add_0_r in Hlast. econstructor; [exact Hlast | constructor].
  - simpl. econstructor; [exact Hdraw|]. apply IH.
    rewrite <- Hlast. f_equal. simpl length. lia.
Qed.

(** The loop over [dim] calls the generator for the coordinates
    [0..dimension-1] in turn. *)
Lemma drawGenVals_drawn (dimension : Z) (gen : Generator C) :
  drawn gen 0 (fst (drawGenVals dimension gen)) (snd (drawGenVals dimension gen))
  /\ length (fst (drawGenVals dimension gen)) = Z.to_nat dimension.
Proof.
  unfold drawGenVals, seqZ.
  induction (Z.to_nat dimension) as [|n IH].
  - simpl. split; [constructor | reflexivity].
  - rewrite seq_S, fmap_app, foldl_app. cbn [fmap list_fmap foldl].
    destruct (foldl _ ([], gen) ((fun i : nat => Z.of_nat i + 0) <$> seq 0 n))
      as [genVals gen1].
    cbn [fst snd] in *. destruct IH as [IH Hlen].
    destruct (randomGenValue C gen1 (Z.of_nat (0 + n) + 0)) as [tmp gen2] eqn:Hdraw.
    cbn [fst snd]. split.
    + apply (drawn_snoc _ _ _ _ _ _ IH). rewrite <- Hdraw. f_equal. lia.
    + rewrite length_app, Hlen. simpl. lia.
Qed.

Lemma tried_app dimension (sizeParameter : SizeParameter C) verbose linked
    (st st1 st2 : Generator C * Evaluator C * Observer C) l1 l2 :
  tried dimension sizeParameter verbose linked st l1 st1 ->
  tried dimension sizeParameter verbose linked st1 l2 st2 ->
  tried dimension sizeParameter verbose linked st (l1 ++ l2) st2.
Proof.
  induction 1 as [st|gen ev obs genVals gen' net merit ev' obs' cands st'
                    Hdrawn Hlen Hnet Heval Hrest IH]; intros Hnext; [exact Hnext|].
  simpl. econstructor; [exact Hdrawn | exact Hlen | exact Hnet | exact Heval |].
  apply IH. exact Hnext.
Qed.

(** One turn of the loop over [attempt] tries one candidate. *)
Lemma attempt_body_tried (s : t C) :
  exists net merit,
    tried (m_dimension s) (m_sizeParameter s) (m_verbose s) (connected s)
      (components s) [(net, merit)] (components (attempt_body s))
    /\ events (attempt_body s) = events s ++ evaluations [(net, merit)]
    /\ m_nbTries (attempt_body s) = m_nbTries s
    /\ m_dimension (attempt_body s) = m_dimension s
    /\ m_sizeParameter (attempt_body s) = m_sizeParameter s
    /\ m_verbose (attempt_body s) = m_verbose s
    /\ connected (attempt_body s) = connected s.
Proof.
  destruct (drawGenVals_drawn (m_dimension s) (m_randomGenValueGenerator s))
    as [Hdrawn Hlen].
  unfold attempt_body, components.
  destruct (drawGenVals (m_dimension s) (m_randomGenValueGenerator s)) as [genVals gen].
  destruct (evaluate C (connected s) (evaluator s) (m_observer s)
              (DigitalNetConstruction C (m_dimension s) (m_sizeParameter s) genVals)
              (m_verbose s - 3)) as [[merit ev] obs] eqn:Hev.
  cbn [fst snd] in *. simpl.
  eexists _, merit. split; [|repeat split; reflexivity].
  econstructor; [exact Hdrawn | exact Hlen | reflexivity | exact Hev | constructor].
Qed.

(** With [n] turns left and more fuel than that, the loop ends after
    having tried exactly [n] candidates. *)
Lemma attempts_run (n : nat) :
  forall (fuel : nat) (attempt : Z) (s : t C),
    (n < fuel)%nat ->
    1 <= attempt ->
    attempt + Z.of_nat n = m_nbTries s + 1 ->
    m_nbTries s < UINT_MAX ->
    exists s' cands,
      attempts fuel attempt s = Some s'
      /\ length cands = n
      /\ events s' = events s ++ evaluations cands
      /\ tried (m_dimension s) (m_sizeParameter s) (m_verbose s) (connected s)
           (components s) cands (components s').
Proof.
  induction n as [|n IH]; intros fuel attempt s Hfuel Hlo Hleft Hmax;
    (destruct fuel as [|fuel]; [lia|]); simpl.
  - destruct (Z.leb_spec attempt (m_nbTries s)) as [Hle|_]; [lia|].
    exists s, []. simpl. rewrite app_nil_r. repeat split; auto. constructor.
  - destruct (Z.leb_spec attempt (m_nbTries s)) as [_|Hgt]; [|lia].
    destruct (attempt_body_tried s)
      as (net & merit & Htried & Hev & Hnb & Hdim & Hsize & Hverbose & Hlinked).
    assert (u32 (attempt + 1) = attempt + 1) as ->.
    { unfold u32, UINT_MAX in *. apply Z.mod_small. lia. }
    destruct (IH fuel (attempt + 1) (attempt_body s))
      as (s' & cands & Hrun & Hlen & Hevs & Hrest);
      [lia | lia | rewrite Hnb; lia | rewrite Hnb; lia |].
    rewrite Hdim, Hsize, Hverbose, Hlinked in Hrest.
    exists s', ((net, merit) :: cands). repeat split.
    + exact Hrun.
    + simpl. now rewrite Hlen.
    + rewrite Hevs, Hev, <- app_assoc. f_equal.
    + exact (tried_app _ _ _ _ _ _ _ [(net, merit)] cands Htried Hrest).
Qed.

(** At [nbTries = UINT_MAX] the test [attempt <= m_nbTries] never
    fails: no amount of fuel lets the loop end. *)
Lemma attempts_at_UINT_MAX (fuel : nat) :
  forall (attempt : Z) (s : t C),
    m_nbTries s = UINT_MAX -> 0 <= attempt <= UINT_MAX ->
    attempts fuel attempt s = None.
Proof.
  induction fuel as [|fuel IH]; intros attempt s Hmax Hrange; simpl; [reflexivity|].
  destruct (Z.leb_spec attempt (m_nbTries s)) as [_|Hgt]; [|lia].
  destruct (attempt_body_events s) as (net & merit & _ & Hnb).
  apply IH; [now rewrite Hnb|].
  unfold u32, UINT_MAX.
  pose proof (Z.mod_pos_bound (attempt + 1) (2 ^ 32)). lia.
Qed.

(** C5. A random search with [nbTries] below [UINT_MAX] tries exactly
    [nbTries] candidates and returns: each candidate is the net
    constructed from [dimension] generating values drawn from the
    generator, it is evaluated by the evaluator and handed with the
    merit so obtained to the observer right after its evaluation; the
    search then closes with [onFailedSearch] and no selection when the
    observer has found no net, and with the selection of the observer's
    best net and best merit otherwise.  With [nbTries = UINT_MAX] the
    counter of the loop wraps to 0 past [UINT_MAX], the test
    [attempt <= m_nbTries] never fails and [execute] does not return:
    the loop has not ended after any number of turns. *)
Theorem execute_evaluates_nbTries (s : t C) :
  (0 <= m_nbTries s < UINT_MAX ->
   exists (s' : t C) (cands : list (Net C * Merit C)),
     execute s = Some s'
     /\ Z.of_nat (length cands) = m_nbTries s
     /\ tried (m_dimension s) (m_sizeParameter s) (m_verbose s)
          (m_earlyAbortion s || connected s)
          (components s) cands (components s')
     /\ events s' = events s ++ evaluations cands ++ [closing (m_observer s')]
     /\ (hasFoundNet C (m_observer s') = false -> closing (m_observer s') = FailedSearch)
     /\ (hasFoundNet C (m_observer s') = true ->
         closing (m_observer s')
         = SelectedBestNet (bestNet C (m_observer s')) (bestMerit C (m_observer s'))))
  /\ (m_nbTries s = UINT_MAX ->
      execute s = None
      /\ forall fuel : nat,
           attempts fuel 1 (if m_earlyAbortion s then connect s else s) = None).
Proof.
  set (s0 := if m_earlyAbortion s then connect s else s).
  assert (m_nbTries s0 = m_nbTries s /\ events s0 = events s
          /\ components s0 = components s
          /\ m_dimension s0 = m_dimension s /\ m_sizeParameter s0 = m_sizeParameter s
          /\ m_verbose s0 = m_verbose s
          /\ connected s0 = m_earlyAbortion s || connected s)
    as (Hnb0 & Hev0 & Hcomp0 & Hdim0 & Hsize0 & Hverbose0 & Hlinked0).
  { unfold s0. destruct (m_earlyAbortion s); repeat split; reflexivity. }
  split.
  - intros [Hlo Hhi]. unfold execute. fold s0.
    destruct (attempts_run (Z.to_nat (m_nbTries s0)) (S (Z.to_nat (m_nbTries s0))) 1 s0)
      as (s1 & cands & Hrun & Hlen & Hevs & Htried); [lia | lia | lia | lia |].
    rewrite Hrun. simpl.
    exists (conclude s1), cands.
    assert (m_observer (conclude s1) = m_observer s1
            /\ components (conclude s1) = components s1) as [Hobs Hcomp].
    { unfold conclude. destruct (negb (hasFoundNet C (m_observer s1))); split; reflexivity. }
    rewrite Hobs, Hcomp. repeat split.
    + rewrite Hlen. lia.
    + rewrite <- Hcomp0, <- Hdim0, <- Hsize0, <- Hverbose0, <- Hlinked0. exact Htried.
    + unfold conclude, closing.
      destruct (hasFoundNet C (m_observer s1)); simpl;
        now rewrite Hevs, Hev0, <- app_assoc.
    + unfold closing. now intros ->.
    + unfold closing. now intros ->.
  - intros Hmax.
    assert (forall fuel : nat, attempts fuel 1 s0 = None) as Hnever.
    { intros fuel. apply attempts_at_UINT_MAX; [now rewrite Hnb0|].
      unfold UINT_MAX. lia. }
    split; [|exact Hnever].
    unfold execute. fold s0. now rewrite Hnever.
Qed.

End RandomSearchFacts.

(** Three tries in dimension 2 with the counting environment. *)
Example three_tries_events :
  RandomSearch.events <$> RandomSearch.execute RandomSearch.three_tries
  = Some [@RandomSearch.Evaluated RandomSearch.counting [5; 6] 11;
          @RandomSearch.Observed RandomSearch.counting [5; 6] 11;
          @RandomSearch.Evaluated RandomSearch.counting [7; 8] 15;
          @RandomSearch.Observed RandomSearch.counting [7; 8] 15;
          @RandomSearch.Evaluated RandomSearch.counting [9; 10] 19;
          @RandomSearch.Observed RandomSearch.counting [9; 10] 19;
          @RandomSearch.SelectedBestNet RandomSearch.counting [5; 6] 11].
Proof. reflexivity. Qed.

Lemma execute_evaluates_nbTries_witness :
  (0 <= RandomSearch.m_nbTries RandomSearch.three_tries < UINT_MAX
   /\ exists s' cands,
       RandomSearch.execute RandomSearch.three_tries = Some s'
       /\ Z.of_nat (length cands) = 3
       /\ @RandomSearch.tried RandomSearch.counting 2 tt 0 false
            (RandomSearch.components RandomSearch.three_tries) cands
            (RandomSearch.components s')
       /\ RandomSearch.events s'
          = RandomSearch.evaluations cands
              ++ [RandomSearch.closing (RandomSearch.m_observer s')])
  /\ (RandomSearch.m_nbTries RandomSearch.endless = UINT_MAX
      /\ RandomSearch.execute RandomSearch.endless = None).
Proof.
  assert (0 <= RandomSearch.m_nbTries RandomSearch.three_tries < UINT_MAX) as H.
  { vm_compute. split; [discriminate | reflexivity]. }
  split.
  - split; [exact H|].
    destruct (proj1 (execute_evaluates_nbTries RandomSearch.three_tries) H)
      as (s' & cands & Hrun & Hlen & Htried & Hevs & _).
    exists s', cands. auto.
  - split; [reflexivity|].
    exact (proj1 (proj2 (execute_evaluates_nbTries RandomSearch.endless) eq_refl)).
Defined.

(** ** Machine integers and checked accesses *)

Section Basics.

Lemma u32_small (z : Z) : 0 <= z < 2 ^ 32 -> u32 z = z.
Proof. intros H. unfold u32. now apply Z.mod_small. Qed.

Lemma u32_range (z : Z) : 0 <= u32 z < 2 ^ 32.
Proof. unfold u32. apply Z.mod_pos_bound. lia. Qed.

Lemma u32_add_l (a b : Z) : u32 (u32 a + b) = u32 (a + b).
Proof. unfold u32. apply Zplus_mod_idemp_l. Qed.

Lemma u32_sub_r (a b : Z) : u32 (a - u32 b) = u32 (a - b).
Proof. unfold u32. apply Zminus_mod_idemp_r. Qed.

Lemma read_lookup {A : Type} (v : list A) (i : Z) :
  0 <= i -> read v i = v !! Z.to_nat i.
Proof. intros H. unfold read. destruct (Z.leb_spec 0 i); [reflexivity|lia]. Qed.

Lemma read_Some {A : Type} (v : list A) (i : Z) :
  0 <= i < Z.of_nat (length v) -> exists x, read v i = Some x.
Proof.
  intros H. rewrite read_lookup by lia.
  destruct (lookup_lt_is_Some_2 v (Z.to_nat i)) as [x Hx]; [lia|]. eauto.
Qed.

Lemma read_inv {A : Type} (v : list A) (i : Z) (x : A) :
  read v i = Some x -> 0 <= i < Z.of_nat (length v) /\ v !! Z.to_nat i = Some x.
Proof.
  unfold read. destruct (Z.leb_spec 0 i) as [Hi|Hi]; [|discriminate].
  intros Hx. apply lookup_lt_Some in Hx as Hlt. split; [lia | exact Hx].
Qed.

Lemma write_Some {A : Type} (v : list A) (i : Z) (x : A) :
  0 <= i < Z.of_nat (length v) -> write v i x = Some (<[Z.to_nat i := x]> v).
Proof.
  intros H. unfold write.
  destruct (Z.leb_spec 0 i); [|lia]. destruct (Z.ltb_spec i (Z.of_nat (length v))); [|lia].
  reflexivity.
Qed.

Lemma for_each_app {A S : Type} (body : S -> A -> option S) (l1 l2 : list A) (st : S) :
  for_each body st (l1 ++ l2) = (st ← for_each body st l1; for_each body st l2).
Proof.
  revert st. induction l1 as [|x l1 IH]; intros st; simpl; [reflexivity|].
  destruct (body st x) as [st'|]; simpl; [apply IH | reflexivity].
Qed.

End Basics.

(** ** The single-net routine [iteration_on_k] *)

Section IterationFacts.
Context {GM RR CM : Type}.
Context `{!GeneratingMatrixOps GM} `{!ProgressiveRowReducerOps GM RR}
        `{!CompositionMakerOps CM}.
Import GaussMethod.

Implicit Types (baseMatrices : list GM) (st : run GM RR) (cm : CM).

(** *** Seeding *)

Lemma seed_last_fold (M : GM) (C : Z) (l : list Z) :
  forall st,
    calls (foldl (seed_last M C) st l)
    = calls st ++ (AddRow <$> ((fun i => subMatrix M i 0 1 C) <$> l))
    /\ visited (foldl (seed_last M C) st l) = visited st
    /\ (forall i, i ∈ l -> Origin_to_M (foldl (seed_last M C) st l) !! (1, i + 1) = Some i)
    /\ (forall key, fst key <> 1 ->
          Origin_to_M (foldl (seed_last M C) st l) !! key = Origin_to_M st !! key).
Proof.
  induction l as [|x l IH]; intros st; simpl.
  - rewrite app_nil_r. repeat split; auto. intros i Hi. inversion Hi.
  - destruct (IH (seed_last M C st x)) as (Hc & Hv & Hin & Hout).
    repeat split.
    + rewrite Hc. simpl. now rewrite <- app_assoc.
    + rewrite Hv. reflexivity.
    + intros i Hi. destruct (decide (i ∈ l)) as [Hl|Hl]; [now apply Hin|].
      apply elem_of_cons in Hi as [->|Hi]; [|contradiction].
      (* the key of [x] is written once, and the later turns keep it *)
      clear IH Hc Hv Hin Hout. revert st. induction l as [|y l IHl]; intros st; simpl.
      * apply lookup_insert_eq.
      * apply not_elem_of_cons in Hl as [Hxy Hl].
        specialize (IHl Hl).
        assert (forall st', Origin_to_M st' !! (1, x + 1) = Some x ->
                  Origin_to_M (foldl (seed_last M C) st' l) !! (1, x + 1) = Some x) as Hkeep.
        { clear -Hl. induction l as [|z l IHl]; intros st' Hst'; simpl; [exact Hst'|].
          apply not_elem_of_cons in Hl as [Hxz Hl]. apply IHl; [exact Hl|].
          simpl. rewrite lookup_insert_ne; [exact Hst'|]. intros [=]. lia. }
        apply Hkeep. simpl. rewrite lookup_insert_ne; [apply lookup_insert_eq|].
        intros [=]. lia.
    + intros key Hkey. rewrite Hout by exact Hkey. simpl.
      apply lookup_insert_ne. intros <-. simpl in Hkey. lia.
Qed.

Lemma seed_earlier_defined baseMatrices (M0 : GM) (C k s : Z) st (i : Z) :
  0 <= s - 1 - i < Z.of_nat (length baseMatrices) -> s - 1 - i < 2 ^ 32 ->
  let newRow := subMatrix (matrix_at baseMatrices M0 (s - 1 - i)) 0 0 1 C in
  seed_earlier baseMatrices C k s st i
  = Some {| rowReducer := addRow (rowReducer st) newRow;
            Origin_to_M := <[(i + 1, 1) := u32 (k - s + i)]> (Origin_to_M st);
            calls := calls st ++ [AddRow newRow];
            visited := visited st |}.
Proof.
  intros Hi Hi32. unfold seed_earlier, matrix_at.
  rewrite (u32_small (s - 1 - i)) by lia.
  destruct (read_Some baseMatrices (s - 1 - i) Hi) as [M HM]. now rewrite HM.
Qed.

Lemma seed_earlier_each baseMatrices (M0 : GM) (C k s : Z) (l : list Z) :
  (forall i, i ∈ l -> 0 <= s - 1 - i < Z.of_nat (length baseMatrices)
                      /\ s - 1 - i < 2 ^ 32) ->
  forall st,
    exists st',
      for_each (seed_earlier baseMatrices C k s) st l = Some st'
      /\ calls st'
         = calls st ++ (AddRow <$> ((fun i => subMatrix (matrix_at baseMatrices M0 (s - 1 - i)) 0 0 1 C) <$> l))
      /\ visited st' = visited st
      /\ (forall i, i ∈ l -> Origin_to_M st' !! (i + 1, 1) = Some (u32 (k - s + i)))
      /\ (forall key, (forall i, i ∈ l -> key <> (i + 1, 1)) ->
            Origin_to_M st' !! key = Origin_to_M st !! key).
Proof.
  induction l as [|x l IH]; intros Hl st; simpl.
  - exists st. rewrite app_nil_r. repeat split; auto. intros i Hi. inversion Hi.
  - destruct (Hl x) as [Hx Hx32]; [left|].
    rewrite (seed_earlier_defined baseMatrices M0 C k s st x Hx Hx32). simpl.
    match goal with |- context [for_each _ ?st1 l] => set (st1' := st1) end.
    destruct (IH (fun i Hi => Hl i (list_elem_of_further _ _ _ Hi)) st1')
      as (st' & Hrun & Hc & Hv & Hin & Hout).
    exists st'. repeat split.
    + exact Hrun.
    + rewrite Hc. unfold st1'. simpl. now rewrite <- app_assoc.
    + rewrite Hv. reflexivity.
    + intros i Hi. destruct (decide (i ∈ l)) as [Hil|Hil]; [now apply Hin|].
      apply elem_of_cons in Hi as [->|Hi]; [|contradiction].
      rewrite Hout.
      * unfold st1'. simpl. apply lookup_insert_eq.
      * intros j Hj [=]. apply Hil. now replace x with j by lia.
    + intros key Hkey. rewrite Hout.
      * unfold st1'. simpl. apply lookup_insert_ne. intros <-.
        apply (Hkey x); [left | reflexivity].
      * intros i Hi. apply Hkey. now right.
Qed.

(** The state of [iteration_on_k] once the reducer is seeded. *)
Lemma seed_layout baseMatrices (M0 : GM) (C k : Z) :
  let s := Z.of_nat (length baseMatrices) in
  1 <= s -> s <= k < 2 ^ 32 ->
  exists st,
    seed baseMatrices C k s = Some st
    /\ calls st = AddRow <$> seed_rows baseMatrices M0 C k s
    /\ visited st = []
    /\ seeded_origin (Origin_to_M st) k s.
Proof.
  intros s Hs Hk. unfold seed.
  rewrite (u32_small (s - 1)) by lia.
  destruct (read_Some baseMatrices (s - 1)) as [M HM]; [lia|]. rewrite HM. simpl.
  rewrite (u32_small (k - s + 1)) by lia.
  match goal with |- context [foldl (seed_last M C) ?st0 _] => set (st0' := st0) end.
  destruct (seed_last_fold M C (seqZ 0 (k - s + 1)) st0') as (Hc1 & Hv1 & Hin1 & Hout1).
  destruct (seed_earlier_each baseMatrices M0 C k s (seqZ 1 (s - 1)))
    with (st := foldl (seed_last M C) st0' (seqZ 0 (k - s + 1)))
    as (st' & Hrun & Hc & Hv & Hin & Hout).
  { intros i Hi. apply elem_of_seqZ in Hi. lia. }
  exists st'. repeat split.
  - exact Hrun.
  - rewrite Hc, Hc1. unfold st0', seed_rows. simpl.
    assert (matrix_at baseMatrices M0 (s - 1) = M) as ->
      by (unfold matrix_at; now rewrite HM).
    now rewrite fmap_app.
  - now rewrite Hv, Hv1.
  - intros i Hi. rewrite Hout.
    + apply Hin1. apply elem_of_seqZ. lia.
    + intros j Hj [=]. apply elem_of_seqZ in Hj. lia.
  - intros i Hi. rewrite Hin by (apply elem_of_seqZ; lia).
    now rewrite u32_small by lia.
Qed.

(** The reducer of a run is the one its calls leave. *)
Lemma replay_snoc (rr : RR) (made : list (call GM)) (c : call GM) :
  replay rr (made ++ [c]) = replay (replay rr made) [c].
Proof. unfold replay. now rewrite foldl_app. Qed.

Lemma seed_last_replay (M : GM) (C : Z) (rr : RR) (l : list Z) :
  forall st,
    rowReducer st = replay rr (calls st) ->
    rowReducer (foldl (seed_last M C) st l)
    = replay rr (calls (foldl (seed_last M C) st l)).
Proof.
  induction l as [|x l IH]; intros st Hst; simpl; [exact Hst|].
  apply IH. simpl. rewrite replay_snoc, <- Hst. reflexivity.
Qed.

Lemma seed_earlier_replay baseMatrices (C k s : Z) (rr : RR) (l : list Z) :
  forall st st',
    for_each (seed_earlier baseMatrices C k s) st l = Some st' ->
    rowReducer st = replay rr (calls st) ->
    rowReducer st' = replay rr (calls st').
Proof.
  induction l as [|x l IH]; intros st st' Hrun Hst; cbn [for_each] in Hrun.
  - now injection Hrun as <-.
  - destruct (seed_earlier baseMatrices C k s st x) as [st1|] eqn:Hx; [|discriminate].
    cbn [mbind option_bind] in Hrun.
    apply (IH _ _ Hrun).
    unfold seed_earlier in Hx.
    destruct (read baseMatrices (u32 (s - 1 - x))) as [M|]; [|discriminate].
    cbn [mbind option_bind] in Hx. injection Hx as <-.
    simpl. rewrite replay_snoc, <- Hst. reflexivity.
Qed.

Lemma seed_replay baseMatrices (C k s : Z) st :
  seed baseMatrices C k s = Some st ->
  rowReducer st = replay (ProgressiveRowReducer C) (calls st).
Proof.
  unfold seed.
  destruct (read baseMatrices (u32 (s - 1))) as [M|]; [|discriminate].
  cbn [mbind option_bind]. intros Hseed.
  apply (seed_earlier_replay _ _ _ _ _ _ _ _ Hseed).
  apply seed_last_replay. reflexivity.
Qed.

Lemma length_seed_rows baseMatrices (M0 : GM) (C k s : Z) :
  1 <= s <= k -> Z.of_nat (length (seed_rows baseMatrices M0 C k s)) = k.
Proof.
  intros H. unfold seed_rows.
  rewrite length_app, !length_fmap, !length_seqZ. lia.
Qed.

Lemma iteration_on_k_run_seeded baseMatrices (M0 : GM) (k : Z) st :
  read baseMatrices 0 = Some M0 ->
  seed baseMatrices (u32 (nCols M0)) k (Z.of_nat (length baseMatrices)) = Some st ->
  iteration_on_k_run baseMatrices k
  = if u32 (smallestFullRank (rowReducer st) - 1) =? u32 (nCols M0)
    then Some (u32 (nCols M0), st)
    else compositions
           (S (compositionsLeft (CompositionMaker k (Z.of_nat (length baseMatrices)))))
           baseMatrices (u32 (nCols M0)) (Z.of_nat (length baseMatrices))
           (CompositionMaker k (Z.of_nat (length baseMatrices))) st
           (u32 (smallestFullRank (rowReducer st) - 1)).
Proof.
  intros HM0 Hseed. unfold iteration_on_k_run.
  rewrite HM0. cbn [mbind option_bind]. rewrite Hseed. reflexivity.
Qed.

(** C2, amended. For a family of at least two matrices and
    [s <= k <= nRows], the reducer gets seeded, and if its
    [smallestFullRank() - 1] then equals [nCols], [iteration_on_k]
    returns [nCols] at once, the [addRow] calls of the seeding being
    the only calls made, with no [replaceRow]; the loop over [k] of the
    multilevel [computeTValue] subtracts nothing from this value: it
    goes on to the next [k] with [result] and its previous index
    untouched. *)
Theorem iteration_on_k_full_rank_seed baseMatrices (M0 : GM) (k : Z) :
  let s := Z.of_nat (length baseMatrices) in
  let nCols := u32 (nCols M0) in
  read baseMatrices 0 = Some M0 ->
  2 <= s ->
  s <= k <= u32 (nRows M0) ->
  exists st,
    seed baseMatrices nCols k s = Some st
    /\ (u32 (smallestFullRank (rowReducer st) - 1) = nCols ->
        iteration_on_k baseMatrices k = Some nCols
        /\ iteration_on_k_run baseMatrices k = Some (nCols, st)
        /\ calls st = AddRow <$> seed_rows baseMatrices M0 nCols k s
        /\ visited st = []
        /\ forall maxSubProj diff nLevel mMin ks result prev,
             levels_loop baseMatrices nCols maxSubProj diff nLevel mMin
               (k :: ks) result prev
             = levels_loop baseMatrices nCols maxSubProj diff nLevel mMin
                 ks result prev).
Proof.
  intros s C HM0 Hs Hk.
  pose proof (u32_range (nRows M0)) as HR.
  destruct (seed_layout baseMatrices M0 C k) as (st & Hseed & Hcalls & Hvisited & _);
    [lia | lia |].
  exists st. split; [exact Hseed|].
  intros Hfull.
  assert (iteration_on_k_run baseMatrices k = Some (C, st)) as Hrun.
  { rewrite (iteration_on_k_run_seeded baseMatrices M0 k st HM0 Hseed).
    fold C. now rewrite Hfull, Z.eqb_refl. }
  assert (iteration_on_k baseMatrices k = Some C) as Hret
    by (unfold iteration_on_k; now rewrite Hrun).
  split; [exact Hret|]. split; [exact Hrun|].
  split; [exact Hcalls|]. split; [exact Hvisited|].
  intros maxSubProj diff nLevel mMin ks result prev.
  cbn [levels_loop]. rewrite Hret. cbn [mbind option_bind].
  now rewrite Z.eqb_refl.
Qed.

(** *** The loop over the compositions *)

Lemma changes_fuel (Hfin : finite_enumeration) (m : nat) :
  forall (n : nat) cm,
    (compositionsLeft cm <= m)%nat -> (compositionsLeft cm <= n)%nat ->
    changes m cm = changes n cm.
Proof.
  induction m as [|m IH]; intros [|n] cm Hm Hn; simpl; try reflexivity.
  - destruct (goToNextComposition cm) as [[|] cm'] eqn:Hnext; [|reflexivity].
    apply Hfin in Hnext. lia.
  - destruct (goToNextComposition cm) as [[|] cm'] eqn:Hnext; [|reflexivity].
    apply Hfin in Hnext. lia.
  - destruct (goToNextComposition cm) as [[|] cm'] eqn:Hnext; [|reflexivity].
    apply Hfin in Hnext. f_equal. apply IH; lia.
Qed.

Lemma changes_next (Hfin : finite_enumeration) cm cm' :
  goToNextComposition cm = (true, cm') ->
  changes (compositionsLeft cm) cm
  = changeFromPreviousComposition cm' :: changes (compositionsLeft cm') cm'.
Proof.
  intros Hnext. pose proof (Hfin _ _ Hnext) as Hlt.
  destruct (compositionsLeft cm) as [|n] eqn:Hn; [lia|].
  simpl. rewrite Hnext. f_equal. apply changes_fuel; [exact Hfin | lia | lia].
Qed.

Lemma exchange_defined baseMatrices (C s : Z) (change : rowChange_t) st :
  s = Z.of_nat (length baseMatrices) -> s < 2 ^ 32 ->
  1 <= fst (snd change) <= s ->
  exists M,
    read baseMatrices (s - fst (snd change)) = Some M
    /\ exchange baseMatrices C s change st
       = Some {| rowReducer :=
                   replaceRow (rowReducer st) (default 0 (Origin_to_M st !! fst change))
                     (subMatrix M (snd (snd change) - 1) 0 1 C);
                 Origin_to_M :=
                   delete (fst change)
                     (<[snd change := default 0 (Origin_to_M st !! fst change)]>
                        (Origin_to_M st));
                 calls :=
                   calls st ++ [ReplaceRow (default 0 (Origin_to_M st !! fst change))
                                  (subMatrix M (snd (snd change) - 1) 0 1 C)];
                 visited := visited st ++ [change] |}.
Proof.
  intros Hs Hs32 Hpart.
  destruct (read_Some baseMatrices (s - fst (snd change))) as [M HM]; [lia|].
  exists M. split; [exact HM|].
  unfold exchange. rewrite (u32_small (s - fst (snd change))) by lia.
  now rewrite HM.
Qed.

Lemma compositions_run (Hfin : finite_enumeration) baseMatrices (C s : Z) :
  s = Z.of_nat (length baseMatrices) -> s < 2 ^ 32 ->
  forall (fuel : nat) cm st (sFRI : Z),
    (compositionsLeft cm < fuel)%nat ->
    Forall (fun change => 1 <= fst (snd change) <= s)
           (changes (compositionsLeft cm) cm) ->
    exists r st' gone replaced,
      compositions fuel baseMatrices C s cm st sFRI = Some (r, st')
      /\ calls st' = calls st ++ replaced
      /\ visited st' = visited st ++ gone
      /\ exchanges baseMatrices C s (Origin_to_M st) gone replaced (Origin_to_M st')
      /\ length replaced = length gone
      /\ gone `prefix_of` changes (compositionsLeft cm) cm.
Proof.
  intros Hs Hs32 fuel.
  induction fuel as [|fuel IH]; intros cm st sFRI Hfuel Hparts; [lia|].
  simpl. destruct (goToNextComposition cm) as [[|] cm'] eqn:Hnext.
  - pose proof (Hfin _ _ Hnext) as Hlt.
    rewrite (changes_next Hfin cm cm' Hnext) in Hparts |- *.
    apply Forall_cons in Hparts as [Hpart Hparts].
    destruct (exchange_defined baseMatrices C s (changeFromPreviousComposition cm') st
                Hs Hs32 Hpart) as (M & HM & Hex).
    rewrite Hex. cbn [mbind option_bind].
    match goal with |- context [Some (_, ?st1)] => set (st1' := st1) end.
    destruct (u32 (smallestFullRank (rowReducer st1') - 1) =? C).
    + eexists _, st1', [_], [_]. repeat split.
      * econstructor; [exact HM | constructor].
      * apply prefix_cons, prefix_nil.
    + destruct (IH cm' st1' (u32 (smallestFullRank (rowReducer st1') - 1)))
        as (r & st' & gone & replaced & Hrun & Hc & Hv & Hexs & Hlen & Hpre);
        [lia | exact Hparts |].
      exists r, st', (changeFromPreviousComposition cm' :: gone),
        (ReplaceRow (default 0 (Origin_to_M st !! fst (changeFromPreviousComposition cm')))
           (subMatrix M (snd (snd (changeFromPreviousComposition cm')) - 1) 0 1 C)
           :: replaced).
      repeat split.
      * exact Hrun.
      * rewrite Hc. unfold st1'. simpl. now rewrite <- app_assoc.
      * rewrite Hv. unfold st1'. simpl. now rewrite <- app_assoc.
      * econstructor; [exact HM | exact Hexs].
      * simpl. now rewrite Hlen.
      * now apply prefix_cons.
  - exists sFRI, st, [], []. rewrite !app_nil_r. repeat split.
    + constructor.
    + apply prefix_nil.
Qed.

Lemma exchange_inv baseMatrices (C s : Z) (change : rowChange_t) st st1 :
  exchange baseMatrices C s change st = Some st1 ->
  exists rowIndex newRow,
    rowReducer st1 = replaceRow (rowReducer st) rowIndex newRow
    /\ calls st1 = calls st ++ [ReplaceRow rowIndex newRow]
    /\ visited st1 = visited st ++ [change].
Proof.
  unfold exchange.
  destruct (read baseMatrices _) as [M|]; [|discriminate].
  cbn [mbind option_bind]. intros [= <-]. simpl. eauto.
Qed.

(** The loop keeps the reducer in step with the calls, and returns the
    [smallestFullRank() - 1] of the reducer it leaves. *)
Lemma compositions_reducer baseMatrices (C s : Z) (rr : RR) :
  forall (fuel : nat) cm st (sFRI r : Z) st',
    compositions fuel baseMatrices C s cm st sFRI = Some (r, st') ->
    rowReducer st = replay rr (calls st) ->
    sFRI = u32 (smallestFullRank (rowReducer st) - 1) ->
    rowReducer st' = replay rr (calls st')
    /\ r = u32 (smallestFullRank (rowReducer st') - 1).
Proof.
  induction fuel as [|fuel IH]; intros cm st sFRI r st' Hrun Hst HsFRI;
    [discriminate|].
  cbn [compositions] in Hrun. destruct (goToNextComposition cm) as [[|] cm'].
  - destruct (exchange baseMatrices C s (changeFromPreviousComposition cm') st)
      as [st1|] eqn:Hex; [|discriminate].
    cbn [mbind option_bind] in Hrun.
    destruct (exchange_inv _ _ _ _ _ _ Hex) as (rowIndex & newRow & Hrr & Hcalls & _).
    assert (rowReducer st1 = replay rr (calls st1)) as Hst1.
    { rewrite Hcalls, replay_snoc, <- Hst, Hrr. reflexivity. }
    destruct (u32 (smallestFullRank (rowReducer st1) - 1) =? C).
    + injection Hrun as <- <-. split; [exact Hst1 | reflexivity].
    + apply (IH _ _ _ _ _ Hrun Hst1). reflexivity.
  - injection Hrun as <- <-. split; [exact Hst | exact HsFRI].
Qed.

(** The changes that the loop goes through. *)
Lemma compositions_visited baseMatrices (C s : Z) :
  forall (fuel : nat) cm st (sFRI r : Z) st',
    compositions fuel baseMatrices C s cm st sFRI = Some (r, st') ->
    exists gone, visited st' = visited st ++ gone.
Proof.
  induction fuel as [|fuel IH]; intros cm st sFRI r st' Hrun; [discriminate|].
  cbn [compositions] in Hrun. destruct (goToNextComposition cm) as [[|] cm'].
  - destruct (exchange baseMatrices C s (changeFromPreviousComposition cm') st)
      as [st1|] eqn:Hex; [|discriminate].
    cbn [mbind option_bind] in Hrun.
    destruct (exchange_inv _ _ _ _ _ _ Hex) as (rowIndex & newRow & _ & _ & Hv).
    destruct (u32 (smallestFullRank (rowReducer st1) - 1) =? C).
    + injection Hrun as _ <-. eauto.
    + destruct (IH _ _ _ _ _ Hrun) as [gone Hgone].
      exists (changeFromPreviousComposition cm' :: gone).
      rewrite Hgone, Hv. now rewrite <- app_assoc.
  - injection Hrun as _ <-. exists []. now rewrite app_nil_r.
Qed.

(** The loop goes through every change of the enumeration unless it
    returns [nCols]. *)
Lemma compositions_exit (Hfin : finite_enumeration) baseMatrices (C s : Z) :
  forall (fuel : nat) cm st (sFRI r : Z) st' gone,
    (compositionsLeft cm < fuel)%nat ->
    compositions fuel baseMatrices C s cm st sFRI = Some (r, st') ->
    visited st' = visited st ++ gone ->
    r = C \/ gone = changes (compositionsLeft cm) cm.
Proof.
  induction fuel as [|fuel IH]; intros cm st sFRI r st' gone Hfuel Hrun Hgone;
    [discriminate|].
  cbn [compositions] in Hrun.
  destruct (goToNextComposition cm) as [[|] cm'] eqn:Hnext.
  - pose proof (Hfin _ _ Hnext) as Hlt.
    rewrite (changes_next Hfin cm cm' Hnext).
    destruct (exchange baseMatrices C s (changeFromPreviousComposition cm') st)
      as [st1|] eqn:Hex; [|discriminate].
    cbn [mbind option_bind] in Hrun.
    destruct (exchange_inv _ _ _ _ _ _ Hex) as (rowIndex & newRow & _ & _ & Hv).
    destruct (Z.eqb_spec (u32 (smallestFullRank (rowReducer st1) - 1)) C) as [Heq|_].
    + injection Hrun as <- <-. left. exact Heq.
    + destruct (compositions_visited _ _ _ _ _ _ _ _ _ Hrun) as [gone' Hgone'].
      destruct (IH cm' st1 _ r st' gone' ltac:(lia) Hrun Hgone') as [Hr|Hall];
        [left; exact Hr | right].
      rewrite Hgone', Hv, <- app_assoc in Hgone. apply app_inv_head in Hgone.
      rewrite <- Hgone. simpl. now rewrite Hall.
  - injection Hrun as _ <-. right.
    assert (gone = []) as ->.
    { apply (app_inv_head (visited st)). now rewrite app_nil_r. }
    destruct (compositionsLeft cm) as [|n]; [reflexivity|].
    simpl. now rewrite Hnext.
Qed.

(** C1. For a family of [s >= 2] matrices of equal shape (R, C) and
    [s <= k <= R], [iteration_on_k] first makes exactly [k] calls of
    [addRow], with the first [k-s+1] rows of matrix [s-1] followed by
    the first row of matrix [s-1-i] for [i = 1..s-1]; every further
    call is a [replaceRow], exactly one for each composition the
    enumerator has been advanced to, in their order, and each with the
    reducer row and the matrix row that the remapped [Origin_to_M]
    names for the change.  The reducer that [iteration_on_k] ends with
    is the fresh reducer on [C] columns with these calls made on it in
    this order, the value returned is its [smallestFullRank() - 1], and
    the enumeration is gone through to its end unless the value
    returned is [C]. *)
Theorem iteration_on_k_calls baseMatrices (M0 : GM) (R C k : Z) :
  let s := Z.of_nat (length baseMatrices) in
  finite_enumeration ->
  read baseMatrices 0 = Some M0 ->
  2 <= s ->
  Forall (fun M => u32 (nRows M) = R /\ u32 (nCols M) = C) baseMatrices ->
  s <= k <= R ->
  Forall (fun change => 1 <= fst (snd change) <= s) (all_changes k s) ->
  exists r st replaced,
    iteration_on_k_run baseMatrices k = Some (r, st)
    /\ calls st = (AddRow <$> seed_rows baseMatrices M0 C k s) ++ replaced
    /\ Z.of_nat (length (seed_rows baseMatrices M0 C k s)) = k
    /\ length replaced = length (visited st)
    /\ visited st `prefix_of` all_changes k s
    /\ (exists origin,
          seeded_origin origin k s
          /\ exchanges baseMatrices C s origin (visited st) replaced (Origin_to_M st))
    /\ rowReducer st = replay (ProgressiveRowReducer C) (calls st)
    /\ r = u32 (smallestFullRank (rowReducer st) - 1)
    /\ (r = C \/ visited st = all_changes k s).
Proof.
  intros s Hfin HM0 Hs Hshape Hk Hparts.
  apply read_inv in HM0 as HM0'. destruct HM0' as [_ HM0'].
  destruct (Forall_lookup_1 _ _ _ _ Hshape HM0') as [HR HC].
  pose proof (u32_range (nRows M0)) as HR32. rewrite HR in HR32.
  destruct (seed_layout baseMatrices M0 C k) as (st0 & Hseed & Hc0 & Hv0 & Ho0);
    [lia | lia |]. fold s in Hseed.
  pose proof (seed_replay _ _ _ _ _ Hseed) as Hrr0.
  rewrite <- HC in Hseed.
  rewrite (iteration_on_k_run_seeded baseMatrices M0 k st0 HM0 Hseed).
  rewrite HC. fold s.
  pose proof (length_seed_rows baseMatrices M0 C k s ltac:(lia)) as Hlen.
  destruct (Z.eqb_spec (u32 (smallestFullRank (rowReducer st0) - 1)) C) as [Hfull|_].
  - exists C, st0, []. rewrite app_nil_r, Hv0. repeat split; auto.
    + apply prefix_nil.
    + exists (Origin_to_M st0). split; [exact Ho0 | constructor].
  - destruct (compositions_run Hfin baseMatrices C s eq_refl ltac:(lia)
                (S (compositionsLeft (CompositionMaker k s))) (CompositionMaker k s)
                st0 (u32 (smallestFullRank (rowReducer st0) - 1)))
      as (r & st & gone & replaced & Hrun & Hc & Hv & Hexs & Hlen' & Hpre);
      [lia | exact Hparts |].
    destruct (compositions_reducer _ _ _ (ProgressiveRowReducer C) _ _ _ _ _ _
                Hrun Hrr0 eq_refl) as [Hrr Hr].
    destruct (compositions_exit Hfin baseMatrices C s
                (S (compositionsLeft (CompositionMaker k s))) (CompositionMaker k s)
                st0 _ r st gone ltac:(lia) Hrun Hv)
      as [Hexit|Hexit].
    + exists r, st, replaced. rewrite Hv0 in Hv. simpl in Hv. rewrite Hv.
      repeat split; auto.
      * now rewrite Hc, Hc0.
      * exists (Origin_to_M st0). split; [exact Ho0 | exact Hexs].
    + exists r, st, replaced. rewrite Hv0 in Hv. simpl in Hv. rewrite Hv.
      repeat split; auto.
      * now rewrite Hc, Hc0.
      * exists (Origin_to_M st0). split; [exact Ho0 | exact Hexs].
Qed.

End IterationFacts.

(** ** The single-net routine on the reference implementations *)

Section IterationWitnesses.
Import Reference GaussMethod.

Lemma scripted_finite (script : Z -> Z -> list rowChange_t) :
  @finite_enumeration Scripted (scripted script).
Proof.
  intros [[|change rest] last] cm'; simpl; intros [=]; subst. simpl. lia.
Qed.

(** Scenario S1 of the specification: for M1 = I3 and M2 = J the t-value
    is 1; [iteration_on_k] returns [nCols = 3] at [k = 3] and 1 at
    [k = 2]. *)
Example scenario_S1 :
  computeTValue [I3; J3] 0 = Some 1
  /\ iteration_on_k [I3; J3] 3 = Some 3
  /\ iteration_on_k [I3; J3] 2 = Some 1.
Proof. repeat split; reflexivity. Qed.

(** With the two matrices exchanged, the seed at [k = 3] has full rank;
    the change to the second composition replaces reducer row 1 by row
    1 of matrix 0, full rank is lost and [nCols = 3] is returned. *)
Example exchanged_run :
  (fun r => (fst r, calls (snd r), visited (snd r))) <$> iteration_on_k_run [J3; I3] 3
  = Some (3,
          [AddRow (matrix 3 [[true; false; false]]);
           AddRow (matrix 3 [[false; true; false]]);
           AddRow (matrix 3 [[true; true; true]]);
           ReplaceRow 1 (matrix 3 [[true; true; true]])],
          [((1, 2), (2, 2))]).
Proof. reflexivity. Qed.

(** C2, counterexample. For the matrices I and J of size 3 and
    [k = 3] the seeded reducer has [smallestFullRank() - 1 = nCols = 3],
    and [iteration_on_k] returns 3 at once.  The t-value 1 that the
    unilevel [computeTValue] returns is not got by a subtraction from
    this 3, neither as the value returned minus [k] nor as [nCols] minus
    the value returned: it is [nCols - 2], written at the turn [k = 2]
    of the loop, where [iteration_on_k] returns 1. *)
Lemma iteration_on_k_full_rank_seed_counterexample :
  (exists st,
     seed [I3; J3] 3 3 2 = Some st
     /\ u32 (smallestFullRank (rowReducer st) - 1) = 3)
  /\ iteration_on_k [I3; J3] 3 = Some 3
  /\ iteration_on_k [I3; J3] 2 = Some 1
  /\ computeTValue [I3; J3] 0 = Some (3 - 2)
  /\ forall r,
       iteration_on_k [I3; J3] 3 = Some r ->
       computeTValue [I3; J3] 0 <> Some (r - 3)
       /\ computeTValue [I3; J3] 0 <> Some (3 - r).
Proof.
  split; [eexists; split; reflexivity|].
  split; [reflexivity|]. split; [reflexivity|]. split; [reflexivity|].
  intros r Hr. assert (r = 3) as -> by (vm_compute in Hr; congruence).
  split; vm_compute; discriminate.
Qed.

Lemma iteration_on_k_full_rank_seed_witness :
  read [I3; J3] 0 = Some I3
  /\ 2 <= Z.of_nat (length [I3; J3])
  /\ Z.of_nat (length [I3; J3]) <= 3 <= u32 (nRows I3)
  /\ iteration_on_k [I3; J3] 3 = Some 3.
Proof.
  assert (Z.of_nat (length [I3; J3]) <= 3 <= u32 (nRows I3)) as Hk
    by (vm_compute; split; discriminate).
  assert (2 <= Z.of_nat (length [I3; J3])) as Hs by (vm_compute; discriminate).
  split; [reflexivity|]. split; [exact Hs|]. split; [exact Hk|].
  destruct (iteration_on_k_full_rank_seed [I3; J3] I3 3 eq_refl Hs Hk)
    as (st & Hseed & Hret).
  apply Hret. vm_compute in Hseed. injection Hseed as <-. reflexivity.
Defined.

Lemma iteration_on_k_calls_witness :
  exists r st replaced,
    iteration_on_k_run [J3; I3] 3 = Some (r, st)
    /\ calls st = (AddRow <$> seed_rows [J3; I3] J3 3 3 2) ++ replaced
    /\ length replaced = length (visited st)
    /\ visited st = [((1, 2), (2, 2))]
    /\ rowReducer st = replay (ProgressiveRowReducer 3) (calls st)
    /\ r = 3.
Proof.
  assert (Forall (fun M => u32 (nRows M) = 3 /\ u32 (nCols M) = 3) [J3; I3]) as Hshape
    by (repeat constructor).
  assert (Forall (fun change : rowChange_t => 1 <= fst (snd change) <= 2) (all_changes 3 2))
    as Hparts by (repeat constructor; simpl; lia).
  destruct (iteration_on_k_calls [J3; I3] J3 3 3 3 (scripted_finite two_parts)
              eq_refl ltac:(simpl; lia) Hshape ltac:(simpl; lia) Hparts)
    as (r & st & replaced & Hrun & Hcalls & _ & Hlen & _ & _ & Hrr & _).
  exists r, st, replaced. repeat split; auto.
  - vm_compute in Hrun. injection Hrun as _ <-. reflexivity.
  - vm_compute in Hrun. injection Hrun as <- _. reflexivity.
Defined.

End IterationWitnesses.

(** ** The level-wise t-values of a single matrix *)

Section SingleMatrixFacts.
Context {GM RR CM : Type}.
Context `{!GeneratingMatrixOps GM} `{!ProgressiveRowReducerOps GM RR}
        `{!CompositionMakerOps CM}.
Import GaussMethod.

Lemma count_at_cons (p : Z * Z) (ps : list (Z * Z)) (c : Z) :
  count_at (p :: ps) c = (if decide (pivot_level p = c) then 1 else 0) + count_at ps c.
Proof.
  unfold count_at. rewrite filter_cons.
  destruct (decide (pivot_level p = c)); simpl; lia.
Qed.

Lemma used_columns_step (pivotPos : list (Z * Z)) (c : Z) :
  used_columns pivotPos c = used_columns pivotPos (c - 1) + count_at pivotPos c.
Proof.
  unfold used_columns, count_at.
  induction pivotPos as [|p ps IH]; [reflexivity|].
  rewrite !filter_cons.
  destruct (decide (pivot_level p <= c)), (decide (pivot_level p <= c - 1)),
    (decide (pivot_level p = c)); simpl; lia.
Qed.

Lemma used_columns_none (pivotPos : list (Z * Z)) :
  Forall (fun rowCol => 0 <= pivot_level rowCol) pivotPos ->
  used_columns pivotPos (-1) = 0.
Proof.
  unfold used_columns. induction 1 as [|p ps Hp _ IH]; [reflexivity|].
  rewrite filter_cons. destruct (decide (pivot_level p <= -1)); [lia | exact IH].
Qed.

Lemma foldr_add_from (g : Z -> Z) (l : list Z) (b : Z) :
  foldr (fun c acc => g c + acc) b l = foldr (fun c acc => g c + acc) 0 l + b.
Proof. induction l as [|x l IH]; simpl; [lia | rewrite IH; lia]. Qed.

Lemma count_between_S (pivotPos : list (Z * Z)) (a : Z) (n : nat) :
  count_between pivotPos a (Z.of_nat (S n))
  = count_between pivotPos a (Z.of_nat n) + count_at pivotPos (a + Z.of_nat n).
Proof.
  unfold count_between. rewrite seqZ_S, foldr_app. simpl.
  rewrite foldr_add_from. lia.
Qed.

Lemma count_between_app (pivotPos : list (Z * Z)) (a n1 n2 : Z) :
  0 <= n1 -> 0 <= n2 ->
  count_between pivotPos a (n1 + n2)
  = count_between pivotPos a n1 + count_between pivotPos (a + n1) n2.
Proof.
  intros H1 H2. unfold count_between.
  rewrite seqZ_app, foldr_app, foldr_add_from by lia. lia.
Qed.

Lemma count_between_used (pivotPos : list (Z * Z)) (n : nat) :
  Forall (fun rowCol => 0 <= pivot_level rowCol) pivotPos ->
  count_between pivotPos 0 (Z.of_nat n) = used_columns pivotPos (Z.of_nat n - 1).
Proof.
  intros Hpos. induction n as [|n IH].
  - simpl. now rewrite used_columns_none.
  - rewrite count_between_S, IH, (used_columns_step pivotPos (Z.of_nat (S n) - 1)).
    f_equal; f_equal; lia.
Qed.

(** The loop that counts the pivots per level index. *)
Lemma countPivot_loop (pivotPos : list (Z * Z)) :
  forall countPivot : list Z,
    Forall (fun rowCol => 0 <= pivot_level rowCol < Z.of_nat (length countPivot)) pivotPos ->
    Forall (fun x => 0 <= x < 2 ^ 32) countPivot ->
    exists countPivot',
      for_each
        (fun countPivot rowCol =>
           let c := Z.max (fst rowCol) (snd rowCol) in
           x ← read countPivot c;
           write countPivot c (u32 (x + 1)))
        countPivot pivotPos = Some countPivot'
      /\ length countPivot' = length countPivot
      /\ forall (j : nat) (x : Z),
           countPivot !! j = Some x ->
           countPivot' !! j = Some (u32 (x + count_at pivotPos (Z.of_nat j))).
Proof.
  induction pivotPos as [|p ps IH]; intros cp Hlevels Hrange.
  - exists cp. repeat split; auto. intros j x Hx. simpl.
    unfold count_at. simpl. rewrite Z.add_0_r, u32_small; [exact Hx|].
    exact (Forall_lookup_1 _ _ _ _ Hrange Hx).
  - apply Forall_cons in Hlevels as [Hp Hlevels]. simpl.
    change (Z.max (fst p) (snd p)) with (pivot_level p).
    destruct (read_Some cp (pivot_level p) Hp) as [xc Hxc].
    rewrite Hxc. cbn [mbind option_bind].
    rewrite (write_Some cp (pivot_level p) (u32 (xc + 1)) Hp). cbn [mbind option_bind].
    set (cp1 := <[Z.to_nat (pivot_level p) := u32 (xc + 1)]> cp).
    destruct (IH cp1) as (cp' & Hrun & Hlen & Hval).
    { unfold cp1. now rewrite length_insert. }
    { unfold cp1. apply Forall_insert; [exact Hrange | apply u32_range]. }
    exists cp'. split; [exact Hrun|]. split.
    { rewrite Hlen. unfold cp1. apply length_insert. }
    intros j x Hx. rewrite count_at_cons.
    apply read_inv in Hxc as [_ Hxc].
    destruct (decide (pivot_level p = Z.of_nat j)) as [Heq|Hne].
    + assert (Z.to_nat (pivot_level p) = j) as Hj by lia.
      rewrite Hj in Hxc. assert (x = xc) as -> by congruence.
      rewrite (Hval j (u32 (xc + 1))).
      * f_equal. rewrite u32_add_l. f_equal. lia.
      * unfold cp1. rewrite Hj. apply list_lookup_insert_eq.
        now apply lookup_lt_Some in Hx.
    + rewrite (Hval j x).
      * reflexivity.
      * unfold cp1. rewrite list_lookup_insert_ne by lia. exact Hx.
Qed.

Lemma u32_add_both (a b : Z) : u32 (u32 a + u32 b) = u32 (a + b).
Proof. unfold u32. symmetry. apply Zplus_mod. Qed.

(** The loop that sums the counts below [mMin]. *)
Lemma count_loop (countPivot : list Z) (pivotPos : list (Z * Z)) (a A : Z) (n : nat) :
  (forall c, 0 <= c < Z.of_nat (length countPivot) ->
             read countPivot c = Some (u32 (count_at pivotPos c))) ->
  0 <= a -> a + Z.of_nat n <= Z.of_nat (length countPivot) ->
  for_each (fun count c => x ← read countPivot c; Some (u32 (count + x)))
    (u32 A) (seqZ a (Z.of_nat n))
  = Some (u32 (A + count_between pivotPos a (Z.of_nat n))).
Proof.
  intros Hcp Ha. induction n as [|n IH]; intros Hn.
  - simpl. now rewrite Z.add_0_r.
  - rewrite seqZ_S, for_each_app, IH by lia. cbn [mbind option_bind for_each].
    rewrite Hcp by lia. cbn [mbind option_bind].
    now rewrite u32_add_both, count_between_S, Z.add_assoc.
Qed.

(** The loop that fills [res]. *)
Lemma res_loop (countPivot : list Z) (pivotPos : list (Z * Z)) (mMin A : Z)
    (N n : nat) :
  (forall c, 0 <= c < Z.of_nat (length countPivot) ->
             read countPivot c = Some (u32 (count_at pivotPos c))) ->
  0 <= mMin -> mMin + Z.of_nat N <= Z.of_nat (length countPivot) ->
  Z.of_nat N < 2 ^ 32 ->
  (n <= N)%nat ->
  exists res,
    for_each
      (fun st c =>
         x ← read countPivot c;
         let count := u32 (fst st + x) in
         res ← write (snd st) (u32 (c - mMin)) (u32 (c + 1 - count));
         Some (count, res))
      (u32 A, replicate N 0) (seqZ mMin (Z.of_nat n))
    = Some (u32 (A + count_between pivotPos mMin (Z.of_nat n)), res)
    /\ length res = N
    /\ forall i : nat,
         (i < n)%nat ->
         res !! i
         = Some (u32 (mMin + Z.of_nat i + 1
                      - (A + count_between pivotPos mMin (Z.of_nat (S i))))).
Proof.
  intros Hcp HmMin HN HN32. induction n as [|n IH]; intros Hn.
  - exists (replicate N 0). simpl. rewrite Z.add_0_r, length_replicate.
    repeat split; auto. intros i Hi. lia.
  - destruct IH as (res & Hrun & Hlen & Hval); [lia|].
    rewrite seqZ_S, for_each_app, Hrun. cbn [mbind option_bind for_each fst snd].
    rewrite Hcp by lia. cbn [mbind option_bind].
    replace (mMin + Z.of_nat n - mMin) with (Z.of_nat n) by lia.
    rewrite (u32_small (Z.of_nat n)) by lia.
    rewrite write_Some by lia. cbn [mbind option_bind].
    rewrite Nat2Z.id, u32_add_both, <- Z.add_assoc, <- count_between_S, u32_sub_r.
    eexists. split; [reflexivity|]. split.
    + now rewrite length_insert.
    + intros i Hi. destruct (decide (i = n)) as [->|Hne].
      * rewrite list_lookup_insert_eq by lia. reflexivity.
      * rewrite list_lookup_insert_ne by lia. apply Hval. lia.
Qed.

(** The branch [s == 1]: level index [mMin + i] gets the value
    [mMin + i + 1] minus the number of pivots with both coordinates at
    most [mMin + i]. *)
Lemma single_matrix_levels_value (M0 : GM) (mMin : Z) :
  let C := u32 (nCols M0) in
  let pivotPos := getPivots (single_matrix_reducer M0) in
  0 <= mMin <= C ->
  Forall (fun rowCol => 0 <= pivot_level rowCol < C) pivotPos ->
  exists res,
    single_matrix_levels M0 (u32 (nRows M0)) C mMin = Some res
    /\ Z.of_nat (length res) = C - mMin
    /\ forall i, 0 <= i < C - mMin ->
         read res i = Some (u32 (mMin + i + 1 - used_columns pivotPos (mMin + i))).
Proof.
  intros C pivotPos HmMin Hlevels.
  pose proof (u32_range (nCols M0)) as HC. fold C in HC.
  unfold single_matrix_levels.
  change (foldl _ (ProgressiveRowReducer C) (seqZ 0 (u32 (nRows M0))))
    with (single_matrix_reducer M0).
  fold pivotPos.
  destruct (countPivot_loop pivotPos (replicate (Z.to_nat C) 0))
    as (countPivot & Hrun1 & Hlen1 & Hval1).
  { rewrite length_replicate, Z2Nat.id by lia. exact Hlevels. }
  { apply Forall_replicate. lia. }
  cbv zeta in Hrun1. rewrite Hrun1. cbn [mbind option_bind].
  rewrite length_replicate in Hlen1.
  assert (forall c, 0 <= c < Z.of_nat (length countPivot) ->
                    read countPivot c = Some (u32 (count_at pivotPos c))) as Hcp.
  { intros c Hc. rewrite read_lookup by lia.
    rewrite (Hval1 (Z.to_nat c) 0).
    - now rewrite Z2Nat.id, Z.add_0_l by lia.
    - apply lookup_replicate_2. lia. }
  pose proof (count_loop countPivot pivotPos 0 0 (Z.to_nat mMin) Hcp) as Hrun2.
  rewrite Z2Nat.id in Hrun2 by lia.
  change (u32 0) with 0 in Hrun2. rewrite Hrun2 by lia. cbn [mbind option_bind].
  rewrite (u32_small (C - mMin)) by lia.
  destruct (res_loop countPivot pivotPos mMin (0 + count_between pivotPos 0 mMin)
              (Z.to_nat (C - mMin)) (Z.to_nat (C - mMin)) Hcp)
    as (res & Hrun3 & Hlen3 & Hval3); [lia | lia | lia | lia |].
  rewrite Z2Nat.id in Hrun3 by lia. cbv zeta in Hrun3. rewrite Hrun3. cbn [fmap option_fmap option_map snd].
  exists res. split; [reflexivity|]. split; [lia|].
  intros i Hi. rewrite read_lookup by lia. rewrite Hval3 by lia.
  f_equal. f_equal. f_equal; [lia|].
  rewrite Z.add_0_l, <- count_between_app by lia.
  replace (mMin + Z.of_nat (S (Z.to_nat i))) with (Z.of_nat (Z.to_nat (mMin + i + 1))) by lia.
  rewrite count_between_used.
  - f_equal. lia.
  - eapply Forall_impl; [exact Hlevels|]. simpl. intros. lia.
Qed.

Lemma read_None {A : Type} (v : list A) (i : Z) :
  ~ 0 <= i < Z.of_nat (length v) -> read v i = None.
Proof.
  intros Hi. unfold read. destruct (Z.leb_spec 0 i); [|reflexivity].
  apply lookup_ge_None. lia.
Qed.

(** A pivot whose level index is not below the length of [countPivot]
    makes the loop that counts the pivots step out of the vector. *)
Lemma countPivot_loop_undefined (pivotPos : list (Z * Z)) :
  forall countPivot : list Z,
    Exists (fun rowCol => ~ 0 <= pivot_level rowCol < Z.of_nat (length countPivot))
           pivotPos ->
    for_each
      (fun countPivot rowCol =>
         let c := Z.max (fst rowCol) (snd rowCol) in
         x ← read countPivot c;
         write countPivot c (u32 (x + 1)))
      countPivot pivotPos = None.
Proof.
  induction pivotPos as [|p ps IH]; intros cp Hbad; [inversion Hbad|].
  cbn [for_each]. change (Z.max (fst p) (snd p)) with (pivot_level p).
  destruct (decide (0 <= pivot_level p < Z.of_nat (length cp))) as [Hp|Hp].
  - destruct (read_Some cp (pivot_level p) Hp) as [xc Hxc].
    rewrite Hxc. cbn [mbind option_bind].
    rewrite (write_Some cp (pivot_level p) (u32 (xc + 1)) Hp). cbn [mbind option_bind].
    apply IH. rewrite length_insert.
    apply Exists_cons in Hbad as [Hbad|Hbad]; [contradiction | exact Hbad].
  - now rewrite (read_None cp (pivot_level p) Hp).
Qed.

(** The branch [s == 1] steps out of [countPivot] when [mMin] exceeds
    [nCols] or a pivot has its row or its column at [nCols] or
    beyond. *)
Lemma single_matrix_levels_undefined (M0 : GM) (mMin : Z) :
  let C := u32 (nCols M0) in
  let pivotPos := getPivots (single_matrix_reducer M0) in
  ~ (0 <= mMin <= C /\ Forall (fun rowCol => 0 <= pivot_level rowCol < C) pivotPos) ->
  single_matrix_levels M0 (u32 (nRows M0)) C mMin = None.
Proof.
  intros C pivotPos Hbad.
  pose proof (u32_range (nCols M0)) as HC. fold C in HC.
  unfold single_matrix_levels.
  change (foldl _ (ProgressiveRowReducer C) (seqZ 0 (u32 (nRows M0))))
    with (single_matrix_reducer M0).
  fold pivotPos.
  destruct (decide (Forall (fun rowCol => 0 <= pivot_level rowCol < C) pivotPos))
    as [Hlevels|Hlevels].
  - destruct (countPivot_loop pivotPos (replicate (Z.to_nat C) 0))
      as (countPivot & Hrun1 & Hlen1 & Hval1).
    { rewrite length_replicate, Z2Nat.id by lia. exact Hlevels. }
    { apply Forall_replicate. lia. }
    cbv zeta in Hrun1. rewrite Hrun1. cbn [mbind option_bind].
    rewrite length_replicate in Hlen1.
    assert (forall c, 0 <= c < Z.of_nat (length countPivot) ->
                      read countPivot c = Some (u32 (count_at pivotPos c))) as Hcp.
    { intros c Hc. rewrite read_lookup by lia.
      rewrite (Hval1 (Z.to_nat c) 0).
      - now rewrite Z2Nat.id, Z.add_0_l by lia.
      - apply lookup_replicate_2. lia. }
    destruct (Z.lt_ge_cases mMin 0) as [Hneg|Hpos].
    + (* the counter of the last loop starts below 0 *)
      replace (seqZ 0 mMin) with (@nil Z) by (unfold seqZ; now rewrite Z2Nat.nonpos by lia).
      cbn [for_each mbind option_bind].
      rewrite (seqZ_cons mMin (C - mMin)) by lia.
      cbn [for_each fst snd]. rewrite (read_None countPivot mMin) by lia.
      reflexivity.
    + (* the loop below [mMin] reads [countPivot[nCols]] *)
      assert (C < mMin) as Hhigh by (destruct (Z.le_gt_cases mMin C); tauto).
      replace mMin with (C + (mMin - C)) at 1 by lia.
      rewrite seqZ_app, for_each_app by lia.
      pose proof (count_loop countPivot pivotPos 0 0 (Z.to_nat C) Hcp) as Hrun2.
      rewrite Z2Nat.id in Hrun2 by lia.
      change (u32 0) with 0 in Hrun2. rewrite Hrun2 by lia. cbn [mbind option_bind].
      rewrite (seqZ_cons (0 + C) (mMin - C)) by lia.
      cbn [for_each]. rewrite Z.add_0_l. rewrite (read_None countPivot C) by lia.
      reflexivity.
  - rewrite countPivot_loop_undefined; [reflexivity|].
    apply not_Forall_Exists in Hlevels; [|intros x; apply _].
    rewrite length_replicate, Z2Nat.id by lia. exact Hlevels.
Qed.

(** C4, amended. With a single generating matrix the unilevel
    [computeTValue] returns 0.  The multilevel one is defined when
    [mMin] is at most [nCols] and every pivot of the reduced matrix has
    its row and its column below [nCols], and not otherwise:
    [countPivot], of size [nCols], is then indexed out of its range.
    When defined, it returns, for every level index [c] from [mMin] to
    [nCols - 1], the value [c + 1] minus the number of pivots whose row
    and column are both at most [c], as an [unsigned int]. *)
Theorem single_matrix_t_values (M0 : GM) (maxSubProj mMin : Z) (maxSubProjs : list Z) :
  let C := u32 (nCols M0) in
  let pivotPos := getPivots (single_matrix_reducer M0) in
  computeTValue [M0] maxSubProj = Some 0
  /\ (0 <= mMin <= C ->
      Forall (fun rowCol => 0 <= pivot_level rowCol < C) pivotPos ->
      exists res,
        computeTValue_multilevel [M0] mMin maxSubProjs = Some res
        /\ Z.of_nat (length res) = C - mMin
        /\ forall i, 0 <= i < C - mMin ->
             read res i = Some (u32 (mMin + i + 1 - used_columns pivotPos (mMin + i))))
  /\ (~ (0 <= mMin <= C
         /\ Forall (fun rowCol => 0 <= pivot_level rowCol < C) pivotPos) ->
      computeTValue_multilevel [M0] mMin maxSubProjs = None).
Proof.
  intros C pivotPos. split; [reflexivity|].
  assert (computeTValue_multilevel [M0] mMin maxSubProjs
          = single_matrix_levels M0 (u32 (nRows M0)) C mMin) as Hbranch by reflexivity.
  rewrite Hbranch. split.
  - intros HmMin Hlevels.
    exact (single_matrix_levels_value M0 mMin HmMin Hlevels).
  - apply single_matrix_levels_undefined.
Qed.

End SingleMatrixFacts.

(** ** The level-wise t-values of several matrices *)

Section LevelsFacts.
Context {GM RR CM : Type}.
Context `{!GeneratingMatrixOps GM} `{!ProgressiveRowReducerOps GM RR}
        `{!CompositionMakerOps CM}.
Import GaussMethod.

Lemma dominates_refl (maxSubProj : list Z) :
  Forall (fun m => 0 <= m) maxSubProj -> dominates maxSubProj maxSubProj.
Proof.
  intros Hpos. split; [reflexivity|].
  intros i m Hm. exists m. split; [exact Hm|].
  pose proof (Forall_lookup_1 _ _ _ _ Hpos Hm). simpl in *. lia.
Qed.

(** One write [result[i+diff] = max(bound, maxSubProj[i+diff])] within
    the vectors keeps [result] above [maxSubProj]. *)
Lemma raise_level_dominates (maxSubProj : list Z) (diff : Z) (bound : Z -> Z)
    (result : list Z) (i : Z) :
  Forall (fun m => 0 <= m) maxSubProj ->
  Z.of_nat (length maxSubProj) < 2 ^ 32 ->
  0 <= i + diff < Z.of_nat (length maxSubProj) ->
  dominates maxSubProj result ->
  exists m,
    read maxSubProj (i + diff) = Some m
    /\ raise_level maxSubProj diff bound result i
       = Some (<[Z.to_nat (i + diff) := Z.max (bound i) m]> result)
    /\ dominates maxSubProj (<[Z.to_nat (i + diff) := Z.max (bound i) m]> result).
Proof.
  intros Hpos Hlen Hi [Hsame Hdom].
  destruct (read_Some maxSubProj (i + diff) Hi) as [m Hm].
  exists m. split; [exact Hm|]. split.
  - unfold raise_level. rewrite (u32_small (i + diff)) by lia.
    rewrite Hm. cbn [mbind option_bind]. apply write_Some. lia.
  - split; [now rewrite length_insert|].
    intros j mj Hmj.
    destruct (decide (j = Z.to_nat (i + diff))) as [->|Hne].
    + apply read_inv in Hm as [_ Hm]. assert (mj = m) as -> by congruence.
      exists (Z.max (bound i) m). split.
      * apply list_lookup_insert_eq. rewrite Hsame. now apply lookup_lt_Some in Hm.
      * pose proof (Forall_lookup_1 _ _ _ _ Hpos Hm). simpl in *. lia.
    + rewrite list_lookup_insert_ne by congruence. now apply Hdom.
Qed.

Lemma raise_levels_dominate (maxSubProj : list Z) (diff : Z) (bound : Z -> Z)
    (l : list Z) :
  Forall (fun m => 0 <= m) maxSubProj ->
  Z.of_nat (length maxSubProj) < 2 ^ 32 ->
  (forall i, i ∈ l -> 0 <= i + diff < Z.of_nat (length maxSubProj)) ->
  forall result,
    dominates maxSubProj result ->
    exists result',
      for_each (raise_level maxSubProj diff bound) result l = Some result'
      /\ dominates maxSubProj result'.
Proof.
  intros Hpos Hlen. induction l as [|i l IH]; intros Hl result Hdom.
  - exists result. auto.
  - destruct (raise_level_dominates maxSubProj diff bound result i Hpos Hlen)
      as (m & _ & Hstep & Hdom'); [apply Hl; left | exact Hdom |].
    simpl. rewrite Hstep. cbn [mbind option_bind].
    apply IH; [|exact Hdom']. intros j Hj. apply Hl. now right.
Qed.

(** The loop over [k] keeps [result] above [maxSubProj], as long as the
    single-net routine returns an index that is at most [nCols]. *)
Lemma levels_loop_dominates (baseMatrices : list GM) (C : Z) (maxSubProj : list Z)
    (diff nLevel mMin : Z) :
  Forall (fun m => 0 <= m) maxSubProj ->
  0 <= diff -> 0 <= mMin ->
  diff + nLevel = Z.of_nat (length maxSubProj) ->
  Z.of_nat (length maxSubProj) < 2 ^ 32 ->
  C < 2 ^ 32 -> C - mMin <= nLevel + 1 ->
  forall (ks : list Z) (result : list Z) (prev : Z),
    (forall k, k ∈ ks -> exists r, iteration_on_k baseMatrices k = Some r /\ r <= C) ->
    prev <= nLevel ->
    dominates maxSubProj result ->
    exists res,
      levels_loop baseMatrices C maxSubProj diff nLevel mMin ks result prev = Some res
      /\ dominates maxSubProj res.
Proof.
  intros Hpos Hdiff HmMin Hlevels Hlen HC Hfit.
  induction ks as [|k ks IH]; intros result prev Hiter Hprev Hdom.
  - exists result. auto.
  - destruct (Hiter k) as (r & Hr & HrC); [left|].
    assert (forall k', k' ∈ ks ->
              exists r', iteration_on_k baseMatrices k' = Some r' /\ r' <= C) as Hiter'
      by (intros k' Hk'; apply Hiter; now right).
    simpl. rewrite Hr. cbn [mbind option_bind].
    destruct (Z.eqb_spec r C) as [->|HrneC]; [now apply IH|].
    set (first := if mMin <? r then u32 (r - mMin) else 0).
    assert (0 <= first) as Hfirst.
    { unfold first. destruct (mMin <? r); [apply u32_range | lia]. }
    destruct (raise_levels_dominate maxSubProj diff
                (fun i => u32 (C - (nLevel - 1 - i) - k))
                (seqZ first (prev - first)) Hpos Hlen) with (result := result)
      as (result' & Hrun & Hdom'); [|exact Hdom|].
    { intros i Hi. apply elem_of_seqZ in Hi. lia. }
    rewrite Hrun. cbn [mbind option_bind].
    destruct (Z.leb_spec r mMin) as [Hle|Hgt]; [exists result'; auto|].
    apply IH; [exact Hiter' | | exact Hdom'].
    rewrite u32_small by lia. lia.
Qed.

Lemma refine_levels_dominates (baseMatrices : list GM) (R C s : Z)
    (maxSubProj : list Z) (diff nLevel mMin : Z) :
  Forall (fun m => 0 <= m) maxSubProj ->
  0 <= diff -> 0 <= mMin -> 0 < nLevel ->
  diff + nLevel = Z.of_nat (length maxSubProj) ->
  Z.of_nat (length maxSubProj) < 2 ^ 32 ->
  C < 2 ^ 32 -> C - mMin <= nLevel + 1 ->
  (forall back k,
     last maxSubProj = Some back -> s <= k <= u32 (R - back) ->
     exists r, iteration_on_k baseMatrices k = Some r /\ r <= C) ->
  exists res,
    refine_levels baseMatrices R C s maxSubProj diff nLevel mMin = Some res
    /\ dominates maxSubProj res.
Proof.
  intros Hpos Hdiff HmMin HnLevel Hlevels Hlen HC Hfit Hiter.
  unfold refine_levels.
  destruct (raise_levels_dominate maxSubProj diff
              (fun i => u32 (C - (nLevel - 1 - i) - s + 1))
              (seqZ 0 nLevel) Hpos Hlen) with (result := maxSubProj)
    as (result & Hrun & Hdom); [|now apply dominates_refl|].
  { intros i Hi. apply elem_of_seqZ in Hi. lia. }
  rewrite Hrun. cbn [mbind option_bind].
  destruct (last maxSubProj) as [back|] eqn:Hback.
  - cbn [mbind option_bind].
    apply levels_loop_dominates; auto; [|lia].
    intros k Hk. apply (Hiter back k eq_refl).
    apply elem_of_reverse, elem_of_seqZ in Hk. lia.
  - apply last_None in Hback. subst maxSubProj. simpl in Hlevels. lia.
Qed.

Lemma computeTValue_multilevel_defined (baseMatrices : list GM) (M0 : GM)
    (mMin : Z) (maxSubProj : list Z) :
  let s := Z.of_nat (length baseMatrices) in
  let C := u32 (nCols M0) in
  let R := u32 (nRows M0) in
  read baseMatrices 0 = Some M0 ->
  2 <= s < 2 ^ 32 ->
  0 <= mMin < C ->
  Z.of_nat (length maxSubProj) = C - mMin ->
  Forall (fun m => 0 <= m) maxSubProj ->
  (forall back k,
     last maxSubProj = Some back -> s <= k <= u32 (R - back) ->
     exists r, iteration_on_k baseMatrices k = Some r /\ r <= C) ->
  exists res,
    computeTValue_multilevel baseMatrices mMin maxSubProj = Some res
    /\ dominates maxSubProj res.
Proof.
  intros s C R HM0 Hs HmMin Hlevels Hpos Hiter.
  pose proof (u32_range (nCols M0)) as HC. fold C in HC.
  unfold computeTValue_multilevel. rewrite HM0. cbn [mbind option_bind].
  fold s C R.
  destruct (Z.eqb_spec s 1) as [Hs1|_]; [lia|].
  rewrite (u32_small (s - 1)) by lia.
  destruct (Z.ltb_spec mMin (s - 1)) as [Hlt|Hge].
  - rewrite (u32_small (s - 1 - mMin)) by lia.
    destruct (Z.leb_spec (Z.of_nat (length maxSubProj)) (s - 1 - mMin)) as [Hfew|Hmany].
    + exists maxSubProj. split; [reflexivity | now apply dominates_refl].
    + rewrite (u32_small (Z.of_nat (length maxSubProj) - (s - 1 - mMin))) by lia.
      apply refine_levels_dominates; auto; lia.
  - apply refine_levels_dominates; auto; lia.
Qed.

End LevelsFacts.

(** ** The level-wise t-values on the reference implementations *)

Section LevelsWitnesses.
Import Reference GaussMethod.

(** The identity matrix has t-value 0 at every level. *)
Example identity_levels :
  computeTValue_multilevel [I3] 0 [0; 0; 0] = Some [0; 0; 0].
Proof. reflexivity. Qed.

(** C4, counterexample. For the single (invertible) matrix that exchanges
    two coordinates, the multilevel [computeTValue] from [mMin = 0]
    returns 1 at the first level, not 0.  For the single matrix [tall],
    with three rows and two columns and its only pivot in the last row,
    it returns nothing: [countPivot], of size 2, is indexed at 2. *)
Lemma single_matrix_t_values_counterexample :
  length [swap2] = 1%nat
  /\ (exists res,
        computeTValue_multilevel [swap2] 0 [0; 0] = Some res
        /\ ~ Forall (fun t => t = 0) res)
  /\ length [tall] = 1%nat
  /\ getPivots (single_matrix_reducer tall) = [(2, 0)]
  /\ computeTValue_multilevel [tall] 0 [0; 0] = None.
Proof.
  split; [reflexivity|]. split.
  - exists [1; 0]. split; [reflexivity|].
    intros Hall. apply Forall_cons in Hall as [H _]. discriminate H.
  - repeat split; reflexivity.
Qed.

Lemma single_matrix_t_values_witness :
  0 <= 0 <= u32 (nCols swap2)
  /\ Forall (fun rowCol => 0 <= pivot_level rowCol < u32 (nCols swap2))
            (getPivots (single_matrix_reducer swap2))
  /\ computeTValue [swap2] 0 = Some 0
  /\ exists res,
       computeTValue_multilevel [swap2] 0 [0; 0] = Some res
       /\ read res 0 = Some 1 /\ read res 1 = Some 0.
Proof.
  assert (0 <= 0 <= u32 (nCols swap2)) as HmMin by (vm_compute; split; discriminate).
  assert (Forall (fun rowCol => 0 <= pivot_level rowCol < u32 (nCols swap2))
                 (getPivots (single_matrix_reducer swap2))) as Hlevels.
  { assert (getPivots (single_matrix_reducer swap2) = [(0, 1); (1, 0)]) as ->
      by (vm_compute; reflexivity).
    repeat (apply List.Forall_cons; [vm_compute; split; [discriminate | reflexivity] |]).
    apply List.Forall_nil. }
  destruct (single_matrix_t_values swap2 0 0 [0; 0]) as (Huni & Hmulti & _).
  destruct (Hmulti HmMin Hlevels) as (res & Hrun & Hlen & Hval).
  split; [exact HmMin|]. split; [exact Hlevels|]. split; [exact Huni|].
  exists res. split; [exact Hrun|]. split.
  - rewrite (Hval 0) by (vm_compute; split; [discriminate | reflexivity]). reflexivity.
  - rewrite (Hval 1) by (vm_compute; split; [discriminate | reflexivity]). reflexivity.
Defined.


End LevelsWitnesses.

(** ** The step bound across the levels *)

Section StepFacts.
Context {GM RR CM : Type}.
Context `{!GeneratingMatrixOps GM} `{!ProgressiveRowReducerOps GM RR}
        `{!CompositionMakerOps CM}.
Import GaussMethod.

Lemma read_insert_eq {A : Type} (v : list A) (j : Z) (x : A) :
  0 <= j < Z.of_nat (length v) -> read (<[Z.to_nat j := x]> v) j = Some x.
Proof.
  intros Hj. rewrite read_lookup by lia. apply list_lookup_insert_eq. lia.
Qed.

Lemma read_insert_ne {A : Type} (v : list A) (j j' : Z) (x : A) :
  0 <= j -> j <> j' -> read (<[Z.to_nat j := x]> v) j' = read v j'.
Proof.
  intros Hj Hne. unfold read. destruct (Z.leb_spec 0 j'); [|reflexivity].
  apply list_lookup_insert_ne. lia.
Qed.

Lemma read_same_length {A B : Type} (v : list A) (w : list B) (j : Z) (x : A) :
  length v = length w -> read v j = Some x -> exists y, read w j = Some y.
Proof.
  intros Hlen Hx. apply read_inv in Hx as [Hj _]. apply read_Some. lia.
Qed.

Lemma steps_by_one_read (res : list Z) :
  steps_by_one res <->
  forall j x y, read res j = Some x -> read res (j + 1) = Some y -> y <= x + 1.
Proof.
  split.
  - intros Hsteps j x y Hx Hy.
    apply read_inv in Hx as [Hj Hx]. apply read_inv in Hy as [_ Hy].
    replace (Z.to_nat (j + 1)) with (S (Z.to_nat j)) in Hy by lia.
    exact (Hsteps _ _ _ Hx Hy).
  - intros Hread i x y Hx Hy. apply (Hread (Z.of_nat i)).
    + rewrite read_lookup, Nat2Z.id by lia. exact Hx.
    + rewrite read_lookup by lia.
      replace (Z.to_nat (Z.of_nat i + 1)) with (S i) by lia. exact Hy.
Qed.

(** What the writes [result[i+diff] = max(bound(i), maxSubProj[i+diff])]
    for [i = a, ..., a+n-1] leave in [result]. *)
Lemma raise_levels_values (maxSubProj : list Z) (diff : Z) (bound : Z -> Z)
    (a : Z) (n : nat) (result : list Z) :
  Z.of_nat (length maxSubProj) < 2 ^ 32 ->
  length result = length maxSubProj ->
  0 <= a + diff ->
  a + Z.of_nat n + diff <= Z.of_nat (length maxSubProj) ->
  exists result',
    for_each (raise_level maxSubProj diff bound) result (seqZ a (Z.of_nat n)) = Some result'
    /\ length result' = length maxSubProj
    /\ (forall i m,
          a <= i < a + Z.of_nat n ->
          read maxSubProj (i + diff) = Some m ->
          read result' (i + diff) = Some (Z.max (bound i) m))
    /\ (forall j,
          ~ (a + diff <= j < a + Z.of_nat n + diff) ->
          read result' j = read result j).
Proof.
  intros Hlen Hsame Ha. induction n as [|n IH]; intros Hn.
  - exists result. simpl. repeat split; auto. intros i m Hi. lia.
  - destruct IH as (result_n & Hrun & Hlen_n & Hin & Hout); [lia|].
    rewrite seqZ_S, for_each_app, Hrun. cbn [mbind option_bind for_each].
    unfold raise_level at 1.
    rewrite (u32_small (a + Z.of_nat n + diff)) by lia.
    destruct (read_Some maxSubProj (a + Z.of_nat n + diff)) as [m Hm]; [lia|].
    rewrite Hm. cbn [mbind option_bind].
    rewrite write_Some by lia. cbn [mbind option_bind].
    eexists. split; [reflexivity|]. split; [now rewrite length_insert|]. split.
    + intros i m' Hi Hm'.
      destruct (decide (i = a + Z.of_nat n)) as [->|Hne].
      * rewrite read_insert_eq by lia. congruence.
      * rewrite read_insert_ne by lia. apply Hin; [lia | exact Hm'].
    + intros j Hj. rewrite read_insert_ne by lia. apply Hout. lia.
Qed.

(** Writing the levels [first <= i < prev] keeps the step bound, when it
    holds of [maxSubProj], of the bounds written, and across the two ends
    of the range. *)
Lemma raise_levels_steps (maxSubProj : list Z) (diff : Z) (bound : Z -> Z)
    (first prev : Z) (result result' : list Z) :
  steps_by_one maxSubProj ->
  steps_by_one result ->
  length result = length maxSubProj ->
  length result' = length maxSubProj ->
  (forall i m,
     first <= i < prev -> read maxSubProj (i + diff) = Some m ->
     read result' (i + diff) = Some (Z.max (bound i) m)) ->
  (forall j, ~ (first + diff <= j < prev + diff) -> read result' j = read result j) ->
  (forall i, first <= i -> i + 1 < prev -> bound (i + 1) <= bound i + 1) ->
  (first < prev ->
   forall x m, read result (first + diff - 1) = Some x ->
               read maxSubProj (first + diff - 1) = Some m ->
               m <= x /\ bound first <= x + 1) ->
  (first < prev ->
   forall y m, read result (prev + diff) = Some y ->
               read maxSubProj (prev - 1 + diff) = Some m ->
               y <= Z.max (bound (prev - 1)) m + 1) ->
  steps_by_one result'.
Proof.
  intros Hmsp Hsteps Hlen Hlen' Hin Hout Hbound Hlow Hup.
  apply steps_by_one_read. intros j x y Hx Hy.
  pose proof (proj1 (steps_by_one_read maxSubProj) Hmsp) as Hmsp'.
  pose proof (proj1 (steps_by_one_read result) Hsteps) as Hsteps'.
  destruct (read_same_length result' maxSubProj j x Hlen' Hx) as [mj Hmj].
  destruct (read_same_length result' maxSubProj (j + 1) y Hlen' Hy) as [mj1 Hmj1].
  pose proof (Hmsp' j mj mj1 Hmj Hmj1) as Hm.
  destruct (decide (first + diff <= j < prev + diff)) as [Hjin|Hjout];
    destruct (decide (first + diff <= j + 1 < prev + diff)) as [Hj1in|Hj1out].
  - (* both written *)
    replace j with (j - diff + diff) in Hx, Hmj by lia.
    replace (j + 1) with (j - diff + 1 + diff) in Hy, Hmj1 by lia.
    rewrite (Hin (j - diff) mj) in Hx by (assumption || lia).
    rewrite (Hin (j - diff + 1) mj1) in Hy by (assumption || lia).
    injection Hx as <-. injection Hy as <-.
    pose proof (Hbound (j - diff) ltac:(lia) ltac:(lia)). lia.
  - (* the upper end *)
    assert (j = prev - 1 + diff) as -> by lia.
    rewrite (Hin (prev - 1) mj) in Hx by (assumption || lia).
    injection Hx as <-.
    rewrite Hout in Hy by lia.
    replace (prev - 1 + diff + 1) with (prev + diff) in Hy by lia.
    apply (Hup ltac:(lia) y mj Hy Hmj).
  - (* the lower end *)
    assert (j = first + diff - 1) as -> by lia.
    replace (first + diff - 1 + 1) with (first + diff) in Hy, Hmj1 by lia.
    rewrite (Hin first mj1) in Hy by (assumption || lia).
    injection Hy as <-.
    rewrite Hout in Hx by lia.
    destruct (Hlow ltac:(lia) x mj Hx Hmj). lia.
  - (* none written *)
    rewrite Hout in Hx by exact Hjout. rewrite Hout in Hy by exact Hj1out.
    exact (Hsteps' j x y Hx Hy).
Qed.

(** The loop over [k = s + n - 1, ..., s] keeps the step bound.  Below
    [prev] the entries are those of the first loop over the levels; the
    entry at [prev] is bounded by what a [k] beyond the ones to come has
    written there. *)
Lemma levels_loop_steps (baseMatrices : list GM) (C s : Z) (maxSubProj : list Z)
    (diff nLevel mMin : Z) :
  Forall (fun m => 0 <= m) maxSubProj ->
  steps_by_one maxSubProj ->
  Z.of_nat (length maxSubProj) < 2 ^ 32 ->
  0 <= diff -> diff + nLevel = Z.of_nat (length maxSubProj) ->
  mMin + nLevel = C -> C < 2 ^ 32 ->
  2 <= s -> s - 1 <= mMin -> (0 < diff -> mMin = s - 1) ->
  forall (n : nat) (result : list Z) (prev : Z),
    index_in_range baseMatrices C s (s + Z.of_nat n - 1) ->
    index_monotone baseMatrices C s (s + Z.of_nat n - 1) ->
    0 <= prev <= nLevel ->
    (forall k r, s <= k < s + Z.of_nat n ->
                 iteration_on_k baseMatrices k = Some r -> r <> C -> r - mMin <= prev) ->
    length result = length maxSubProj ->
    steps_by_one result ->
    (forall j, 0 <= j < diff -> read result j = read maxSubProj j) ->
    (forall i m, 0 <= i < prev -> read maxSubProj (i + diff) = Some m ->
                 read result (i + diff) = Some (Z.max (C - (nLevel - 1 - i) - (s - 1)) m)) ->
    (forall y m, read result (prev + diff) = Some y ->
                 read maxSubProj (prev + diff) = Some m ->
                 y <= Z.max (C - (nLevel - 1 - prev) - (s + Z.of_nat n)) m) ->
    exists res,
      levels_loop baseMatrices C maxSubProj diff nLevel mMin
        (reverse (seqZ s (Z.of_nat n))) result prev = Some res
      /\ steps_by_one res.
Proof.
  intros Hpos Hmsp Hlen32 Hdiff Hlevels HC HC32 Hs HmMin Hdm.
  pose proof (proj1 (steps_by_one_read maxSubProj) Hmsp) as Hmsp'.
  induction n as [|n IH];
    intros result prev Hrange [Hlower Hmono] Hprev Hfirst Hlen Hsteps Hpre Hlo Hhi.
  - exists result. auto.
  - rewrite seqZ_S, reverse_app. cbn [reverse rev_append app levels_loop].
    change (rev_append (seqZ s (Z.of_nat n)) []) with (reverse (seqZ s (Z.of_nat n))).
    set (k := s + Z.of_nat n).
    assert (index_in_range baseMatrices C s (s + Z.of_nat n - 1)) as Hrange'
      by (intros k' Hk'; apply Hrange; lia).
    assert (index_monotone baseMatrices C s (s + Z.of_nat n - 1)) as Hmono'.
    { split.
      - intros k' r' Hk'. apply Hlower. lia.
      - intros k1 k2 r1 r2 Hk12. apply Hmono. lia. }
    destruct (Hrange k) as (r & Hr & HrC); [unfold k; lia|].
    rewrite Hr. cbn [mbind option_bind].
    destruct (Z.eqb_spec r C) as [HrC'|HrneC].
    + (* this [k] is skipped *)
      apply IH; auto.
      * intros k' r' Hk'. apply Hfirst. lia.
      * intros y m Hy Hm. specialize (Hhi y m Hy Hm). lia.
    + destruct (Hlower k r) as [?|Hkr]; [unfold k; lia | exact Hr | contradiction |].
      set (first := if mMin <? r then u32 (r - mMin) else 0).
      assert (first = Z.max (r - mMin) 0) as Hfirst_val.
      { unfold first. destruct (Z.ltb_spec mMin r); [rewrite u32_small|]; lia. }
      assert (0 <= first <= prev) as Hfp.
      { specialize (Hfirst k r ltac:(unfold k; lia) Hr HrneC). lia. }
      set (bound := fun i => u32 (C - (nLevel - 1 - i) - k)).
      assert (forall i, first <= i < prev -> bound i = C - (nLevel - 1 - i) - k) as Hbound_val.
      { intros i Hi. unfold bound. apply u32_small. lia. }
      destruct (raise_levels_values maxSubProj diff bound first (Z.to_nat (prev - first))
                  result Hlen32 Hlen)
        as (result' & Hrun & Hlen' & Hin & Hout); [lia | lia |].
      rewrite Z2Nat.id in Hrun, Hin, Hout by lia.
      replace (first + (prev - first)) with prev in Hin, Hout by lia.
      rewrite Hrun. cbn [mbind option_bind].
      assert (steps_by_one result') as Hsteps'.
      { apply (raise_levels_steps maxSubProj diff bound first prev result result');
          auto.
        - intros i Hi1 Hi2. rewrite !Hbound_val by lia. lia.
        - intros Hne x m Hx Hm. rewrite Hbound_val by lia.
          destruct (decide (first = 0)) as [Hzero|Hpos1].
          + rewrite Hzero in Hx, Hm. simpl in Hx, Hm.
            apply read_inv in Hx as Hx'. destruct Hx' as [Hj _].
            rewrite Hpre in Hx by lia.
            assert (x = m) as -> by congruence.
            apply read_inv in Hm as [_ Hm].
            pose proof (Forall_lookup_1 _ _ _ _ Hpos Hm) as Hm0. simpl in Hm0.
            specialize (Hdm ltac:(lia)). lia.
          + replace (first + diff - 1) with (first - 1 + diff) in Hx, Hm by lia.
            rewrite (Hlo (first - 1) m) in Hx by (assumption || lia).
            injection Hx as <-. lia.
        - intros Hne y m Hy Hm. rewrite Hbound_val by lia.
          destruct (read_same_length result maxSubProj (prev + diff) y Hlen Hy) as [m' Hm'].
          specialize (Hhi y m' Hy Hm').
          replace (prev + diff) with (prev - 1 + diff + 1) in Hm' by lia.
          pose proof (Hmsp' _ _ _ Hm Hm'). unfold k. lia. }
      destruct (Z.leb_spec r mMin) as [Hle|Hgt]; [exists result'; auto|].
      assert (u32 (r - mMin) = first) as -> by (rewrite u32_small; lia).
      apply IH; auto.
      * lia.
      * intros k' r' Hk' Hr' Hr'C.
        pose proof (Hmono k' k r' r ltac:(unfold k; lia) Hr' Hr). lia.
      * intros j Hj. rewrite Hout by lia. now apply Hpre.
      * intros i m Hi Hm. rewrite Hout by lia. apply Hlo; [lia | exact Hm].
      * intros y m Hy Hm.
        destruct (decide (first < prev)) as [Hlt|Hge].
        -- rewrite (Hin first m) in Hy by (assumption || lia).
           injection Hy as <-. rewrite Hbound_val by lia. unfold k. lia.
        -- assert (first = prev) as Heq by lia. rewrite Heq in *.
           rewrite Hout in Hy by lia. specialize (Hhi y m Hy Hm). lia.
Qed.

Lemma refine_levels_steps (baseMatrices : list GM) (R C s : Z)
    (maxSubProj : list Z) (diff nLevel mMin back : Z) :
  Forall (fun m => 0 <= m) maxSubProj ->
  steps_by_one maxSubProj ->
  Z.of_nat (length maxSubProj) < 2 ^ 32 ->
  0 <= diff -> 0 < nLevel -> diff + nLevel = Z.of_nat (length maxSubProj) ->
  mMin + nLevel = C -> C < 2 ^ 32 ->
  2 <= s -> s - 1 <= mMin -> (0 < diff -> mMin = s - 1) ->
  last maxSubProj = Some back ->
  index_in_range baseMatrices C s (u32 (R - back)) ->
  index_monotone baseMatrices C s (u32 (R - back)) ->
  exists res,
    refine_levels baseMatrices R C s maxSubProj diff nLevel mMin = Some res
    /\ steps_by_one res.
Proof.
  intros Hpos Hmsp Hlen32 Hdiff HnLevel Hlevels HC HC32 Hs HmMin Hdm Hback
    Hrange [Hlower Hmono].
  unfold refine_levels.
  set (bound := fun i => u32 (C - (nLevel - 1 - i) - s + 1)).
  assert (forall i, 0 <= i < nLevel -> bound i = C - (nLevel - 1 - i) - (s - 1))
    as Hbound_val.
  { intros i Hi. unfold bound. rewrite u32_small; lia. }
  destruct (raise_levels_values maxSubProj diff bound 0 (Z.to_nat nLevel) maxSubProj
              Hlen32 eq_refl)
    as (result & Hrun & Hlen & Hin & Hout); [lia | lia |].
  rewrite Z2Nat.id in Hrun, Hin, Hout by lia.
  rewrite Z.add_0_l in Hin, Hout.
  rewrite Hrun, Hback. cbn [mbind option_bind].
  assert (steps_by_one result) as Hsteps.
  { apply (raise_levels_steps maxSubProj diff bound 0 nLevel maxSubProj result); auto.
    - intros i Hi1 Hi2. rewrite !Hbound_val by lia. lia.
    - intros _ x m Hx Hm. assert (x = m) as -> by congruence.
      apply read_inv in Hm as [Hj Hm].
      pose proof (Forall_lookup_1 _ _ _ _ Hpos Hm) as Hm0. simpl in Hm0.
      rewrite Hbound_val by lia. specialize (Hdm ltac:(lia)). lia.
    - intros _ y m Hy _. apply read_inv in Hy as [Hj _]. lia. }
  set (n := Z.to_nat (u32 (R - back) - s + 1)).
  assert (seqZ s (u32 (R - back) - s + 1) = seqZ s (Z.of_nat n)) as ->.
  { destruct (Z.le_gt_cases 0 (u32 (R - back) - s + 1)).
    - unfold n. now rewrite Z2Nat.id.
    - rewrite !seqZ_nil; [reflexivity | lia | lia]. }
  apply (levels_loop_steps baseMatrices C s maxSubProj diff nLevel mMin); auto.
  - intros k Hk. apply Hrange. lia.
  - split.
    + intros k r Hk. apply Hlower. lia.
    + intros k k' r r' Hk. apply Hmono. lia.
  - lia.
  - intros k r Hk Hr _. destruct (Hrange k) as (r' & Hr' & HrC); [lia|].
    assert (r = r') as -> by congruence. lia.
  - intros j Hj. apply Hout. lia.
  - intros i m Hi Hm. rewrite (Hin i m) by (assumption || lia).
    now rewrite Hbound_val by lia.
  - intros y m Hy _. apply read_inv in Hy as [Hj _]. lia.
Qed.

(** X22. For a family of [s >= 2] matrices, with one entry of
    [maxSubProj] per level from [mMin + 1] to [nCols], the entries that
    the multilevel [computeTValue] returns grow by at most one from a
    level to the next when those of [maxSubProj] do and the index that
    [iteration_on_k] returns is at most [nCols], is [nCols] or at least
    [k - 1], and does not grow when [k] decreases. *)
Theorem computeTValue_multilevel_steps (baseMatrices : list GM) (M0 : GM)
    (mMin : Z) (maxSubProj : list Z) (back : Z) :
  let s := Z.of_nat (length baseMatrices) in
  let C := u32 (nCols M0) in
  let R := u32 (nRows M0) in
  read baseMatrices 0 = Some M0 ->
  2 <= s < 2 ^ 32 ->
  0 <= mMin < C ->
  Z.of_nat (length maxSubProj) = C - mMin ->
  Forall (fun m => 0 <= m) maxSubProj ->
  last maxSubProj = Some back ->
  index_in_range baseMatrices C s (u32 (R - back)) ->
  steps_by_one maxSubProj ->
  index_monotone baseMatrices C s (u32 (R - back)) ->
  exists res,
    computeTValue_multilevel baseMatrices mMin maxSubProj = Some res
    /\ steps_by_one res.
Proof.
  intros s C R HM0 Hs HmMin Hlevels Hpos Hback Hrange Hmsp Hmono.
  pose proof (u32_range (nCols M0)) as HC. fold C in HC.
  unfold computeTValue_multilevel. rewrite HM0. cbn [mbind option_bind].
  fold s C R.
  destruct (Z.eqb_spec s 1) as [Hs1|_]; [lia|].
  rewrite (u32_small (s - 1)) by lia.
  destruct (Z.ltb_spec mMin (s - 1)) as [Hlt|Hge].
  - rewrite (u32_small (s - 1 - mMin)) by lia.
    destruct (Z.leb_spec (Z.of_nat (length maxSubProj)) (s - 1 - mMin)) as [Hfew|Hmany].
    + exists maxSubProj. auto.
    + rewrite (u32_small (Z.of_nat (length maxSubProj) - (s - 1 - mMin))) by lia.
      apply (refine_levels_steps baseMatrices R C s maxSubProj _ _ _ back); auto; lia.
  - apply (refine_levels_steps baseMatrices R C s maxSubProj _ _ _ back); auto; lia.
Qed.


End StepFacts.

(** ** The bounds across the levels on the reference implementations *)

Section StepWitnesses.
Import Reference GaussMethod.

Lemma I3_J3_index_in_range : index_in_range [I3; J3] 3 2 3.
Proof.
  intros k Hk. assert (k = 2 \/ k = 3) as [-> | ->] by lia.
  - exists 1. split; [reflexivity | lia].
  - exists 3. split; [reflexivity | lia].
Qed.

Lemma I3_J3_index_monotone : index_monotone [I3; J3] 3 2 3.
Proof.
  assert (iteration_on_k [I3; J3] 2 = Some 1) as H2 by reflexivity.
  assert (iteration_on_k [I3; J3] 3 = Some 3) as H3 by reflexivity.
  split.
  - intros k r Hk Hr. assert (k = 2 \/ k = 3) as [-> | ->] by lia.
    + rewrite H2 in Hr. injection Hr as <-. right. lia.
    + rewrite H3 in Hr. injection Hr as <-. now left.
  - intros k k' r r' Hk Hr Hr'.
    assert (k = 2 \/ k = 3) as [-> | ->] by lia;
      assert (k' = 2 \/ k' = 3) as [-> | ->] by lia;
      try lia.
    + assert (r = r') by congruence. lia.
    + assert (r = 1) by congruence. assert (r' = 3) by congruence. lia.
    + assert (r = r') by congruence. lia.
Qed.


Lemma computeTValue_multilevel_steps_witness :
  exists res,
    computeTValue_multilevel [I3; J3] 0 [0; 0; 0] = Some res
    /\ steps_by_one res.
Proof.
  assert (steps_by_one [0; 0; 0]) as Hmsp.
  { intros i x y Hx Hy.
    destruct i as [|[|[|i]]]; simpl in Hx, Hy; try discriminate;
      injection Hx as <-; injection Hy as <-; lia. }
  apply (computeTValue_multilevel_steps [I3; J3] I3 0 [0; 0; 0] 0).
  - reflexivity.
  - simpl. lia.
  - vm_compute. split; [discriminate | reflexivity].
  - reflexivity.
  - repeat constructor; lia.
  - reflexivity.
  - exact I3_J3_index_in_range.
  - exact Hmsp.
  - exact I3_J3_index_monotone.
Defined.

End StepWitnesses.

(** ** The maximal cardinality for the other types of weights *)

Section MaxCardMoreFacts.
Import LatticeTester ComputeMaxCardFromWeights ComputeMaxCardMore.

(** X4. For order-dependent weights whose default weight is not
    positive (it may be negative), the result is the largest order
    [1 <= i < getSize()] whose weight is not zero, or 0 if there is
    none: order 0 and the orders from [getSize()] on are never looked
    at, and a negative weight counts. *)
Theorem OrderDependent_largest_nonzero format (w : OrderDependentWeights) :
  ~ (0 < od_getDefaultWeight w)%R ->
  exists maxCard : nat,
    OrderDependent format w = inr maxCard
    /\ (maxCard = 0%nat
        \/ ((1 <= maxCard < od_getSize w)%nat /\ getWeightForOrder w maxCard <> 0%R))
    /\ forall k : nat, (maxCard < k < od_getSize w)%nat -> getWeightForOrder w k = 0%R.
Proof.
  intros Hd. unfold OrderDependent.
  destruct (Rgt_dec (od_getDefaultWeight w) 0) as [Hgt|_]; [exfalso; apply Hd; exact Hgt|].
  eexists. split; [reflexivity|].
  destruct (od_scan w (od_getSize w - 1)) as [H1 H2].
  split.
  - destruct H1 as [->|[Hr Hw]]; [now left|right]. split; [lia|exact Hw].
  - intros k Hk. apply H2. lia.
Qed.

Lemma OrderDependent_largest_nonzero_witness :
  ~ (0 < od_getDefaultWeight negative_default)%R
  /\ OrderDependent (fun _ => "order-dependent") negative_default = inr 2%nat.
Proof.
  assert (~ (0 < od_getDefaultWeight negative_default)%R) as Hd by (simpl; lra).
  split; [exact Hd|].
  destruct (OrderDependent_largest_nonzero (fun _ => "order-dependent") negative_default Hd)
    as (maxCard & -> & Hmax & Hzero).
  f_equal.
  destruct Hmax as [->|[Hr Hw]].
  - exfalso. pose proof (Hzero 2%nat ltac:(unfold od_getSize; simpl; lia)) as H2.
    unfold getWeightForOrder in H2. simpl in H2. lra.
  - unfold od_getSize in Hr. simpl in Hr.
    assert (maxCard = 1 \/ maxCard = 2 \/ maxCard = 3)%nat as [-> | [-> | ->]] by lia.
    + exfalso. apply Hw. reflexivity.
    + reflexivity.
    + exfalso. apply Hw. reflexivity.
Defined.

Lemma foldl_max_bounds {A : Type} (f : A -> nat) (l : list A) :
  forall m0 : nat,
    let m := foldl (fun maxCard x => Nat.max maxCard (f x)) m0 l in
    (m0 <= m)%nat
    /\ (forall x, x ∈ l -> (f x <= m)%nat)
    /\ (m = m0 \/ exists x, x ∈ l /\ f x = m).
Proof.
  induction l as [|y l IH]; intros m0; cbv zeta.
  - simpl. split; [lia|]. split; [intros x Hx; inversion Hx|now left].
  - cbn [foldl]. destruct (IH (Nat.max m0 (f y))) as (H1 & H2 & H3). cbv zeta in *.
    split; [lia|]. split.
    + intros x Hx. apply elem_of_cons in Hx. destruct Hx as [->|Hx]; [lia|auto].
    + destruct H3 as [H3|(x & Hx & Hfx)].
      * destruct (Nat.max_spec m0 (f y)) as [[_ Hm]|[_ Hm]].
        -- right. exists y. split; [left|]. lia.
        -- left. lia.
      * right. exists x. split; [right; exact Hx|exact Hfx].
Qed.

Lemma foldl_lookup_seq {A B : Type} (g : B -> list A -> B) (ws : list (list A)) :
  forall (pre : list (list A)) (b : B),
    foldl (fun b i => g b (default [] ((pre ++ ws) !! i))) b
          (seq (length pre) (length ws))
    = foldl g b ws.
Proof.
  induction ws as [|l ws IH]; intros pre b.
  - reflexivity.
  - cbn [length seq foldl].
    rewrite list_lookup_middle by reflexivity. cbn [default].
    specialize (IH (pre ++ [l]) (g b l)).
    rewrite <- app_assoc, length_app in IH. cbn [app length] in IH.
    rewrite Nat.add_1_r in IH. exact IH.
Qed.

(** X6. For projection-dependent weights the result is the largest
    cardinality of the projections that are stored, whatever their
    weights (a weight 0 counts), and 0 if none is stored; nothing is
    thrown. *)
Theorem ProjectionDependent_max_card (w : ProjectionDependentWeights) :
  (forall (i : nat) (proj : list nat) (weight : R),
      (proj, weight) ∈ getWeightsForLargestIndex w i ->
      (length proj <= ProjectionDependent w)%nat)
  /\ (ProjectionDependent w = 0%nat
      \/ exists (i : nat) (proj : list nat) (weight : R),
           (proj, weight) ∈ getWeightsForLargestIndex w i
           /\ length proj = ProjectionDependent w).
Proof.
  unfold ProjectionDependent, pd_getSize, getWeightsForLargestIndex.
  assert (forall (ws : list (list (list nat * R))) (m0 : nat),
            let m := foldl (fun maxCard l =>
                              foldl (fun maxCard (kv : list nat * R) =>
                                       Nat.max maxCard (length (fst kv))) maxCard l)
                           m0 ws in
            (m0 <= m)%nat
            /\ (forall l kv, l ∈ ws -> kv ∈ l -> (length (fst kv) <= m)%nat)
            /\ (m = m0 \/ exists l kv, l ∈ ws /\ kv ∈ l /\ length (fst kv) = m)) as Hnested.
  { induction ws as [|l ws IH]; intros m0; cbv zeta.
    - simpl. split; [lia|]. split; [intros l kv Hl; inversion Hl|now left].
    - cbn [foldl].
      destruct (foldl_max_bounds (fun kv : list nat * R => length (fst kv)) l m0)
        as (A1 & A2 & A3). cbv zeta in *.
      set (m1 := foldl _ m0 l) in *.
      destruct (IH m1) as (B1 & B2 & B3). cbv zeta in *.
      set (m := foldl _ m1 ws) in *.
      split; [lia|]. split.
      + intros l' kv Hl' Hkv. apply elem_of_cons in Hl'. destruct Hl' as [->|Hl'].
        * specialize (A2 kv Hkv). simpl in A2. lia.
        * exact (B2 l' kv Hl' Hkv).
      + destruct B3 as [B3|(l' & kv & Hl' & Hkv & Hlen)].
        * destruct A3 as [A3|(kv & Hkv & Hlen)].
          -- left. lia.
          -- right. exists l, kv. split; [left|]. split; [exact Hkv|]. simpl in Hlen. lia.
        * right. exists l', kv. split; [right; exact Hl'|]. split; assumption. }
  assert (foldl
            (fun maxCard i =>
               foldl (fun maxCard (kv : list nat * R) => Nat.max maxCard (length (fst kv)))
                     maxCard (default [] (pd_weights w !! i)))
            0%nat (seq 0 (length (pd_weights w)))
          = foldl (fun maxCard l =>
                     foldl (fun maxCard (kv : list nat * R) =>
                              Nat.max maxCard (length (fst kv))) maxCard l)
                  0%nat (pd_weights w)) as ->.
  { exact (foldl_lookup_seq _ (pd_weights w) [] 0%nat). }
  destruct (Hnested (pd_weights w) 0%nat) as (_ & C2 & C3). cbv zeta in *.
  split.
  - intros i proj weight Hin.
    destruct (pd_weights w !! i) as [l|] eqn:Hl; simpl in Hin; [|inversion Hin].
    apply (C2 l (proj, weight)); [|exact Hin].
    apply list_elem_of_lookup. exists i. exact Hl.
  - destruct C3 as [C3|(l & [proj weight] & Hl & Hkv & Hlen)]; [left; exact C3|right].
    apply list_elem_of_lookup in Hl. destruct Hl as (i & Hl).
    exists i, proj, weight. rewrite Hl. simpl. split; assumption.
Qed.

(** A stored projection of weight 0 determines the result. *)
Example ProjectionDependent_zero_weight :
  ProjectionDependent zero_weight_pair = 2%nat.
Proof. reflexivity. Qed.

End MaxCardMoreFacts.

(** ** Closed forms of the norm-bound sums *)

Section SumFormsFacts.
Import LatticeTester SumHelperPAlphaSL10 SumForms.

(** X7. With [normType = 2] the sum for combined weights is the sum of
    the sums of the members, each taken with the same [lambda], and a
    combination nested in another one counts like its members. *)
Theorem sumCombined_norm_two (list : list Weights) (z lambda : R) (dimension : nat) :
  sumCombined list 2 z lambda dimension
  = sum_of_members list 2 z lambda dimension
  /\ sumCombined [CombinedWeights list] 2 z lambda dimension
     = sumCombined list 2 z lambda dimension.
Proof.
  assert (lambda * 2 / 2 = lambda)%R as Hl by field.
  split.
  - rewrite (proj1 (sumCombined_rescales_lambda list 2 z lambda dimension)).
    rewrite Hl. reflexivity.
  - unfold sumCombined at 1. cbn [foldl SumHelper].
    rewrite Hl, Rplus_0_l. reflexivity.
Qed.

Lemma total_snoc (l : list R) (x : R) : total (l ++ [x]) = (total l + x)%R.
Proof.
  unfold total. induction l as [|y l IH]; simpl; [lra|]. rewrite IH. lra.
Qed.

Lemma C_step (d n : nat) :
  (n < d)%nat -> C d (S n) = (C d n * (INR (d - S n + 1) / INR (S n)))%R.
Proof.
  intros Hn. unfold C.
  replace (d - S n + 1)%nat with (S (d - S n)) by lia.
  replace (d - n)%nat with (S (d - S n)) by lia.
  rewrite (fact_simpl n), (fact_simpl (d - S n)), !mult_INR.
  pose proof (INR_fact_neq_0 n). pose proof (INR_fact_neq_0 (d - S n)).
  assert (INR (S n) <> 0%R) by (apply not_0_INR; lia).
  assert (INR (S (d - S n)) <> 0%R) by (apply not_0_INR; lia).
  field. repeat split; assumption.
Qed.

Lemma C_0 (d : nat) : C d 0 = 1%R.
Proof.
  unfold C. rewrite Nat.sub_0_r. simpl. pose proof (INR_fact_neq_0 d). field. assumption.
Qed.

(** The loop over the orders, up to the order [n]. *)
Lemma sumOrderDependent_loop (weights : OrderDependentWeights)
    (normType z lambda : R) (dimension n : nat) :
  (n <= dimension)%nat ->
  foldl
    (fun st order =>
       let weight := getWeightForOrder weights order in
       let cumul := (fst st * (INR (dimension - order + 1) * z / INR order))%R in
       if nonzero weight then
         (cumul, (snd st + cumul * std_pow weight (lambda * 2 / normType))%R)
       else (cumul, snd st))
    (1%R, 0%R) (seq 1 n)
  = ((C dimension n * z ^ n)%R,
     total (order_term weights normType z lambda dimension <$> seq 1 n)).
Proof.
  induction n as [|n IH]; intros Hn.
  - simpl. rewrite C_0. f_equal. lra.
  - rewrite seq_S, foldl_app, IH by lia. cbn [foldl fst snd]. cbv zeta.
    rewrite fmap_app. change (order_term weights normType z lambda dimension <$> [(1 + n)%nat])
      with [order_term weights normType z lambda dimension (S n)].
    rewrite total_snoc.
    assert (C dimension n * z ^ n * (INR (dimension - (1 + n) + 1) * z / INR (1 + n))
            = C dimension (S n) * z ^ S n)%R as ->.
    { rewrite (C_step dimension n) by lia. cbn [Nat.add pow].
      assert (INR (S n) <> 0%R) by (apply not_0_INR; lia).
      field. assumption. }
    cbn [Nat.add].
    destruct (nonzero (getWeightForOrder weights (S n))) eqn:Hnz.
    + f_equal. f_equal. unfold order_term. rewrite Hnz. reflexivity.
    + f_equal.
      assert (order_term weights normType z lambda dimension (S n) = 0%R) as ->
        by (unfold order_term; rewrite Hnz; reflexivity).
      lra.
Qed.

Lemma std_pow_negative (x : R) (n : Z) : (x < 0)%R -> std_pow x (IZR n) = powerRZ x n.
Proof.
  intros Hx. unfold std_pow.
  destruct (Req_dec_T x 0) as [H|_]; [lra|].
  destruct (Rlt_dec 0 x) as [H|_]; [lra|].
  now rewrite ZfloorZ.
Qed.

(** X8. Where [std::pow] gives a real number ([normType] is not zero,
    and the exponent [2 λ / normType] is an integer wherever the weight
    of an order is negative), the sum for order-dependent weights is
    the sum, over the orders [1..dimension], of the number
    [C(dimension, order)] of projections of that order times [z^order]
    times the rescaled weight of the order, the orders of weight zero
    being left out. *)
Theorem sumOrderDependent_binomial (weights : OrderDependentWeights)
    (normType z lambda : R) (dimension : nat) :
  normType <> 0%R ->
  (forall order, (1 <= order <= dimension)%nat ->
     getWeightForOrder weights order = 0%R
     \/ pow_is_real (getWeightForOrder weights order) (lambda * 2 / normType)) ->
  sumOrderDependent weights normType z lambda dimension
  = total (order_term weights normType z lambda dimension <$> seq 1 dimension).
Proof.
  intros _ _.
  pose proof (sumOrderDependent_loop weights normType z lambda dimension dimension
                ltac:(lia)) as Hloop.
  cbv zeta in Hloop. unfold sumOrderDependent. rewrite Hloop. reflexivity.
Qed.


(** A weight -3 at order 1 counts with its square 9. *)
Lemma sumOrderDependent_binomial_witness :
  (1 <> 0)%R
  /\ (forall order, (1 <= order <= 1)%nat ->
        getWeightForOrder negative_order order = 0%R
        \/ pow_is_real (getWeightForOrder negative_order order) (1 * 2 / 1))
  /\ sumOrderDependent negative_order 1 1 1 1 = 9%R.
Proof.
  assert (1 <> 0)%R as Hnorm by lra.
  assert (forall order, (1 <= order <= 1)%nat ->
            getWeightForOrder negative_order order = 0%R
            \/ pow_is_real (getWeightForOrder negative_order order) (1 * 2 / 1)) as Hreal.
  { intros order Horder. assert (order = 1%nat) as -> by lia.
    right. right. right. unfold getWeightForOrder. simpl.
    split; [lra|]. exists 2. lra. }
  split; [exact Hnorm|]. split; [exact Hreal|].
  rewrite (sumOrderDependent_binomial negative_order 1 1 1 1 Hnorm Hreal).
  unfold total, order_term, nonzero, getWeightForOrder. simpl.
  destruct (Req_dec_T (-3) 0) as [H|_]; [lra|].
  replace (1 * 2 / 1)%R with (IZR 2) by lra.
  rewrite std_pow_negative by lra.
  unfold C. simpl. lra.
Defined.

Lemma pod_update_length (c : R) (l : list nat) :
  forall states, length (foldl (pod_update c) states l) = length states.
Proof.
  induction l as [|order l IH]; intros states; simpl; [reflexivity|].
  rewrite IH. unfold pod_update. apply length_insert.
Qed.

(** Updates at orders below the length of [xs] do not look beyond
    [xs]. *)
Lemma pod_update_app (c : R) (l : list nat) :
  forall xs ys : list R,
    Forall (fun order => (order < length xs)%nat) l ->
    foldl (pod_update c) (xs ++ ys) l = foldl (pod_update c) xs l ++ ys.
Proof.
  induction l as [|order l IH]; intros xs ys Hl; simpl; [reflexivity|].
  inversion Hl as [|? ? Horder Hl']; subst.
  assert (pod_update c (xs ++ ys) order = pod_update c xs order ++ ys) as ->.
  { unfold pod_update, at_order.
    rewrite !lookup_app_l by lia. rewrite insert_app_l by lia. reflexivity. }
  apply IH. unfold pod_update. rewrite length_insert. exact Hl'.
Qed.

Lemma at_order_last (xs : list R) (y : R) :
  at_order (xs ++ [y]) (length xs) = y.
Proof. unfold at_order. rewrite list_lookup_middle by reflexivity. reflexivity. Qed.

(** The inner loop, from the last order down to order 1: the sum of
    the states grows by [c] times the sum of all the states but the last
    one, and [states[0]] stays. *)
Lemma pod_inner_loop (c : R) (xs : list R) :
  forall y : R,
    let states := foldl (pod_update c) (xs ++ [y]) (reverse (seq 1 (length xs))) in
    total states = (total (xs ++ [y]) + c * total xs)%R
    /\ at_order states 0 = at_order (xs ++ [y]) 0
    /\ length states = S (length xs).
Proof.
  pattern xs. apply rev_ind; clear xs.
  - intros y. simpl. unfold total. simpl. split; [lra|]. split; reflexivity.
  - intros x xs IH y. cbv zeta.
    rewrite length_app. cbn [length]. rewrite Nat.add_1_r.
    rewrite seq_S, reverse_snoc. cbn [foldl Nat.add].
    assert (pod_update c ((xs ++ [x]) ++ [y]) (S (length xs))
            = (xs ++ [x]) ++ [(y + c * x)%R]) as ->.
    { unfold pod_update.
      replace (S (length xs)) with (length (xs ++ [x])) at 1 2
        by (rewrite length_app; simpl; lia).
      rewrite at_order_last.
      replace (S (length xs) - 1)%nat with (length xs) by lia.
      unfold at_order at 1.
      rewrite lookup_app_l by (rewrite length_app; simpl; lia).
      rewrite list_lookup_middle by reflexivity. cbn [default].
      rewrite insert_app_r_alt by lia. rewrite Nat.sub_diag. reflexivity. }
    rewrite pod_update_app.
    + destruct (IH x) as (Htotal & Hhead & Hlen). cbv zeta in *.
      rewrite !total_snoc. split.
      * rewrite Htotal, total_snoc. lra.
      * split.
        -- unfold at_order in *.
           rewrite lookup_app_l by (rewrite Hlen; lia).
           rewrite lookup_app_l by (rewrite length_app; simpl; lia).
           exact Hhead.
        -- rewrite length_app, Hlen. simpl. lia.
    + apply Forall_forall. intros order Horder.
      apply elem_of_reverse, elem_of_seq in Horder.
      rewrite length_app. simpl. lia.
Qed.

(** The states after the loop over the coordinates [1..n]. *)
Lemma pod_states (weights : ProductWeights) (normType z lambda : R) (n : nat) :
  let states :=
    foldl
      (fun states s =>
         let pweight :=
           std_pow (getWeightForCoordinate weights s) (lambda * 2 / normType) in
         let states := states ++ [0%R] in
         foldl
           (fun states order =>
              <[order := (at_order states order
                          + z * pweight * at_order states (order - 1))%R]> states)
           states (reverse (seq 1 (length states - 1))))
      [1%R] (seq 1 n) in
  total states = coordinate_product weights normType z lambda n
  /\ at_order states 0 = 1%R
  /\ length states = S n.
Proof.
  induction n as [|n IH]; cbv zeta.
  - simpl. unfold total, coordinate_product. simpl. split; [lra|]. split; reflexivity.
  - rewrite seq_S, foldl_app. cbn [foldl]. cbv zeta in IH.
    set (states := foldl _ [1%R] (seq 1 n)) in *.
    destruct IH as (Htotal & Hhead & Hlen).
    rewrite length_app. cbn [length].
    replace (length states + 1 - 1)%nat with (length states) by lia.
    set (c := (z * std_pow (getWeightForCoordinate weights (1 + n)) (lambda * 2 / normType))%R).
    destruct (pod_inner_loop c states 0%R) as (Ht & Hh & Hl). cbv zeta in Ht, Hh, Hl.
    unfold pod_update in Ht, Hh, Hl. fold c.
    split.
    + rewrite Ht, total_snoc, Htotal.
      unfold coordinate_product. rewrite seq_S, foldr_app. cbn [foldr].
      fold c.
      assert (forall l b,
                foldr (fun s acc =>
                         ((1 + z * std_pow (getWeightForCoordinate weights s)
                                           (lambda * 2 / normType)) * acc)%R) b l
                = (foldr (fun s acc =>
                            ((1 + z * std_pow (getWeightForCoordinate weights s)
                                              (lambda * 2 / normType)) * acc)%R) 1 l * b)%R)
        as Hfrom.
      { induction l as [|s l IHl]; intros b; simpl; [lra|]. rewrite IHl. lra. }
      rewrite (Hfrom (seq 1 n) ((1 + c) * 1)%R). lra.
    + split.
      * rewrite Hh. unfold at_order in *.
        rewrite lookup_app_l by (rewrite Hlen; lia). exact Hhead.
      * rewrite Hl, Hlen. reflexivity.
Qed.

Lemma foldl_ext_elem {A B : Type} (f g : B -> A -> B) (l : list A) :
  (forall b x, x ∈ l -> f b x = g b x) ->
  forall b, foldl f b l = foldl g b l.
Proof.
  induction l as [|x l IH]; intros Hfg b; simpl; [reflexivity|].
  rewrite (Hfg b x) by left. apply IH. intros b' y Hy. apply Hfg. right. exact Hy.
Qed.

Lemma total_orders (states : list R) (w : nat -> R) (n : nat) :
  length states = S n ->
  (forall order, (1 <= order <= n)%nat -> w order = 1%R) ->
  foldl (fun val order => (val + w order * at_order states order)%R) 0%R (seq 1 n)
  = (total states - at_order states 0)%R.
Proof.
  revert states. induction n as [|n IH]; intros states Hlen Hw.
  - destruct states as [|x [|? ?]]; try discriminate.
    simpl. unfold total, at_order. simpl. lra.
  - assert (exists xs y, states = xs ++ [y] /\ length xs = S n) as (xs & y & -> & Hxs).
    { destruct (decide (states = [])) as [->|Hne]; [discriminate|].
      destruct (exists_last Hne) as (xs & y & ->).
      exists xs, y. split; [reflexivity|]. rewrite length_app in Hlen. simpl in Hlen. lia. }
    rewrite seq_S, foldl_app. cbn [foldl Nat.add].
    rewrite (Hw (S n)) by lia.
    assert (foldl (fun val order => (val + w order * at_order (xs ++ [y]) order)%R)
                  0%R (seq 1 n)
            = foldl (fun val order => (val + w order * at_order xs order)%R) 0%R (seq 1 n))
      as ->.
    { apply foldl_ext_elem. intros val order Horder. apply elem_of_seq in Horder.
      unfold at_order. rewrite lookup_app_l by lia. reflexivity. }
    rewrite (IH xs Hxs) by (intros order Horder; apply Hw; lia).
    rewrite total_snoc. rewrite <- Hxs at 1. rewrite at_order_last.
    unfold at_order. rewrite lookup_app_l by lia. lra.
Qed.

(** X9. Where [std::pow] gives a real number for the weights of the
    orders and of the coordinates [1..dimension] ([normType] is not
    zero, no weight is zero with a negative exponent, nor negative with
    an exponent that is not an integer), and the order-dependent part
    gives the rescaled weight 1 to every order up to the dimension, the
    sum for POD weights is the product over the coordinates
    [1..dimension] (not [0..dimension-1]) of
    [1 + z * γ_s^(2 λ / normType)], minus 1. *)
Theorem sumPOD_unit_orders (weights : PODWeights)
    (normType z lambda : R) (dimension : nat) :
  normType <> 0%R ->
  (forall order, (1 <= order <= dimension)%nat ->
     pow_is_real (getWeightForOrder (getOrderDependentWeights weights) order)
                 (lambda * 2 / normType)) ->
  (forall s, (1 <= s <= dimension)%nat ->
     pow_is_real (getWeightForCoordinate (getProductWeights weights) s)
                 (lambda * 2 / normType)) ->
  (forall order, (1 <= order <= dimension)%nat ->
     std_pow (getWeightForOrder (getOrderDependentWeights weights) order)
             (lambda * 2 / normType) = 1%R) ->
  sumPOD weights normType z lambda dimension
  = (coordinate_product (getProductWeights weights) normType z lambda dimension - 1)%R.
Proof.
  intros _ _ _ Hunit. unfold sumPOD.
  destruct (pod_states (getProductWeights weights) normType z lambda dimension)
    as (Htotal & Hhead & Hlen).
  cbv zeta in *.
  set (states := foldl _ [1%R] (seq 1 dimension)) in *.
  rewrite (total_orders states
             (fun order => std_pow (getWeightForOrder (getOrderDependentWeights weights) order)
                                   (lambda * 2 / normType)) dimension Hlen Hunit).
  rewrite Htotal, Hhead. reflexivity.
Qed.


Lemma std_pow_one (x : R) : (0 < x)%R -> std_pow x (1 * 2 / 2) = x.
Proof.
  intros Hx. rewrite std_pow_pos by exact Hx.
  replace (1 * 2 / 2)%R with 1%R by field. apply Rpower_1. exact Hx.
Qed.

Lemma unit_orders_real :
  (forall order, (1 <= order <= 2)%nat ->
     pow_is_real (getWeightForOrder (getOrderDependentWeights unit_orders) order)
                 (1 * 2 / 2))
  /\ (forall s, (1 <= s <= 2)%nat ->
        pow_is_real (getWeightForCoordinate (getProductWeights unit_orders) s)
                    (1 * 2 / 2)).
Proof.
  split.
  - intros order _. left. unfold getWeightForOrder. simpl. lra.
  - intros s Hs. left. unfold getWeightForCoordinate.
    destruct s as [|[|[|s]]]; try lia; simpl; lra.
Qed.

Lemma sumPOD_unit_orders_witness :
  (2 <> 0)%R
  /\ (forall order, (1 <= order <= 2)%nat ->
        std_pow (getWeightForOrder (getOrderDependentWeights unit_orders) order)
                (1 * 2 / 2) = 1%R)
  /\ sumPOD unit_orders 2 1 1 2 = 11%R
  /\ sumProduct (getProductWeights unit_orders) 2 1 1 2 = 17%R.
Proof.
  assert (2 <> 0)%R as Hnorm by lra.
  assert (forall order, (1 <= order <= 2)%nat ->
            std_pow (getWeightForOrder (getOrderDependentWeights unit_orders) order)
                    (1 * 2 / 2) = 1%R) as Hunit.
  { intros order _. unfold getWeightForOrder. simpl.
    apply std_pow_one. lra. }
  split; [exact Hnorm|]. split; [exact Hunit|]. split.
  - rewrite (sumPOD_unit_orders unit_orders 2 1 1 2 Hnorm
               (proj1 unit_orders_real) (proj2 unit_orders_real) Hunit).
    unfold coordinate_product, getWeightForCoordinate. simpl.
    rewrite !std_pow_one by lra. lra.
  - unfold sumProduct, getWeightForCoordinate, nonzero. simpl.
    destruct (Req_dec_T 5 0) as [H|_]; [lra|].
    destruct (Req_dec_T 2 0) as [H|_]; [lra|].
    rewrite !std_pow_one by lra. lra.
Defined.

End SumFormsFacts.

(** ** The kernel of the interlaced discrepancy *)

Section IAAlphaKernelFacts.
Import IAAlpha IAAlphaKernel.

Lemma ln_2_pos : (0 < ln 2)%R.
Proof. pose proof ln_lt_2. lra. Qed.

Section Log2.
Context (std_log2 : R -> R) (err : R).
Hypothesis accurate : log2_accurate std_log2 err.

(** [floor(std::log2(x)) = -j] when the logarithm of [x] is in
    [[-j, -j + 1)] and no nearer than [err] to its ends. *)
Lemma floor_log2_dyadic (x : R) (j : nat) :
  (0 < x)%R ->
  (- INR j + err <= ln x / ln 2 < - INR j + 1 - err)%R ->
  floor_log2 std_log2 x = - Z.of_nat j.
Proof.
  intros Hx [Hlo Hhi]. unfold floor_log2.
  pose proof (accurate x Hx) as Hacc.
  unfold Rabs in Hacc.
  destruct (Rcase_abs (std_log2 x - ln x / ln 2)) as [Hneg|Hpos];
    apply Zfloor_eq; rewrite opp_IZR, <- INR_IZR_INZ; lra.
Qed.

(** The wrap-arounds of the exponent cancel. *)
Lemma exponent_dyadic (k : t) (x : R) (j : nat) :
  1 <= m_min k ->
  (0 < x)%R ->
  (- INR j + err <= ln x / ln 2 < - INR j + 1 - err)%R ->
  (m_min k - 1) * Z.of_nat j < 2 ^ 32 ->
  exponent std_log2 k x = (m_min k - 1) * Z.of_nat j.
Proof.
  intros Hmin Hx Hlog Hsmall. unfold exponent.
  rewrite (floor_log2_dyadic x j Hx Hlog).
  destruct (decide (j = 0%nat)) as [->|Hj].
  - change (u32 (- Z.of_nat 0)) with 0. change (Z.of_nat 0) with 0.
    rewrite !Z.mul_0_r. reflexivity.
  - assert (u32 (m_min k - 1) = m_min k - 1) as -> by (apply u32_small; nia).
    unfold u32. rewrite <- Z.mul_mod by lia.
    replace (- (m_min k - 1) * - Z.of_nat j) with ((m_min k - 1) * Z.of_nat j) by ring.
    apply Z.mod_small. nia.
Qed.

(** X16. When [std::log2] is within [err] of the logarithm in base 2,
    for [x] whose logarithm in base 2 lies in [[-j, -j + 1)], no
    nearer than [err] to the ends of this interval, with
    [1 <= j <= 52], and as long as [(m_min - 1) * j] fits an
    [unsigned int], the kernel has the value
    [(1 - (2^m_min - 1) / 2^((m_min - 1) * j)) / m_denom]
    of the documented formula: the wrap-arounds of the unsigned
    exponent cancel.  Below [epsilon] it is [1 / m_denom]. *)
Theorem IAAlpha_operator_call_dyadic (k : t) (x : R) (j : nat) :
  1 <= m_min k ->
  (1 <= j <= 52)%nat ->
  (0 < x)%R ->
  (- INR j + err <= ln x / ln 2 < - INR j + 1 - err)%R ->
  (m_min k - 1) * Z.of_nat j < 2 ^ 32 ->
  operator_call std_log2 k x
  = ((1 - (2 ^ Z.to_nat (m_min k) - 1) / 2 ^ (Z.to_nat (m_min k - 1) * j))
     / m_denom k)%R
  /\ forall y : R, (y < epsilon)%R -> operator_call std_log2 k y = (1 / m_denom k)%R.
Proof.
  intros Hmin Hj Hx Hlog Hsmall. split.
  - unfold operator_call.
    destruct (Rlt_dec x epsilon) as [Hlt|_].
    + exfalso. unfold epsilon in Hlt.
      pose proof (accurate 1%R ltac:(lra)) as Herr.
      pose proof (Rabs_pos (std_log2 1 - ln 1 / ln 2)) as Hpos.
      pose proof ln_2_pos as H2.
      assert (0 < / 2 ^ 52)%R as H52 by (apply Rinv_0_lt_compat, pow_lt; lra).
      assert (ln x < ln (/ 2 ^ 52))%R as Hln by (apply ln_increasing; assumption).
      rewrite ln_Rinv in Hln by (apply pow_lt; lra).
      rewrite ln_pow in Hln by lra.
      assert (INR j <= 52)%R as Hj52.
      { replace 52%R with (INR 52) by (simpl; lra). apply le_INR. lia. }
      assert (- 52 <= ln x / ln 2)%R as Hlow by lra.
      apply (Rmult_le_compat_r (ln 2)) in Hlow; [|lra].
      replace (ln x / ln 2 * ln 2)%R with (ln x) in Hlow by (field; lra).
      replace (INR 52) with 52%R in Hln by (simpl; lra).
      lra.
    + rewrite (exponent_dyadic k x j Hmin Hx Hlog Hsmall).
      unfold intPow.
      rewrite Z2Nat.inj_mul, Nat2Z.id by lia. reflexivity.
  - intros y Hy. unfold operator_call. destruct (Rlt_dec y epsilon); [reflexivity|contradiction].
Qed.

End Log2.

Lemma exact_log2_accurate (err : R) : (0 <= err)%R -> log2_accurate exact_log2 err.
Proof.
  intros Herr x _. unfold exact_log2.
  replace (ln x / ln 2 - ln x / ln 2)%R with 0%R by lra.
  rewrite Rabs_R0. exact Herr.
Qed.

(** At [x = 2^(-3/2)], with a [std::log2] that is within [1/4] of the
    logarithm. *)
Lemma IAAlpha_operator_call_dyadic_witness :
  log2_accurate exact_log2 (/ 4)
  /\ operator_call exact_log2 unit_denom (exp (- (3 / 2) * ln 2)) = (1 - 7 / 16)%R.
Proof.
  assert (log2_accurate exact_log2 (/ 4)) as Hacc by (apply exact_log2_accurate; lra).
  split; [exact Hacc|].
  pose proof ln_2_pos as H2.
  destruct (IAAlpha_operator_call_dyadic exact_log2 (/ 4) Hacc unit_denom
              (exp (- (3 / 2) * ln 2)) 2) as [-> _].
  - simpl. lia.
  - lia.
  - apply exp_pos.
  - rewrite ln_exp.
    replace (- (3 / 2) * ln 2 / ln 2)%R with (- (3 / 2))%R by (field; lra).
    simpl. lra.
  - simpl. lia.
  - simpl. lra.
Defined.

(** X19. For parameters that pass the checks of the constructor
    ([unsigned int]s that are at least 2), the object holds
    [m_min = min(alpha, interlacingFactor)] and a denominator
    [m_denom = sqrt(2^(alpha+2)) * (2^(m_min-1) - 1)] that is positive:
    the kernel never divides by zero. *)
Theorem IAAlpha_denom_positive (alpha interlacingFactor : Z) :
  2 <= alpha < 2 ^ 32 ->
  2 <= interlacingFactor < 2 ^ 32 ->
  exists k,
    IAAlpha.IAAlpha alpha interlacingFactor = inr k
    /\ m_min k = Z.min alpha interlacingFactor
    /\ m_denom k
       = (sqrt (2 ^ Z.to_nat (u32 (alpha + 2))) * (2 ^ Z.to_nat (m_min k - 1) - 1))%R
    /\ (0 < m_denom k)%R.
Proof.
  intros Ha Hd. unfold IAAlpha.IAAlpha.
  destruct (Z.ltb_spec alpha 2) as [H|_]; [lia|].
  destruct (Z.ltb_spec interlacingFactor 2) as [H|_]; [lia|].
  eexists. split; [reflexivity|]. cbn [m_min m_denom].
  split; [reflexivity|].
  rewrite (u32_small (Z.min alpha interlacingFactor - 1)) by lia.
  unfold intPow. split; [reflexivity|].
  apply Rmult_lt_0_compat.
  - apply sqrt_lt_R0. apply pow_lt. lra.
  - assert (1 < 2 ^ Z.to_nat (Z.min alpha interlacingFactor - 1))%R
      by (apply Rlt_pow_R1; [lra|lia]).
    lra.
Qed.

Lemma IAAlpha_denom_positive_witness :
  exists k, IAAlpha.IAAlpha 3 2 = inr k /\ m_min k = 2 /\ (0 < m_denom k)%R.
Proof.
  destruct (IAAlpha_denom_positive 3 2 ltac:(lia) ltac:(lia)) as (k & Hk & Hmin & _ & Hpos).
  exists k. split; [exact Hk|]. split; [exact Hmin|exact Hpos].
Defined.

End IAAlphaKernelFacts.

(** ** Digital nets *)

Section DigitalNetFacts.
Import DigitalNet.
Context {GenValue SizeParameter GM : Type}.
Context `{!ConstructionMethod GenValue SizeParameter GM}.

Lemma DigitalNetConstruction_from (genValues : list GenValue) :
  forall net : t GenValue SizeParameter GM,
    foldl push_genValue net genValues
    = {| m_dimension := m_dimension net;
         m_nRows := m_nRows net;
         m_nCols := m_nCols net;
         m_generatingMatrices :=
           m_generatingMatrices net
             ++ ((fun v => createGeneratingMatrix v (m_sizeParameter net)) <$> genValues);
         m_generatingVectors :=
           m_generatingVectors net
             ++ ((fun v => createGeneratingVector v (m_sizeParameter net)) <$> genValues);
         m_sizeParameter := m_sizeParameter net;
         m_genValues := m_genValues net ++ genValues |}.
Proof.
  induction genValues as [|v vs IH]; intros net.
  - destruct net. simpl. rewrite !app_nil_r. reflexivity.
  - cbn [foldl]. rewrite IH. unfold push_genValue. cbn.
    rewrite <- !app_assoc. reflexivity.
Qed.

Lemma DigitalNetConstruction_fields (dimension : Z) (sizeParameter : SizeParameter)
    (genValues : list GenValue) :
  DigitalNetConstruction dimension sizeParameter genValues
  = {| m_dimension := dimension;
       m_nRows := cm_nRows sizeParameter;
       m_nCols := cm_nCols sizeParameter;
       m_generatingMatrices :=
         (fun v => createGeneratingMatrix v sizeParameter) <$> genValues;
       m_generatingVectors :=
         (fun v => createGeneratingVector v sizeParameter) <$> genValues;
       m_sizeParameter := sizeParameter;
       m_genValues := genValues |}.
Proof.
  unfold DigitalNetConstruction. rewrite DigitalNetConstruction_from. reflexivity.
Qed.


(** X11. The public constructor throws [std::length_error] for a
    dimension above [max_size()], whatever the generating values are.
    When its [reserve] does not throw, the net it builds has one
    generating matrix per generating value it was given, also when
    [dimension] is another number: [generatingMatrix(coord)] is the
    matrix created from [genValues[coord]], and it reads past the end of
    the vector (undefined behaviour) exactly when [coord] is not below
    the number of generating values. *)
Theorem generatingMatrix_DigitalNetConstruction (max_size : Z) (allocates : Z -> bool)
    (dimension : Z) (sizeParameter : SizeParameter) (genValues : list GenValue) :
  (max_size < dimension ->
   make_DigitalNetConstruction max_size allocates dimension sizeParameter genValues
   = inl length_error)
  /\ (reserve max_size allocates dimension = None ->
      exists net,
        make_DigitalNetConstruction max_size allocates dimension sizeParameter genValues
        = inr net
        /\ forall coord,
             generatingMatrix net coord
             = (fun v => createGeneratingMatrix v sizeParameter) <$> read genValues coord
             /\ (generatingMatrix net coord = None
                 <-> ~ (0 <= coord < Z.of_nat (length genValues)))).
Proof.
  unfold make_DigitalNetConstruction. split.
  - intros Hmax. unfold reserve.
    destruct (Z.ltb_spec max_size dimension) as [_|H]; [reflexivity | lia].
  - intros ->. eexists. split; [reflexivity|]. intros coord.
    rewrite DigitalNetConstruction_fields. unfold generatingMatrix. cbn.
    assert (read ((fun v => createGeneratingMatrix v sizeParameter) <$> genValues) coord
            = (fun v => createGeneratingMatrix v sizeParameter) <$> read genValues coord) as ->.
    { unfold read. destruct (0 <=? coord); [|reflexivity]. apply list_lookup_fmap. }
    split; [reflexivity|].
    split.
    + intros Hnone Hin. destruct (read_Some genValues coord Hin) as (v & Hv).
      rewrite Hv in Hnone. discriminate.
    + intros Hout. destruct (read genValues coord) as [v|] eqn:Hv; [|reflexivity].
      exfalso. apply Hout. exact (proj1 (read_inv _ _ _ Hv)).
Qed.

End DigitalNetFacts.

(** A net announced in dimension 3 but built from two generating
    values has no matrix for the last coordinate. *)
Example short_net :
  DigitalNet.generatingMatrix
    (@DigitalNet.DigitalNetConstruction _ _ _ DigitalNet.offset_method 3 tt [5; 6]) 1
  = Some 106
  /\ DigitalNet.generatingMatrix
       (@DigitalNet.DigitalNetConstruction _ _ _ DigitalNet.offset_method 3 tt [5; 6]) 2
     = None.
Proof. split; reflexivity. Qed.


Lemma generatingMatrix_DigitalNetConstruction_witness :
  @DigitalNet.make_DigitalNetConstruction _ _ _ DigitalNet.offset_method
    (2 ^ 59 - 1) (fun n => n <=? 1000) (2 ^ 64 - 1) tt [5]
  = inl DigitalNet.length_error
  /\ exists net,
       @DigitalNet.make_DigitalNetConstruction _ _ _ DigitalNet.offset_method
         (2 ^ 59 - 1) (fun n => n <=? 1000) 3 tt [5; 6]
       = inr net
       /\ DigitalNet.generatingMatrix net 1 = Some 106
       /\ DigitalNet.generatingMatrix net 2 = None.
Proof.
  split.
  - apply (proj1 (@generatingMatrix_DigitalNetConstruction _ _ _ DigitalNet.offset_method
                    (2 ^ 59 - 1) (fun n => n <=? 1000) (2 ^ 64 - 1) tt [5])).
    reflexivity.
  - destruct (proj2 (@generatingMatrix_DigitalNetConstruction _ _ _ DigitalNet.offset_method
                       (2 ^ 59 - 1) (fun n => n <=? 1000) 3 tt [5; 6]) eq_refl)
      as (net & Hnet & Hmat).
    exists net. split; [exact Hnet|]. split.
    + rewrite (proj1 (Hmat 1)). reflexivity.
    + rewrite (proj1 (Hmat 2)). reflexivity.
Defined.

(** ** The nets of the random search *)

Section RandomNetFacts.
Import DigitalNet.
Context {C : RandomSearch.Collaborators} {GM : Type}.
Context `{!ConstructionMethod (RandomSearch.GenValue C) (RandomSearch.SizeParameter C) GM}.

Lemma drawGenVals_from (l : list Z) :
  forall (genVals : list (RandomSearch.GenValue C)) (gen : RandomSearch.Generator C),
    length (fst (foldl
                   (fun st dim =>
                      let (tmp, gen) := RandomSearch.randomGenValue C (snd st) dim in
                      (fst st ++ [tmp], gen))
                   (genVals, gen) l))
    = (length genVals + length l)%nat.
Proof.
  induction l as [|dim l IH]; intros genVals gen.
  - simpl. lia.
  - cbn [foldl fst snd].
    destruct (RandomSearch.randomGenValue C gen dim) as [tmp gen'].
    rewrite IH, length_app. simpl. lia.
Qed.

(** X12. In every attempt of the random search the generator is asked
    for one generating value per coordinate [0..dimension-1], the one
    of the last coordinate being drawn last from the state the others
    left; the net built from them has a generating matrix for every
    coordinate below the dimension. *)
Theorem random_net_complete (dimension : Z)
    (sizeParameter : RandomSearch.SizeParameter C) (gen : RandomSearch.Generator C) :
  0 <= dimension ->
  let genVals := fst (RandomSearch.drawGenVals dimension gen) in
  Z.of_nat (length genVals) = dimension
  /\ RandomSearch.drawGenVals (dimension + 1) gen
     = (let (genVals, gen) := RandomSearch.drawGenVals dimension gen in
        let (tmp, gen) := RandomSearch.randomGenValue C gen dimension in
        (genVals ++ [tmp], gen))
  /\ forall coord, 0 <= coord < dimension ->
       exists genValue,
         read genVals coord = Some genValue
         /\ generatingMatrix (DigitalNetConstruction dimension sizeParameter genVals) coord
            = Some (createGeneratingMatrix genValue sizeParameter).
Proof.
  intros Hd. cbv zeta.
  assert (Z.of_nat (length (fst (RandomSearch.drawGenVals dimension gen))) = dimension)
    as Hlen.
  { unfold RandomSearch.drawGenVals. rewrite drawGenVals_from, length_seqZ. simpl. lia. }
  split; [exact Hlen|]. split.
  - unfold RandomSearch.drawGenVals.
    replace (dimension + 1) with (Z.of_nat (S (Z.to_nat dimension))) by lia.
    rewrite seqZ_S, foldl_app, Z2Nat.id by lia. cbn [foldl].
    destruct (foldl _ _ (seqZ 0 dimension)) as [genVals gen']. cbn [fst snd].
    rewrite Z.add_0_l. reflexivity.
  - intros coord Hcoord.
    destruct (read_Some (fst (RandomSearch.drawGenVals dimension gen)) coord ltac:(lia))
      as (genValue & Hv).
    exists genValue. split; [exact Hv|].
    rewrite DigitalNetConstruction_fields. unfold generatingMatrix. cbn.
    unfold read in *. destruct (0 <=? coord); [|discriminate].
    rewrite list_lookup_fmap, Hv. reflexivity.
Qed.

End RandomNetFacts.

Lemma random_net_complete_witness :
  0 <= 2
  /\ fst (@RandomSearch.drawGenVals RandomSearch.counting 2 5) = [5; 6]
  /\ @DigitalNet.generatingMatrix Z unit Z
       (@DigitalNet.DigitalNetConstruction Z unit Z DigitalNet.offset_method 2 tt [5; 6]) 1
     = Some 106.
Proof.
  split; [lia|]. split; [reflexivity|].
  destruct (@random_net_complete RandomSearch.counting Z DigitalNet.offset_method
              2 tt 5 ltac:(lia)) as (_ & _ & Hall).
  destruct (Hall 1 ltac:(lia)) as (genValue & Hv & Hm).
  change (fst (@RandomSearch.drawGenVals RandomSearch.counting 2 5)) with [5; 6] in Hv, Hm.
  vm_compute in Hv. injection Hv as <-. exact Hm.
Defined.

(** ** Random generating values *)

Section SobolGeneratorFacts.
Import NetConstructionTraits NetConstructionTraits.SOBOL.
Context {RAND : Type} (unif : Z -> RAND -> Z * RAND).
Context (nthPrimitivePolynomialDegree : Z -> Z).

(** What is assumed of the distribution: it returns a value between 0
    and the upper bound it was set to. *)
Hypothesis unif_range :
  forall (upperBound : Z) (randomGen : RAND),
    0 <= upperBound < 2 ^ 64 -> 0 <= fst (unif upperBound randomGen) <= upperBound.

Lemma odd_u64 (u : Z) : Z.odd (u64 (2 * u + 1)) = true.
Proof.
  unfold u64. rewrite (Z.mod_eq (2 * u + 1) (2 ^ 64)) by lia.
  replace (2 * u + 1 - 2 ^ 64 * ((2 * u + 1) / 2 ^ 64))
    with (2 * (u - 2 ^ 63 * ((2 * u + 1) / 2 ^ 64)) + 1) by lia.
  apply Z.odd_odd.
Qed.

(** The loop over [k], up to [n] turns. *)
Lemma draw_loop (size : nat) (m_randomGen : RAND) (n : nat) :
  (n <= size)%nat ->
  exists res randomGen,
    for_each (draw unif) (replicate size 0, 0, m_randomGen) (seqZ 0 (Z.of_nat n))
    = Some (res, 2 ^ Z.min (Z.of_nat n) 64 - 1, randomGen)
    /\ length res = size
    /\ forall (k : nat) (v : Z),
         (k < n)%nat -> res !! k = Some v ->
         Z.odd v = true /\ 0 < v < 2 ^ Z.min (Z.of_nat k + 1) 64.
Proof.
  induction n as [|n IH]; intros Hn.
  - exists (replicate size 0), m_randomGen. split; [reflexivity|].
    split; [apply length_replicate|]. intros k v Hk. lia.
  - destruct (IH ltac:(lia)) as (res & randomGen & Hrun & Hlen & Hres).
    rewrite seqZ_S, for_each_app, Hrun. cbn [mbind option_bind for_each].
    rewrite Z.add_0_l. unfold draw at 1.
    set (upperBound := 2 ^ Z.min (Z.of_nat n) 64 - 1).
    assert (0 <= upperBound < 2 ^ 64) as Hub.
    { unfold upperBound.
      assert (0 < 2 ^ Z.min (Z.of_nat n) 64) by (apply Z.pow_pos_nonneg; lia).
      assert (2 ^ Z.min (Z.of_nat n) 64 <= 2 ^ 64) by (apply Z.pow_le_mono_r; lia).
      lia. }
    pose proof (unif_range upperBound randomGen Hub) as Hu.
    destruct (unif upperBound randomGen) as [u randomGen']. cbn [fst] in Hu.
    rewrite write_Some by lia. cbn [mbind option_bind].
    assert (u64 (2 * (upperBound + 1) - 1) = 2 ^ Z.min (Z.of_nat (S n)) 64 - 1) as ->.
    { unfold upperBound, u64.
      destruct (Z.le_gt_cases 64 (Z.of_nat n)) as [Hbig|Hsmall].
      - rewrite !Z.min_r by lia. reflexivity.
      - rewrite !Z.min_l by lia. rewrite Nat2Z.inj_succ, Z.pow_succ_r by lia.
        assert (0 < 2 ^ Z.of_nat n) by (apply Z.pow_pos_nonneg; lia).
        assert (2 ^ Z.succ (Z.of_nat n) <= 2 ^ 64) by (apply Z.pow_le_mono_r; lia).
        rewrite Z.pow_succ_r in * by lia.
        rewrite Z.mod_small by lia. lia. }
    eexists _, _. split; [reflexivity|]. split; [rewrite length_insert; exact Hlen|].
    intros k v Hk Hv. rewrite Nat2Z.id in Hv.
    destruct (decide (k = n)) as [->|Hne].
    + rewrite list_lookup_insert_eq in Hv by lia. injection Hv as <-.
      split; [apply odd_u64|].
      unfold u64, upperBound in *.
      destruct (Z.le_gt_cases 64 (Z.of_nat n)) as [Hbig|Hsmall].
      * rewrite Z.min_r by lia.
        pose proof (Z.mod_pos_bound (2 * u + 1) (2 ^ 64) ltac:(lia)) as Hb.
        pose proof (odd_u64 u) as Hodd. unfold u64 in Hodd.
        destruct (Z.eq_dec ((2 * u + 1) mod 2 ^ 64) 0) as [H0|H0].
        -- rewrite H0 in Hodd. discriminate.
        -- lia.
      * rewrite Z.min_l in Hu by lia. rewrite Z.min_l by lia.
        assert (0 < 2 ^ Z.of_nat n) by (apply Z.pow_pos_nonneg; lia).
        assert (2 ^ (Z.of_nat n + 1) <= 2 ^ 64) by (apply Z.pow_le_mono_r; lia).
        rewrite Z.pow_add_r in * by lia. change (2 ^ 1) with 2 in *.
        rewrite Z.mod_small by lia. lia.
    + rewrite list_lookup_insert_ne in Hv by lia. apply Hres; [lia|exact Hv].
Qed.

(** X13. The generator of Sobol' generating values returns [(0, {0})]
    for coordinate 0 without drawing anything; for any other
    coordinate it returns as many direction numbers as the degree of
    the primitive polynomial of the coordinate, and the number of index
    [k] is odd and below [2^(k+1)]. *)
Theorem sobol_direction_numbers (m_randomGen : RAND) (coord : Z) :
  RandomGenValueGenerator unif nthPrimitivePolynomialDegree m_randomGen 0
  = Some ((0, [0]), m_randomGen)
  /\ (coord <> 0 ->
      exists res randomGen,
        RandomGenValueGenerator unif nthPrimitivePolynomialDegree m_randomGen coord
        = Some ((coord, res), randomGen)
        /\ Z.of_nat (length res) = u32 (nthPrimitivePolynomialDegree coord)
        /\ forall (k : nat) (v : Z),
             res !! k = Some v ->
             Z.odd v = true /\ 0 < v < 2 ^ Z.min (Z.of_nat k + 1) 64).
Proof.
  split; [reflexivity|]. intros Hcoord.
  unfold RandomGenValueGenerator.
  destruct (Z.eqb_spec coord 0) as [H0|_]; [contradiction|]. cbv zeta.
  set (size := u32 (nthPrimitivePolynomialDegree coord)).
  assert (0 <= size) as Hsize by (apply u32_range).
  destruct (draw_loop (Z.to_nat size) m_randomGen (Z.to_nat size) ltac:(lia))
    as (res & randomGen & Hrun & Hlen & Hres).
  rewrite Z2Nat.id in Hrun by lia. rewrite Hrun. cbn [mbind option_bind fst snd].
  exists res, randomGen. split; [reflexivity|]. split; [lia|].
  intros k v Hv. apply Hres; [|exact Hv].
  apply lookup_lt_Some in Hv. lia.
Qed.

End SobolGeneratorFacts.

Lemma counter_range (upperBound randomGen : Z) :
  0 <= upperBound < 2 ^ 64 ->
  0 <= fst (NetConstructionTraits.SOBOL.counter upperBound randomGen) <= upperBound.
Proof.
  intros Hub. unfold NetConstructionTraits.SOBOL.counter. cbn [fst].
  pose proof (Z.mod_pos_bound randomGen (upperBound + 1) ltac:(lia)). lia.
Qed.

Lemma sobol_direction_numbers_witness :
  NetConstructionTraits.SOBOL.RandomGenValueGenerator
    NetConstructionTraits.SOBOL.counter (fun _ => 4) 7 3
  = Some ((3, [1; 1; 3; 5]), 11).
Proof.
  destruct (sobol_direction_numbers NetConstructionTraits.SOBOL.counter (fun _ => 4)
              counter_range 7 3) as (_ & Hgen).
  destruct (Hgen ltac:(lia)) as (res & randomGen & Hrun & _ & _).
  rewrite Hrun. vm_compute in Hrun. injection Hrun as <- <-. reflexivity.
Defined.

Section ExplicitGeneratorFacts.
Import NetConstructionTraits NetConstructionTraits.EXPLICIT.
Context {RAND : Type} (next : RAND -> Z * RAND).

(** What is assumed of the generator: it returns a 64-bit value. *)
Hypothesis next_range :
  forall randomGen : RAND, 0 <= fst (next randomGen) < 2 ^ 64.

Lemma push_row_loop (m_randomGen : RAND) (n : nat) :
  (n <= 30)%nat ->
  exists init randomGen,
    for_each (push_row next) ([], m_randomGen) (seqZ 0 (Z.of_nat n))
    = Some (init, randomGen)
    /\ length init = n
    /\ forall (i : nat) (row : Z),
         init !! i = Some row ->
         0 <= row < 2 ^ 64 /\ row mod 2 ^ (Z.of_nat i + 1) = 2 ^ Z.of_nat i.
Proof.
  induction n as [|n IH]; intros Hn.
  - exists [], m_randomGen. split; [reflexivity|]. split; [reflexivity|].
    intros i row Hrow. rewrite lookup_nil in Hrow. discriminate.
  - destruct (IH ltac:(lia)) as (init & randomGen & Hrun & Hlen & Hinit).
    rewrite seqZ_S, for_each_app, Hrun. cbn [mbind option_bind for_each].
    rewrite Z.add_0_l. unfold push_row. cbn [fst snd].
    pose proof (next_range randomGen) as Hnb.
    destruct (next randomGen) as [nb randomGen']. cbn [fst] in Hnb.
    unfold shl_int.
    destruct (Z.leb_spec 0 (Z.of_nat n)); [|lia].
    destruct (Z.ltb_spec (Z.of_nat n) 31); [|lia].
    destruct (Z.leb_spec 0 (Z.of_nat n + 1)); [|lia].
    destruct (Z.ltb_spec (Z.of_nat n + 1) 31); [|lia].
    cbn [andb mbind option_bind].
    eexists _, _. split; [reflexivity|].
    split; [rewrite length_app; simpl; lia|].
    intros i row Hrow.
    apply lookup_app_Some in Hrow. destruct Hrow as [Hold|[Hi Hnew]].
    + exact (Hinit i row Hold).
    + assert (i = n) as -> by (apply lookup_lt_Some in Hnew; simpl in Hnew; lia).
      rewrite Hlen, Nat.sub_diag in Hnew. simpl in Hnew. injection Hnew as <-.
      set (p := 2 ^ Z.of_nat n).
      assert (0 < p) as Hp by (apply Z.pow_pos_nonneg; lia).
      assert (2 ^ (Z.of_nat n + 1) = 2 * p) as Hpow
        by (unfold p; rewrite Z.pow_add_r by lia; lia).
      assert (2 * p <= 2 ^ 30) as Hsmall.
      { rewrite <- Hpow. apply Z.pow_le_mono_r; lia. }
      rewrite Hpow.
      pose proof (Z.mod_pos_bound nb (2 * p) ltac:(lia)) as Hmod.
      pose proof (Z.div_mod nb (2 * p) ltac:(lia)) as Hdiv.
      assert (nb - nb mod (2 * p) = 2 * p * (nb / (2 * p))) as -> by lia.
      assert (0 <= nb / (2 * p)) by (apply Z.div_pos; lia).
      assert (2 ^ 64 = 2 * p * 2 ^ (63 - Z.of_nat n)) as Hfull.
      { unfold p. rewrite <- Z.pow_succ_r, <- Z.pow_add_r by lia. f_equal. lia. }
      assert (0 < 2 ^ (63 - Z.of_nat n)) by (apply Z.pow_pos_nonneg; lia).
      assert (nb / (2 * p) < 2 ^ (63 - Z.of_nat n)) by nia.
      assert (0 <= p + 2 * p * (nb / (2 * p)) < 2 ^ 64) by nia.
      unfold u64. rewrite (Z.mod_small _ (2 ^ 64)) by assumption.
      split; [assumption|].
      replace (p + 2 * p * (nb / (2 * p))) with (p + nb / (2 * p) * (2 * p)) by ring.
      rewrite Z.mod_add by lia. apply Z.mod_small. lia.
Qed.

(** X14. For at most 30 rows, the generator of explicit generating
    values for multilevel nets draws one number per row and gives as
    many rows as asked for, and row [i] has its bit [i] set and its
    bits below [i] clear, whatever was drawn: the matrix is triangular
    with a unit diagonal. *)
Theorem explicit_multilevel_rows (nRows nCols : Z) (m_randomGen : RAND) :
  0 <= nRows <= 30 ->
  exists init randomGen,
    RandomGenValueGenerator_MULTILEVEL next (nRows, nCols) m_randomGen
    = Some ((nRows, nCols, init), randomGen)
    /\ Z.of_nat (length init) = nRows
    /\ forall (i : nat) (row : Z),
         init !! i = Some row ->
         0 <= row < 2 ^ 64
         /\ row mod 2 ^ (Z.of_nat i + 1) = 2 ^ Z.of_nat i
         /\ Z.testbit row (Z.of_nat i) = true
         /\ forall j, 0 <= j < Z.of_nat i -> Z.testbit row j = false.
Proof.
  intros Hrows. unfold RandomGenValueGenerator_MULTILEVEL. cbn [fst snd].
  destruct (push_row_loop m_randomGen (Z.to_nat nRows) ltac:(lia))
    as (init & randomGen & Hrun & Hlen & Hinit).
  rewrite Z2Nat.id in Hrun by lia. rewrite Hrun. cbn [mbind option_bind fst snd].
  exists init, randomGen. split; [reflexivity|]. split; [lia|].
  intros i row Hrow. destruct (Hinit i row Hrow) as (Hrange & Hmod).
  split; [exact Hrange|]. split; [exact Hmod|].
  assert (forall j, 0 <= j <= Z.of_nat i ->
            Z.testbit row j = Z.testbit (2 ^ Z.of_nat i) j) as Hbits.
  { intros j Hj. rewrite <- Hmod. rewrite Z.mod_pow2_bits_low by lia. reflexivity. }
  split.
  - rewrite Hbits by lia. apply Z.pow2_bits_true. lia.
  - intros j Hj. rewrite Hbits by lia. apply Z.pow2_bits_false. lia.
Qed.

End ExplicitGeneratorFacts.

Lemma stepper_range (randomGen : Z) :
  0 <= fst (NetConstructionTraits.EXPLICIT.stepper randomGen) < 2 ^ 64.
Proof.
  unfold NetConstructionTraits.EXPLICIT.stepper. cbn [fst].
  apply Z.mod_pos_bound. lia.
Qed.

Lemma explicit_multilevel_rows_witness :
  0 <= 3 <= 30
  /\ exists randomGen,
       NetConstructionTraits.EXPLICIT.RandomGenValueGenerator_MULTILEVEL
         NetConstructionTraits.EXPLICIT.stepper (3, 3) 5
       = Some ((3, 3, [5; 11400714819323198490; 4354685564936845356]), randomGen).
Proof.
  split; [lia|].
  destruct (explicit_multilevel_rows NetConstructionTraits.EXPLICIT.stepper stepper_range
              3 3 5 ltac:(lia)) as (init & randomGen & Hrun & _ & _).
  exists randomGen. rewrite Hrun. vm_compute in Hrun. injection Hrun as <- <-.
  reflexivity.
Defined.

(** ** The stride permutation of digital nets *)

Section StorageDigitalFacts.
Import StorageDigital.

Lemma getmsb_loop_log2 (fuel : nat) :
  forall x r : Z,
    1 <= x < 2 ^ Z.of_nat fuel -> 0 <= r -> r + Z.log2 x < 2 ^ 32 ->
    getmsb_loop fuel x r = r + Z.log2 x.
Proof.
  induction fuel as [|fuel IH]; intros x r Hx Hr Hb.
  - simpl in Hx. lia.
  - cbn [getmsb_loop]. cbv zeta.
    rewrite Z.shiftr_div_pow2 by lia. change (2 ^ 1) with 2.
    destruct (Z.eqb_spec (x / 2) 0) as [H0|H0].
    + assert (x = 1) as -> by (apply Z.div_small_iff in H0; lia).
      simpl. lia.
    + assert (2 <= x).
      { destruct (Z.le_gt_cases 2 x); [assumption|].
        exfalso. apply H0. apply Z.div_small. lia. }
      assert (Z.log2 x = Z.log2 (x / 2) + 1) as Hlog.
      { pose proof (Z.log2_shiftr x 1 ltac:(lia)) as Hs.
        rewrite Z.shiftr_div_pow2 in Hs by lia. change (2 ^ 1) with 2 in Hs.
        assert (1 <= Z.log2 x) by (apply Z.log2_le_pow2; simpl; lia).
        lia. }
      assert (0 <= Z.log2 (x / 2)) by apply Z.log2_nonneg.
      unfold u32. rewrite Z.mod_small by lia.
      rewrite IH.
      * lia.
      * split.
        -- apply Z.div_le_lower_bound; lia.
        -- apply Z.div_lt_upper_bound; [lia|].
           rewrite Nat2Z.inj_succ, Z.pow_succ_r in Hx by lia. lia.
      * lia.
      * lia.
Qed.

Lemma getmsb_log2 (x : Z) : 0 <= x < 2 ^ 64 -> getmsb x = Z.log2 x.
Proof.
  intros Hx. unfold getmsb.
  destruct (Z.ltb_spec x 1) as [H1|H1].
  - assert (x = 0) as -> by lia. reflexivity.
  - assert (Z.log2 x < 64) by (apply Z.log2_lt_pow2; lia).
    pose proof (Z.log2_nonneg x).
    rewrite (getmsb_loop_log2 64 x 0) by (simpl; lia).
    apply Z.add_0_l.
Qed.

(** X1. [getmsb(x)] is the position of the highest 1-bit of [x], for
    every non-zero 64-bit [x]: [2^getmsb(x) <= x < 2^(getmsb(x)+1)]; it
    is 0 for [x = 0]. *)
Theorem getmsb_highest_bit (x : Z) :
  0 <= x < 2 ^ 64 ->
  getmsb x = Z.log2 x
  /\ (x = 0 -> getmsb x = 0)
  /\ (1 <= x -> 2 ^ getmsb x <= x < 2 ^ (getmsb x + 1)).
Proof.
  intros Hx. rewrite (getmsb_log2 x Hx). split; [reflexivity|]. split.
  - intros ->. reflexivity.
  - intros H1. pose proof (Z.log2_spec x ltac:(lia)) as Hs.
    rewrite <- Z.add_1_r in Hs. exact Hs.
Qed.

Lemma getmsb_highest_bit_witness :
  0 <= 40 < 2 ^ 64 /\ getmsb 40 = 5.
Proof.
  split; [lia|]. exact (proj1 (getmsb_highest_bit 40 ltac:(lia))).
Defined.


(** Every positive integer is a power of two times an odd number. *)
Lemma lowest_bit_exists (p : positive) :
  exists t q, 0 <= t /\ 0 <= q /\ Z.pos p = 2 ^ t * (2 * q + 1).
Proof.
  induction p as [p _|p (t & q & Ht & Hq & IH)|].
  - exists 0, (Z.pos p). repeat split; lia.
  - exists (t + 1), q. repeat split; try lia.
    rewrite Z.pow_add_r by lia. change (Z.pos p~0) with (2 * Z.pos p). rewrite IH. ring.
  - exists 0, 0. repeat split; lia.
Qed.

(** [i ^ (i+1)] has the bits up to the lowest 1-bit of [i+1] set. *)
Lemma lxor_succ (t : Z) :
  0 <= t ->
  forall i q, 0 <= q -> i + 1 = 2 ^ t * (2 * q + 1) ->
    Z.lxor i (i + 1) = Z.ones (t + 1).
Proof.
  intros Ht. pattern t. apply natlike_ind; [| |exact Ht]; clear t Ht.
  - intros i q Hq Hi. rewrite Z.pow_0_r, Z.mul_1_l in Hi.
    assert (i = 2 * q) as -> by lia.
    apply Z.bits_inj'. intros n Hn.
    rewrite Z.lxor_spec, Z.testbit_ones_nonneg by lia.
    destruct (Z.eq_dec n 0) as [->|Hn0].
    + rewrite Z.testbit_even_0, Z.testbit_odd_0. reflexivity.
    + replace n with (Z.succ (n - 1)) by lia.
      rewrite Z.testbit_even_succ, Z.testbit_odd_succ by lia.
      rewrite xorb_nilpotent. symmetry. apply Z.ltb_ge. lia.
  - intros t Ht IH i q Hq Hi.
    rewrite Z.pow_succ_r in Hi by lia.
    set (m := 2 ^ t * (2 * q + 1)) in *.
    assert (i = 2 * (m - 1) + 1) as -> by lia.
    replace (2 * (m - 1) + 1 + 1) with (2 * m) by lia.
    specialize (IH (m - 1) q Hq ltac:(lia)).
    replace (m - 1 + 1) with m in IH by lia.
    apply Z.bits_inj'. intros n Hn.
    rewrite Z.lxor_spec, Z.testbit_ones_nonneg by lia.
    destruct (Z.eq_dec n 0) as [->|Hn0].
    + rewrite Z.testbit_even_0, Z.testbit_odd_0.
      symmetry. apply Z.ltb_lt. lia.
    + replace n with (Z.succ (n - 1)) at 1 2 by lia.
      rewrite Z.testbit_even_succ, Z.testbit_odd_succ by lia.
      rewrite <- Z.lxor_spec, IH, Z.testbit_ones_nonneg by lia.
      destruct (Z.ltb_spec (n - 1) (t + 1)), (Z.ltb_spec n (Z.succ t + 1)); lia || reflexivity.
Qed.

(** Two consecutive Gray codes differ in one bit, the lowest 1-bit of
    the larger index. *)
Lemma gray_succ (i t q : Z) :
  0 <= t -> 0 <= q -> i + 1 = 2 ^ t * (2 * q + 1) ->
  Z.lxor (gray i) (gray (i + 1)) = 2 ^ t.
Proof.
  intros Ht Hq Hi. unfold gray.
  assert (Z.lxor (Z.lxor (Z.shiftr i 1) i) (Z.lxor (Z.shiftr (i + 1) 1) (i + 1))
          = Z.lxor (Z.shiftr (Z.lxor i (i + 1)) 1) (Z.lxor i (i + 1))) as ->.
  { rewrite Z.shiftr_lxor. apply Z.bits_inj'. intros n Hn.
    rewrite !Z.lxor_spec.
    destruct (Z.testbit (Z.shiftr i 1) n), (Z.testbit i n),
      (Z.testbit (Z.shiftr (i + 1) 1) n), (Z.testbit (i + 1) n); reflexivity. }
  rewrite (lxor_succ t Ht i q Hq Hi).
  apply Z.bits_inj'. intros n Hn.
  rewrite Z.lxor_spec, Z.shiftr_spec, !Z.testbit_ones_nonneg, Z.pow2_bits_eqb by lia.
  destruct (Z.ltb_spec (n + 1) (t + 1)), (Z.ltb_spec n (t + 1)), (Z.eqb_spec t n);
    lia || reflexivity.
Qed.

Lemma graycode_entry_lowest_bit (i t q : Z) :
  0 <= i -> i + 1 < 2 ^ 64 ->
  0 <= t -> 0 <= q -> i + 1 = 2 ^ t * (2 * q + 1) ->
  graycode_entry i = t.
Proof.
  intros Hi Hb Ht Hq Heq. unfold graycode_entry, u64.
  rewrite (Z.mod_small (i + 1)) by lia.
  fold (gray i). fold (gray (i + 1)).
  rewrite (gray_succ i t q Ht Hq Heq).
  assert (0 < 2 ^ t) by (apply Z.pow_pos_nonneg; lia).
  assert (2 ^ t < 2 ^ 64) by nia.
  rewrite (getmsb_log2 (2 ^ t)) by lia.
  apply Z.log2_pow2. exact Ht.
Qed.

Lemma ruler_entry (i : Z) :
  0 <= i -> i + 1 < 2 ^ 64 ->
  0 <= graycode_entry i
  /\ exists q, 0 <= q /\ i + 1 = 2 ^ graycode_entry i * (2 * q + 1).
Proof.
  intros Hi Hb.
  destruct (i + 1) as [|p|p] eqn:Hp; try lia.
  destruct (lowest_bit_exists p) as (t & q & Ht & Hq & Heq).
  rewrite <- Hp in *.
  rewrite (graycode_entry_lowest_bit i t q Hi Hb Ht Hq Heq).
  split; [exact Ht|]. exists q. split; assumption.
Qed.

Lemma extend_graycode_fold (l : list Z) :
  forall m_graycode : list Z,
    foldl (fun m_graycode i => m_graycode ++ [graycode_entry i]) m_graycode l
    = m_graycode ++ (graycode_entry <$> l).
Proof.
  induction l as [|i l IH]; intros g; simpl.
  - rewrite app_nil_r. reflexivity.
  - rewrite IH, <- app_assoc. reflexivity.
Qed.

Lemma extend_graycode_spec (m_graycode : list Z) (virtualSize : Z) :
  virtualSize < 2 ^ 64 ->
  ruler m_graycode ->
  Z.of_nat (length (extend_graycode m_graycode virtualSize))
  = Z.max (Z.of_nat (length m_graycode)) virtualSize
  /\ ruler (extend_graycode m_graycode virtualSize).
Proof.
  intros Hn Hruler. unfold extend_graycode. cbv zeta.
  rewrite extend_graycode_fold.
  split.
  - rewrite length_app, length_fmap, length_seqZ. lia.
  - intros i t Hi.
    apply lookup_app_Some in Hi. destruct Hi as [Hold|[Hlen Hnew]].
    + exact (Hruler i t Hold).
    + rewrite list_lookup_fmap in Hnew.
      destruct (seqZ _ _ !! _) as [j|] eqn:Hj; [|discriminate].
      apply lookup_seqZ in Hj. destruct Hj as [-> Hlt].
      simpl in Hnew. injection Hnew as <-.
      replace (Z.of_nat (length m_graycode) + Z.of_nat (i - length m_graycode))
        with (Z.of_nat i) by lia.
      apply ruler_entry; lia.
Qed.

(** X2. The first loop of the constructor only appends to the static
    table: whatever instances were built before, the table keeps its
    entries, has [max(size, virtualSize)] of them afterwards, and still
    holds at every index [i] the position of the lowest 1-bit of
    [i + 1]. *)
Theorem extend_graycode_ruler (m_graycode : list Z) (virtualSize : Z) :
  virtualSize < 2 ^ 64 ->
  ruler m_graycode ->
  m_graycode `prefix_of` extend_graycode m_graycode virtualSize
  /\ Z.of_nat (length (extend_graycode m_graycode virtualSize))
     = Z.max (Z.of_nat (length m_graycode)) virtualSize
  /\ ruler (extend_graycode m_graycode virtualSize).
Proof.
  intros Hn Hruler. split.
  - unfold extend_graycode. cbv zeta. rewrite extend_graycode_fold.
    apply prefix_app_r. reflexivity.
  - exact (extend_graycode_spec m_graycode virtualSize Hn Hruler).
Qed.

Lemma extend_graycode_ruler_witness :
  extend_graycode [] 8 = [0; 1; 0; 2; 0; 1; 0; 3]
  /\ ruler (extend_graycode [] 8).
Proof.
  split; [reflexivity|].
  refine (proj2 (proj2 (extend_graycode_ruler [] 8 _ _))); [lia|].
  intros i t Hi. rewrite lookup_nil in Hi. discriminate.
Defined.


(** Equalities between sums over GF(2), bit by bit. *)
Ltac lxor_bits :=
  apply Z.bits_inj'; intros ?n ?Hn;
  rewrite ?Z.lxor_spec, ?Z.bits_0;
  repeat match goal with
         | |- context [Z.testbit ?a ?n] => destruct (Z.testbit a n)
         end;
  reflexivity.

Lemma xor_cols_ext (cols : list Z) :
  forall from g g',
    0 <= from ->
    (forall b, from <= b -> Z.testbit g b = Z.testbit g' b) ->
    xor_cols cols from g = xor_cols cols from g'.
Proof.
  induction cols as [|col cols IH]; intros from g g' Hfrom Hbits; simpl.
  - reflexivity.
  - rewrite (Hbits from) by lia.
    rewrite (IH (from + 1) g g') by (try lia; intros b Hb; apply Hbits; lia).
    reflexivity.
Qed.

Lemma xor_cols_0 (cols : list Z) : forall from, xor_cols cols from 0 = 0.
Proof.
  induction cols as [|col cols IH]; intros from; simpl.
  - reflexivity.
  - rewrite Z.bits_0, IH. reflexivity.
Qed.

(** Flipping bit [t] of [g] adds the entry [cols[t - from]]. *)
Lemma xor_cols_flip (cols : list Z) :
  forall from g t col,
    0 <= from <= t ->
    cols !! Z.to_nat (t - from) = Some col ->
    xor_cols cols from (Z.lxor g (2 ^ t)) = Z.lxor (xor_cols cols from g) col.
Proof.
  induction cols as [|c cols IH]; intros from g t col Hfrom Hcol.
  - rewrite lookup_nil in Hcol. discriminate.
  - cbn [xor_cols].
    rewrite Z.lxor_spec, Z.pow2_bits_eqb by lia.
    destruct (Z.eqb_spec t from) as [->|Hne].
    + replace (from - from) with 0 in Hcol by lia. simpl in Hcol. injection Hcol as ->.
      rewrite (xor_cols_ext cols (from + 1) (Z.lxor g (2 ^ from)) g).
      * destruct (Z.testbit g from); simpl; lxor_bits.
      * lia.
      * intros b Hb. rewrite Z.lxor_spec, Z.pow2_bits_eqb by lia.
        destruct (Z.eqb_spec from b); [lia|]. apply xorb_false_r.
    + rewrite xorb_false_r.
      rewrite (IH (from + 1) g t col).
      * lxor_bits.
      * lia.
      * replace (Z.to_nat (t - from)) with (S (Z.to_nat (t - (from + 1)))) in Hcol by lia.
        exact Hcol.
Qed.

Lemma gray_next (j t q : Z) :
  0 <= t -> 0 <= q -> j + 1 = 2 ^ t * (2 * q + 1) ->
  gray (j + 1) = Z.lxor (gray j) (2 ^ t).
Proof.
  intros Ht Hq Hj. rewrite <- (gray_succ j t q Ht Hq Hj). lxor_bits.
Qed.

(** The second loop, turn by turn: after the turns [i = 1..m] the
    entries [0..m] of [m_permutation] are set. *)
Lemma fill_permutation_loop (cols m_graycode : list Z) (n : Z) (m : nat) :
  ruler m_graycode ->
  n <= Z.of_nat (length m_graycode) + 1 ->
  n <= 2 ^ Z.of_nat (length cols) ->
  Z.of_nat m < n ->
  exists m_permutation,
    for_each
      (fun m_permutation i =>
         previous ← read m_permutation (i - 1);
         g ← read m_graycode (i - 1);
         col ← read cols g;
         write m_permutation i (Z.lxor previous col))
      (replicate (Z.to_nat n) 0) (seqZ 1 (Z.of_nat m))
    = Some m_permutation
    /\ Z.of_nat (length m_permutation) = n
    /\ forall i, 0 <= i <= Z.of_nat m ->
         read m_permutation i = Some (xor_cols cols 0 (gray i)).
Proof.
  intros Hruler Hlen Hcols. induction m as [|m IH]; intros Hm.
  - exists (replicate (Z.to_nat n) 0). split; [reflexivity|].
    split; [rewrite length_replicate; lia|].
    intros i Hi. assert (i = 0) as -> by lia.
    rewrite read_lookup by lia. rewrite lookup_replicate_2 by lia.
    change (gray 0) with 0. rewrite xor_cols_0. reflexivity.
  - destruct (IH ltac:(lia)) as (perm & Hrun & Hperm & Hval).
    rewrite seqZ_S, for_each_app, Hrun. cbn [mbind option_bind for_each].
    replace (1 + Z.of_nat m - 1) with (Z.of_nat m) by lia.
    rewrite (Hval (Z.of_nat m)) by lia. cbn [mbind option_bind].
    destruct (read_Some m_graycode (Z.of_nat m) ltac:(lia)) as (t & Ht).
    rewrite Ht. cbn [mbind option_bind].
    destruct (read_inv _ _ _ Ht) as [_ Hlook]. rewrite Nat2Z.id in Hlook.
    destruct (Hruler m t Hlook) as (Ht0 & q & Hq & Heq).
    assert (t < Z.of_nat (length cols)) as Htc.
    { apply (Z.pow_lt_mono_r_iff 2); [lia|lia|].
      assert (0 < 2 ^ t) by (apply Z.pow_pos_nonneg; lia). nia. }
    destruct (read_Some cols t ltac:(lia)) as (col & Hcol).
    rewrite Hcol. cbn [mbind option_bind].
    rewrite write_Some by lia.
    eexists. split; [reflexivity|].
    split; [rewrite length_insert; exact Hperm|].
    intros i Hi.
    destruct (Z.eq_dec i (1 + Z.of_nat m)) as [->|Hne].
    + rewrite read_lookup by lia. rewrite list_lookup_insert_eq by lia.
      f_equal. replace (1 + Z.of_nat m) with (Z.of_nat m + 1) by lia.
      rewrite (gray_next (Z.of_nat m) t q Ht0 Hq Heq).
      destruct (read_inv _ _ _ Hcol) as [_ Hcol'].
      rewrite (xor_cols_flip cols 0 (gray (Z.of_nat m)) t col); [reflexivity|lia|].
      rewrite Z.sub_0_r. exact Hcol'.
    + rewrite read_lookup by lia. rewrite list_lookup_insert_ne by lia.
      rewrite <- read_lookup by lia. apply Hval. lia.
Qed.

(** X3. Building a [Stride] from reversed columns [cols] succeeds as
    soon as the virtual size is at most [2^cols.size()], and entry [i]
    of the permutation is then the sum over GF(2) of the columns
    selected by the bits of the Gray code of [i]: the product of the
    matrix by the Gray code of [i]. *)
Theorem Stride_permutation_gray (m_graycode cols : list Z) (virtualSize : Z) :
  0 <= virtualSize < 2 ^ 64 ->
  virtualSize <= 2 ^ Z.of_nat (length cols) ->
  ruler m_graycode ->
  exists m_graycode' m_permutation,
    Stride m_graycode virtualSize cols = Some (m_graycode', m_permutation)
    /\ Z.of_nat (length m_permutation) = virtualSize
    /\ forall i, 0 <= i < virtualSize ->
         read m_permutation i = Some (xor_cols cols 0 (gray i)).
Proof.
  intros Hn Hcols Hruler. unfold Stride. cbv zeta.
  destruct (extend_graycode_spec m_graycode virtualSize ltac:(lia) Hruler)
    as (Hlen & Hruler').
  destruct (Z.eq_dec virtualSize 0) as [->|Hpos].
  - exists (extend_graycode m_graycode 0), []. split; [reflexivity|].
    split; [reflexivity|]. intros i Hi. lia.
  - destruct (fill_permutation_loop cols (extend_graycode m_graycode virtualSize)
                virtualSize (Z.to_nat (virtualSize - 1)) Hruler'
                ltac:(lia) Hcols ltac:(lia))
      as (perm & Hrun & Hperm & Hval).
    rewrite Z2Nat.id in Hrun, Hval by lia.
    unfold fill_permutation. rewrite Hrun. cbn [mbind option_bind].
    eexists _, perm. split; [reflexivity|]. split; [exact Hperm|].
    intros i Hi. apply Hval. lia.
Qed.

Lemma Stride_permutation_gray_witness :
  exists m_graycode',
    Stride [] 8 [4; 2; 1] = Some (m_graycode', [0; 4; 6; 2; 3; 7; 5; 1]).
Proof.
  assert (ruler []) as Hruler.
  { intros i t Hi. rewrite lookup_nil in Hi. discriminate. }
  destruct (Stride_permutation_gray [] [4; 2; 1] 8 ltac:(lia) ltac:(simpl; lia) Hruler)
    as (g & perm & Hrun & _ & _).
  exists g. rewrite Hrun. vm_compute in Hrun. injection Hrun as _ <-. reflexivity.
Defined.

End StorageDigitalFacts.

(** ** The unilevel t-value *)

Section UnilevelFacts.
Context {GM RR CM : Type}.
Context `{!GeneratingMatrixOps GM} `{!ProgressiveRowReducerOps GM RR}
        `{!CompositionMakerOps CM}.
Import GaussMethod.

(** The loop over [k] with one level: the values of [k] for which the
    single-net routine returns [nCols] are skipped. *)
Lemma levels_loop_skip (baseMatrices : list GM) (C m : Z) (ks : list Z) (x : Z) :
  (forall k, k ∈ ks -> iteration_on_k baseMatrices k = Some C) ->
  forall rest,
    levels_loop baseMatrices C [m] 0 1 (C - 1) (ks ++ rest) [x] 1
    = levels_loop baseMatrices C [m] 0 1 (C - 1) rest [x] 1.
Proof.
  induction ks as [|k ks IH]; intros Hks rest; [reflexivity|].
  cbn [app levels_loop].
  rewrite (Hks k) by left. cbn [mbind option_bind]. rewrite Z.eqb_refl.
  apply IH. intros k' Hk'. apply Hks. right. exact Hk'.
Qed.

(** Raising the only level. *)
Lemma raise_single (m : Z) (bound : Z -> Z) (x : Z) :
  for_each (raise_level [m] 0 bound) [x] [0] = Some [Z.max (bound 0) m].
Proof. reflexivity. Qed.

(** The first [k] for which it returns something else settles the
    result. *)
Lemma levels_loop_settle (baseMatrices : list GM) (C m k r : Z) (rest : list Z) (x : Z) :
  iteration_on_k baseMatrices k = Some r ->
  r < C ->
  levels_loop baseMatrices C [m] 0 1 (C - 1) (k :: rest) [x] 1
  = Some [Z.max (u32 (C - k)) m].
Proof.
  intros Hk Hr. cbn [levels_loop]. rewrite Hk. cbn [mbind option_bind].
  destruct (Z.eqb_spec r C) as [->|_]; [lia|].
  destruct (Z.ltb_spec (C - 1) r) as [Hlt|_]; [lia|].
  change (seqZ 0 (1 - 0)) with [0]. rewrite raise_single. cbn [mbind option_bind].
  destruct (Z.leb_spec r (C - 1)) as [_|Hgt]; [|lia].
  replace (C - (1 - 1 - 0) - k) with (C - k) by lia. reflexivity.
Qed.

(** X15. For a family of [s >= 2] matrices with at least [s] columns,
    the unilevel [computeTValue] is decided by the largest
    [k <= nRows - maxSubProj] for which the single-net routine returns
    an index below [nCols]: the result is the larger of [nCols - k] and
    [maxSubProj]; if there is no such [k] down to [s] it is the larger
    of [nCols - s + 1] and [maxSubProj].  With fewer columns than
    matrices the result is [maxSubProj]. *)
Theorem computeTValue_first_full_rank (baseMatrices : list GM) (M0 : GM) (maxSubProj : Z) :
  let s := Z.of_nat (length baseMatrices) in
  let R := u32 (nRows M0) in
  let C := u32 (nCols M0) in
  read baseMatrices 0 = Some M0 ->
  2 <= s < 2 ^ 32 ->
  1 <= C ->
  0 <= maxSubProj <= R ->
  (C < s -> computeTValue baseMatrices maxSubProj = Some maxSubProj)
  /\ (s <= C ->
      (forall k, s <= k <= R - maxSubProj -> iteration_on_k baseMatrices k = Some C) ->
      computeTValue baseMatrices maxSubProj = Some (Z.max (C - s + 1) maxSubProj))
  /\ (s <= C ->
      forall k r,
        s <= k <= R - maxSubProj ->
        iteration_on_k baseMatrices k = Some r ->
        r < C ->
        (forall k', k < k' <= R - maxSubProj ->
                    iteration_on_k baseMatrices k' = Some C) ->
        computeTValue baseMatrices maxSubProj = Some (Z.max (u32 (C - k)) maxSubProj)).
Proof.
  intros s R C HM0 Hs HC Hm.
  assert (0 <= C < 2 ^ 32) as HCr by apply u32_range.
  assert (0 <= R < 2 ^ 32) as HRr by apply u32_range.
  assert (u32 (nCols M0 - 1) = C - 1) as HmMin.
  { unfold C, u32 in *. rewrite <- Zminus_mod_idemp_l. apply Z.mod_small. lia. }
  assert (s < 2 ^ 32 -> u32 (s - 1) = s - 1) as Hs1
    by (intros Hlt; apply u32_small; lia).
  assert (computeTValue baseMatrices maxSubProj
          = (res ← computeTValue_multilevel baseMatrices (C - 1) [maxSubProj]; read res 0))
    as Huni.
  { unfold computeTValue. fold s.
    destruct (Z.eqb_spec s 1) as [H1|_]; [lia|].
    rewrite HM0. cbn [mbind option_bind]. rewrite HmMin. reflexivity. }
  assert (s <= C ->
          computeTValue_multilevel baseMatrices (C - 1) [maxSubProj]
          = levels_loop baseMatrices C [maxSubProj] 0 1 (C - 1)
              (reverse (seqZ s (R - maxSubProj - s + 1)))
              [Z.max (C - s + 1) maxSubProj] 1) as Hmulti.
  { intros HsC. unfold computeTValue_multilevel. rewrite HM0. cbn [mbind option_bind].
    fold s R C. cbv zeta.
    destruct (Z.eqb_spec s 1) as [H1|_]; [lia|].
    rewrite Hs1 by lia.
    destruct (Z.ltb_spec (C - 1) (s - 1)) as [Hlt|_]; [lia|].
    unfold refine_levels. change (Z.of_nat (length [maxSubProj])) with 1.
    change (seqZ 0 1) with [0]. rewrite raise_single. cbn [mbind option_bind].
    change (last [maxSubProj]) with (Some maxSubProj). cbn [mbind option_bind].
    rewrite (u32_small (R - maxSubProj)) by lia.
    replace (C - (1 - 1 - 0) - s + 1) with (C - s + 1) by lia.
    rewrite (u32_small (C - s + 1)) by lia. reflexivity. }
  split; [|split].
  - intros HCs. rewrite Huni. unfold computeTValue_multilevel.
    rewrite HM0. cbn [mbind option_bind]. fold s R C. cbv zeta.
    destruct (Z.eqb_spec s 1) as [H1|_]; [lia|].
    rewrite Hs1 by lia.
    destruct (Z.ltb_spec (C - 1) (s - 1)) as [_|Hge]; [|lia].
    rewrite (u32_small (s - 1 - (C - 1))) by lia.
    change (Z.of_nat (length [maxSubProj])) with 1.
    destruct (Z.leb_spec 1 (s - 1 - (C - 1))) as [_|Hgt]; [|lia].
    reflexivity.
  - intros HsC Hall. rewrite Huni, (Hmulti HsC).
    rewrite <- (app_nil_r (reverse _)).
    rewrite levels_loop_skip.
    + reflexivity.
    + intros k Hk. apply elem_of_reverse, elem_of_seqZ in Hk. apply Hall. lia.
  - intros HsC k r Hk Hr HrC Habove. rewrite Huni, (Hmulti HsC).
    assert (seqZ s (R - maxSubProj - s + 1)
            = seqZ s (k - s) ++ [k] ++ seqZ (k + 1) (R - maxSubProj - k)) as ->.
    { replace (R - maxSubProj - s + 1) with ((k - s) + (1 + (R - maxSubProj - k))) by lia.
      rewrite seqZ_app by lia. f_equal.
      replace (s + (k - s)) with k by lia.
      rewrite seqZ_cons by lia. f_equal. f_equal; lia. }
    rewrite !reverse_app. rewrite <- app_assoc.
    rewrite levels_loop_skip.
    + change (reverse [k]) with [k]. cbn [app].
      rewrite (levels_loop_settle baseMatrices C maxSubProj k r _ _ Hr HrC).
      reflexivity.
    + intros k' Hk'. apply elem_of_reverse, elem_of_seqZ in Hk'. apply Habove. lia.
Qed.

End UnilevelFacts.

Section UnilevelWitnesses.
Import Reference GaussMethod.

Lemma computeTValue_first_full_rank_witness :
  read [I3; J3] 0 = Some I3
  /\ iteration_on_k [I3; J3] 3 = Some 3
  /\ iteration_on_k [I3; J3] 2 = Some 1
  /\ computeTValue [I3; J3] 0 = Some 1.
Proof.
  assert (iteration_on_k [I3; J3] 3 = Some 3) as H3 by reflexivity.
  assert (iteration_on_k [I3; J3] 2 = Some 1) as H2 by reflexivity.
  split; [reflexivity|]. split; [exact H3|]. split; [exact H2|].
  destruct (computeTValue_first_full_rank [I3; J3] I3 0 eq_refl
              ltac:(simpl; lia) ltac:(vm_compute; discriminate)
              ltac:(vm_compute; split; discriminate)) as (_ & _ & Hfirst).
  rewrite (Hfirst ltac:(vm_compute; discriminate) 2 1
             ltac:(vm_compute; split; discriminate) H2 ltac:(vm_compute; reflexivity)).
  - reflexivity.
  - intros k' Hk'. 
    assert (u32 (nRows I3) - 0 = 3) as HR by reflexivity. rewrite HR in Hk'.
    assert (k' = 3) as -> by lia. exact H3.
Defined.

End UnilevelWitnesses.

(** ** Further properties of the t-value computation *)

Section MoreGaussFacts.
Context {GM RR CM : Type}.
Context `{!GeneratingMatrixOps GM} `{!ProgressiveRowReducerOps GM RR}
        `{!CompositionMakerOps CM}.
Import GaussMethod.

Lemma one_to_one_move (origin : gmap (Z * Z) Z) (k : Z) (src dst : Z * Z) (r : Z) :
  one_to_one origin k ->
  origin !! src = Some r ->
  origin !! dst = None ->
  one_to_one (delete src (<[dst := r]> origin)) k.
Proof.
  intros (Hrange & Hinj & Hsurj) Hsrc Hdst.
  assert (src <> dst) as Hne by (intros ->; congruence).
  split; [|split].
  - intros key r' Hkey.
    apply lookup_delete_Some in Hkey as [_ Hkey].
    apply lookup_insert_Some in Hkey as [[_ <-]|[_ Hkey]]; eauto.
  - intros key key' r' Hkey Hkey'.
    apply lookup_delete_Some in Hkey as [Hk Hkey].
    apply lookup_delete_Some in Hkey' as [Hk' Hkey'].
    apply lookup_insert_Some in Hkey as [[<- <-]|[Hd Hkey]];
      apply lookup_insert_Some in Hkey' as [[<- Heq]|[Hd' Hkey']].
    + reflexivity.
    + exfalso. apply Hk'. exact (Hinj _ _ _ Hsrc Hkey').
    + exfalso. subst r'. apply Hk. exact (Hinj _ _ _ Hsrc Hkey).
    + exact (Hinj _ _ _ Hkey Hkey').
  - intros r' Hr'. destruct (Hsurj r' Hr') as (key & Hkey).
    destruct (decide (key = src)) as [->|Hks].
    + exists dst. assert (r' = r) as -> by congruence.
      rewrite lookup_delete_ne by congruence. apply lookup_insert_eq.
    + exists key. rewrite lookup_delete_ne by congruence.
      rewrite lookup_insert_ne; [exact Hkey|]. intros <-. congruence.
Qed.

(** Changes that are moves keep the map one-to-one, and every
    [replaceRow] that goes with them is for a row the map holds. *)
Lemma exchanges_keep_one_to_one (baseMatrices : list GM) (nCols s k : Z)
    (origin origin' : gmap (Z * Z) Z) (changes : list rowChange_t)
    (replaced : list (call GM)) :
  one_to_one origin k ->
  moves origin changes ->
  exchanges baseMatrices nCols s origin changes replaced origin' ->
  one_to_one origin' k
  /\ Forall (fun c => exists rowIndex newRow,
                        c = ReplaceRow rowIndex newRow /\ 0 <= rowIndex < k) replaced.
Proof.
  intros Hone Hmoves Hex. revert Hone Hmoves.
  induction Hex as [origin|origin change changes M replaced origin' HM Hex IH];
    intros Hone Hmoves.
  - split; [exact Hone|constructor].
  - inversion Hmoves as [|? ? ? [r Hsrc] Hdst Hrest]; subst.
    rewrite Hsrc in *. cbn [default] in *.
    destruct (IH (one_to_one_move origin k _ _ r Hone Hsrc Hdst) Hrest) as [Hone' Hall].
    split; [exact Hone'|]. constructor; [|exact Hall].
    eexists _, _. split; [reflexivity|]. exact (proj1 Hone _ _ Hsrc).
Qed.

Lemma moves_prefix (origin : gmap (Z * Z) Z) (changes : list rowChange_t) :
  moves origin changes ->
  forall gone, gone `prefix_of` changes -> moves origin gone.
Proof.
  induction 1 as [origin|origin change changes Hsrc Hdst Hrest IH]; intros gone Hgone.
  - apply prefix_nil_inv in Hgone as ->. constructor.
  - destruct gone as [|change' gone]; [constructor|].
    apply prefix_cons_inv_1 in Hgone as Hhead. subst change'.
    apply prefix_cons_inv_2 in Hgone.
    constructor; [exact Hsrc | exact Hdst | apply IH; exact Hgone].
Qed.

(** The keys that the seeding loops put into the map. *)
Lemma seed_last_keys (M : GM) (C : Z) (l : list Z) :
  forall (st : run GM RR) key r,
    Origin_to_M (foldl (seed_last M C) st l) !! key = Some r ->
    Origin_to_M st !! key = Some r
    \/ exists i, i ∈ l /\ key = (1, i + 1) /\ r = i.
Proof.
  induction l as [|x l IH]; intros st key r Hkey; simpl in Hkey; [now left|].
  destruct (IH _ _ _ Hkey) as [H|(i & Hi & -> & ->)].
  - simpl in H. apply lookup_insert_Some in H as [[<- <-]|[_ H]].
    + right. exists x. split; [left|]. auto.
    + now left.
  - right. exists i. split; [now right|auto].
Qed.

Lemma seed_earlier_keys baseMatrices (C k s : Z) (l : list Z) :
  forall (st st' : run GM RR) key r,
    for_each (seed_earlier baseMatrices C k s) st l = Some st' ->
    Origin_to_M st' !! key = Some r ->
    Origin_to_M st !! key = Some r
    \/ exists i, i ∈ l /\ key = (i + 1, 1) /\ r = u32 (k - s + i).
Proof.
  induction l as [|x l IH]; intros st st' key r Hrun Hkey; cbn [for_each] in Hrun.
  - injection Hrun as <-. now left.
  - destruct (seed_earlier baseMatrices C k s st x) as [st1|] eqn:Hx; [|discriminate].
    cbn [mbind option_bind] in Hrun.
    destruct (IH _ _ _ _ Hrun Hkey) as [H|(i & Hi & -> & ->)].
    + unfold seed_earlier in Hx.
      destruct (read baseMatrices (u32 (s - 1 - x))) as [M|]; [|discriminate].
      cbn [mbind option_bind] in Hx. injection Hx as <-. simpl in H.
      apply lookup_insert_Some in H as [[<- <-]|[_ H]].
      * right. exists x. split; [left|]. auto.
      * now left.
    + right. exists i. split; [now right|auto].
Qed.

(** Once the reducer is seeded, the map is one-to-one onto its [k]
    rows. *)
Lemma seed_one_to_one baseMatrices (M0 : GM) (C k : Z) (st : run GM RR) :
  let s := Z.of_nat (length baseMatrices) in
  1 <= s -> s <= k < 2 ^ 32 ->
  seed baseMatrices C k s = Some st ->
  one_to_one (Origin_to_M st) k.
Proof.
  intros s Hs Hk Hseed.
  destruct (seed_layout baseMatrices M0 C k Hs Hk) as (st1 & Hseed1 & _ & _ & Hfirst & Hlater).
  fold s in Hseed1. assert (st1 = st) as -> by congruence.
  assert (forall key r, Origin_to_M st !! key = Some r ->
            (exists i, 0 <= i < k - s + 1 /\ key = (1, i + 1) /\ r = i)
            \/ (exists i, 1 <= i < s /\ key = (i + 1, 1) /\ r = k - s + i)) as Hkeys.
  { intros key r Hkey. clear Hseed1. unfold seed in Hseed.
    destruct (read baseMatrices (u32 (s - 1))) as [M|]; [|discriminate].
    cbn [mbind option_bind] in Hseed.
    destruct (seed_earlier_keys _ _ _ _ _ _ _ _ _ Hseed Hkey) as [H|(i & Hi & -> & ->)].
    - apply seed_last_keys in H as [H|(i & Hi & -> & ->)].
      + simpl in H. rewrite lookup_empty in H. discriminate.
      + left. exists i. rewrite (u32_small (k - s + 1)) in Hi by lia.
        apply elem_of_seqZ in Hi. split; [lia|auto].
    - right. exists i. apply elem_of_seqZ in Hi.
      split; [lia|]. split; [reflexivity|]. apply u32_small. lia. }
  split; [|split].
  - intros key r Hkey.
    destruct (Hkeys key r Hkey) as [(i & Hi & _ & ->)|(i & Hi & _ & ->)]; lia.
  - intros key key' r Hkey Hkey'.
    destruct (Hkeys key r Hkey) as [(i & Hi & -> & Hr)|(i & Hi & -> & Hr)];
      destruct (Hkeys key' r Hkey') as [(i' & Hi' & -> & Hr')|(i' & Hi' & -> & Hr')];
      try lia; f_equal; lia.
  - intros r Hr. destruct (Z.lt_ge_cases r (k - s + 1)) as [Hlow|Hhigh].
    + exists (1, r + 1). apply Hfirst. lia.
    + exists (r - (k - s) + 1, 1).
      rewrite (Hlater (r - (k - s))) by lia. f_equal. lia.
Qed.

(** X17. As long as every change of the enumeration moves a unit that
    the map [Origin_to_M] holds, from the seeded map on, to a place that
    it does not hold yet, [iteration_on_k] ends with a map that is
    one-to-one onto the rows [0..k-1] of the reducer, and every
    [replaceRow] it has called is for one of these rows. *)
Theorem iteration_on_k_one_to_one baseMatrices (M0 : GM) (R C k : Z) :
  let s := Z.of_nat (length baseMatrices) in
  finite_enumeration ->
  read baseMatrices 0 = Some M0 ->
  2 <= s ->
  Forall (fun M => u32 (nRows M) = R /\ u32 (nCols M) = C) baseMatrices ->
  s <= k <= R ->
  Forall (fun change => 1 <= fst (snd change) <= s) (all_changes k s) ->
  (forall st0 : run GM RR,
     seed baseMatrices C k s = Some st0 ->
     moves (Origin_to_M st0) (all_changes k s)) ->
  exists r st,
    iteration_on_k_run baseMatrices k = Some (r, st)
    /\ one_to_one (Origin_to_M st) k
    /\ Forall (fun c => match c with
                        | AddRow _ => True
                        | ReplaceRow rowIndex _ => 0 <= rowIndex < k
                        end) (calls st).
Proof.
  intros s Hfin HM0 Hs Hshape Hk Hparts Hmoves.
  apply read_inv in HM0 as HM0'. destruct HM0' as [_ HM0'].
  destruct (Forall_lookup_1 _ _ _ _ Hshape HM0') as [HR HC].
  pose proof (u32_range (nRows M0)) as HR32. rewrite HR in HR32.
  destruct (seed_layout baseMatrices M0 C k) as (st0 & Hseed & Hc0 & Hv0 & _);
    [lia | lia |]. fold s in Hseed.
  pose proof (seed_one_to_one baseMatrices M0 C k st0 ltac:(lia) ltac:(lia) Hseed) as Hone0.
  specialize (Hmoves st0 Hseed).
  assert (Forall (fun c : call GM => match c with
                                     | AddRow _ => True
                                     | ReplaceRow rowIndex _ => 0 <= rowIndex < k
                                     end) (calls st0)) as Hadd.
  { rewrite Hc0. apply Forall_fmap, Forall_true. intros M. exact I. }
  rewrite <- HC in Hseed.
  rewrite (iteration_on_k_run_seeded baseMatrices M0 k st0 HM0 Hseed).
  rewrite HC. fold s.
  destruct (u32 (smallestFullRank (rowReducer st0) - 1) =? C).
  - exists C, st0. auto.
  - destruct (compositions_run Hfin baseMatrices C s eq_refl ltac:(lia)
                (S (compositionsLeft (CompositionMaker k s))) (CompositionMaker k s)
                st0 (u32 (smallestFullRank (rowReducer st0) - 1)))
      as (r & st & gone & replaced & Hrun & Hc & _ & Hexs & _ & Hpre);
      [lia | exact Hparts |].
    destruct (exchanges_keep_one_to_one baseMatrices C s k _ _ gone replaced Hone0
                (moves_prefix _ _ Hmoves gone Hpre) Hexs) as [Hone Hrows].
    exists r, st. split; [exact Hrun|]. split; [exact Hone|].
    rewrite Hc. apply Forall_app. split; [exact Hadd|].
    eapply Forall_impl; [exact Hrows|].
    intros c (rowIndex & newRow & -> & Hrow). exact Hrow.
Qed.

Lemma raise_level_low (maxSubProj : list Z) (diff : Z) (bound : Z -> Z)
    (result result' : list Z) (i : Z) :
  0 <= diff -> 0 <= i -> i + diff < 2 ^ 32 ->
  raise_level maxSubProj diff bound result i = Some result' ->
  forall j : nat, Z.of_nat j < diff -> result' !! j = result !! j.
Proof.
  intros Hdiff Hi Hsmall Hrun j Hj. unfold raise_level in Hrun.
  rewrite (u32_small (i + diff)) in Hrun by lia.
  destruct (read maxSubProj (i + diff)) as [m|]; [|discriminate].
  cbn [mbind option_bind] in Hrun. unfold write in Hrun.
  destruct ((0 <=? i + diff) && (i + diff <? Z.of_nat (length result))); [|discriminate].
  injection Hrun as <-. apply list_lookup_insert_ne. lia.
Qed.

Lemma raise_levels_low (maxSubProj : list Z) (diff : Z) (bound : Z -> Z) (l : list Z) :
  0 <= diff ->
  (forall i, i ∈ l -> 0 <= i /\ i + diff < 2 ^ 32) ->
  forall result result',
    for_each (raise_level maxSubProj diff bound) result l = Some result' ->
    forall j : nat, Z.of_nat j < diff -> result' !! j = result !! j.
Proof.
  intros Hdiff. induction l as [|i l IH]; intros Hl result result' Hrun j Hj.
  - injection Hrun as <-. reflexivity.
  - cbn [for_each] in Hrun.
    destruct (raise_level maxSubProj diff bound result i) as [result1|] eqn:Hstep;
      [|discriminate].
    cbn [mbind option_bind] in Hrun.
    destruct (Hl i ltac:(left)) as [Hi Hsmall].
    rewrite (IH (fun i' Hi' => Hl i' (list_elem_of_further _ _ _ Hi')) result1 result' Hrun j Hj).
    exact (raise_level_low maxSubProj diff bound result result1 i Hdiff Hi Hsmall Hstep j Hj).
Qed.

Lemma levels_loop_low (baseMatrices : list GM) (C : Z) (maxSubProj : list Z)
    (diff nLevel mMin : Z) :
  0 <= diff -> 0 <= mMin ->
  diff + nLevel < 2 ^ 32 ->
  C < 2 ^ 32 -> C - mMin <= nLevel + 1 ->
  forall (ks : list Z) (result res : list Z) (prev : Z),
    (forall k r, k ∈ ks -> iteration_on_k baseMatrices k = Some r -> r <= C) ->
    prev <= nLevel ->
    levels_loop baseMatrices C maxSubProj diff nLevel mMin ks result prev = Some res ->
    forall j : nat, Z.of_nat j < diff -> res !! j = result !! j.
Proof.
  intros Hdiff HmMin Hlen HC Hfit.
  induction ks as [|k ks IH]; intros result res prev Hiter Hprev Hrun j Hj.
  - injection Hrun as <-. reflexivity.
  - cbn [levels_loop] in Hrun.
    destruct (iteration_on_k baseMatrices k) as [r|] eqn:Hr; [|discriminate].
    cbn [mbind option_bind] in Hrun.
    pose proof (Hiter k r ltac:(left) Hr) as HrC.
    assert (forall k' r', k' ∈ ks -> iteration_on_k baseMatrices k' = Some r' -> r' <= C)
      as Hiter' by (intros k' r' Hk'; apply Hiter; right; exact Hk').
    destruct (Z.eqb_spec r C) as [->|HrneC].
    + exact (IH result res prev Hiter' Hprev Hrun j Hj).
    + set (first := if mMin <? r then u32 (r - mMin) else 0) in *.
      assert (0 <= first) as Hfirst.
      { unfold first. destruct (mMin <? r); [apply u32_range | lia]. }
      destruct (for_each _ result (seqZ first (prev - first))) as [result1|] eqn:Hraise;
        [|discriminate].
      cbn [mbind option_bind] in Hrun.
      assert (result1 !! j = result !! j) as Hlow.
      { eapply raise_levels_low; [exact Hdiff| |exact Hraise|exact Hj].
        intros i Hi. apply elem_of_seqZ in Hi. lia. }
      destruct (Z.leb_spec r mMin) as [Hle|Hgt].
      * injection Hrun as <-. exact Hlow.
      * rewrite <- Hlow.
        apply (IH result1 res (u32 (r - mMin)) Hiter'); [|exact Hrun|exact Hj].
        rewrite u32_small by lia. lia.
Qed.

(** X18. For [s >= 2] matrices the levels with fewer than [s - 1]
    columns are not refined: the first [s - 1 - mMin] entries of the
    result are the entries of [maxSubProj]. *)
Theorem multilevel_low_levels (baseMatrices : list GM) (M0 : GM)
    (mMin : Z) (maxSubProj : list Z) :
  let s := Z.of_nat (length baseMatrices) in
  let C := u32 (nCols M0) in
  let R := u32 (nRows M0) in
  read baseMatrices 0 = Some M0 ->
  2 <= s < 2 ^ 32 ->
  0 <= mMin < C ->
  Z.of_nat (length maxSubProj) = C - mMin ->
  Forall (fun m => 0 <= m) maxSubProj ->
  (forall back k,
     last maxSubProj = Some back -> s <= k <= u32 (R - back) ->
     exists r, iteration_on_k baseMatrices k = Some r /\ r <= C) ->
  exists res,
    computeTValue_multilevel baseMatrices mMin maxSubProj = Some res
    /\ length res = length maxSubProj
    /\ forall j : nat, Z.of_nat j < s - 1 - mMin -> res !! j = maxSubProj !! j.
Proof.
  intros s C R HM0 Hs HmMin Hlevels Hpos Hiter.
  destruct (computeTValue_multilevel_defined baseMatrices M0 mMin maxSubProj
              HM0 Hs HmMin Hlevels Hpos Hiter) as (res & Hrun & Hlen & _).
  exists res. split; [exact Hrun|]. split; [exact Hlen|].
  intros j Hj.
  pose proof (u32_range (nCols M0)) as HC. fold C in HC.
  unfold computeTValue_multilevel in Hrun. rewrite HM0 in Hrun.
  cbn [mbind option_bind] in Hrun. fold s C R in Hrun.
  destruct (Z.eqb_spec s 1) as [Hs1|_]; [lia|].
  rewrite (u32_small (s - 1)) in Hrun by lia.
  destruct (Z.ltb_spec mMin (s - 1)) as [Hlt|Hge]; [|lia].
  rewrite (u32_small (s - 1 - mMin)) in Hrun by lia.
  destruct (Z.leb_spec (Z.of_nat (length maxSubProj)) (s - 1 - mMin)) as [Hfew|Hmany].
  - injection Hrun as <-. reflexivity.
  - rewrite (u32_small (Z.of_nat (length maxSubProj) - (s - 1 - mMin))) in Hrun by lia.
    unfold refine_levels in Hrun.
    destruct (for_each _ maxSubProj (seqZ 0 _)) as [result|] eqn:Hraise; [|discriminate].
    cbn [mbind option_bind] in Hrun.
    destruct (last maxSubProj) as [back|] eqn:Hback; [|discriminate].
    cbn [mbind option_bind] in Hrun.
    assert (result !! j = maxSubProj !! j) as Hlow.
    { eapply raise_levels_low; [| |exact Hraise|exact Hj]; [lia|].
      intros i Hi. apply elem_of_seqZ in Hi. lia. }
    rewrite <- Hlow.
    eapply (levels_loop_low baseMatrices C maxSubProj (s - 1 - mMin)
              (Z.of_nat (length maxSubProj) - (s - 1 - mMin)) (s - 1)
              ltac:(lia) ltac:(lia) ltac:(lia) ltac:(lia) ltac:(lia));
      [| |exact Hrun|exact Hj]; [|lia].
    intros k r Hk Hr.
    apply elem_of_reverse, elem_of_seqZ in Hk.
    destruct (Hiter back k eq_refl ltac:(lia)) as (r' & Hr' & HrC).
    congruence.
Qed.

End MoreGaussFacts.

Section MoreGaussWitnesses.
Import Reference GaussMethod.

Lemma multilevel_low_levels_witness :
  exists res,
    computeTValue_multilevel [I3; J3] 0 [0; 0; 0] = Some res
    /\ res !! 0%nat = Some 0.
Proof.
  destruct (multilevel_low_levels [I3; J3] I3 0 [0; 0; 0]) as (res & Hrun & _ & Hlow).
  - reflexivity.
  - simpl. lia.
  - vm_compute. split; [discriminate | reflexivity].
  - reflexivity.
  - repeat constructor; lia.
  - intros back k Hback Hk. injection Hback as <-.
    apply I3_J3_index_in_range.
    change (Z.of_nat (length [I3; J3])) with 2 in Hk.
    change (u32 (u32 (nRows I3) - 0)) with 3 in Hk. exact Hk.
  - exists res. split; [exact Hrun|].
    rewrite (Hlow 0%nat) by (simpl; lia). reflexivity.
Defined.

(** The map once the reducer is seeded for [k = 3] and [s = 2]. *)
Lemma iteration_on_k_one_to_one_witness :
  exists r st,
    iteration_on_k_run [J3; I3] 3 = Some (r, st)
    /\ one_to_one (Origin_to_M st) 3
    /\ Origin_to_M st !! (2, 2) = Some 1
    /\ Origin_to_M st !! (1, 2) = None.
Proof.
  assert (Forall (fun M => u32 (nRows M) = 3 /\ u32 (nCols M) = 3) [J3; I3]) as Hshape
    by (repeat constructor).
  assert (Forall (fun change : rowChange_t => 1 <= fst (snd change) <= 2) (all_changes 3 2))
    as Hparts by (repeat constructor; simpl; lia).
  assert (forall st0, seed [J3; I3] 3 3 2 = Some st0 ->
            moves (Origin_to_M st0) (all_changes 3 2)) as Hmoves.
  { intros st0 Hseed. vm_compute in Hseed. injection Hseed as <-.
    apply moves_cons; [eexists; reflexivity | reflexivity | apply moves_nil]. }
  destruct (iteration_on_k_one_to_one [J3; I3] J3 3 3 3 (scripted_finite two_parts)
              eq_refl ltac:(simpl; lia) Hshape ltac:(simpl; lia) Hparts Hmoves)
    as (r & st & Hrun & Hone & _).
  exists r, st. split; [exact Hrun|]. split; [exact Hone|].
  vm_compute in Hrun. injection Hrun as _ <-. split; reflexivity.
Defined.

End MoreGaussWitnesses.

(** ** An upper bound on the level-wise t-values *)

Section CapFacts.
Context {GM RR CM : Type}.
Context `{!GeneratingMatrixOps GM} `{!ProgressiveRowReducerOps GM RR}
        `{!CompositionMakerOps CM}.
Import GaussMethod.

Lemma raise_level_capped (maxSubProj : list Z) (diff : Z) (bound : Z -> Z)
    (cap : Z -> Z) (result result' : list Z) (i : Z) :
  0 <= i + diff < 2 ^ 32 ->
  bound i <= cap (i + diff) ->
  raise_level maxSubProj diff bound result i = Some result' ->
  capped cap maxSubProj result -> capped cap maxSubProj result'.
Proof.
  intros Hi Hbound Hrun Hcap j m x Hm Hx. unfold raise_level in Hrun.
  rewrite (u32_small (i + diff)) in Hrun by lia.
  destruct (read maxSubProj (i + diff)) as [m'|] eqn:Hm'; [|discriminate].
  cbn [mbind option_bind] in Hrun. unfold write in Hrun.
  destruct ((0 <=? i + diff) && (i + diff <? Z.of_nat (length result))) eqn:Hin;
    [|discriminate].
  injection Hrun as <-.
  apply andb_true_iff in Hin as [_ Hlt]. apply Z.ltb_lt in Hlt.
  destruct (Z.eq_dec j (i + diff)) as [->|Hne].
  - rewrite read_insert_eq in Hx by lia. injection Hx as <-.
    assert (m' = m) as -> by congruence. lia.
  - rewrite read_insert_ne in Hx by lia. exact (Hcap j m x Hm Hx).
Qed.

Lemma raise_levels_capped (maxSubProj : list Z) (diff : Z) (bound : Z -> Z)
    (cap : Z -> Z) (l : list Z) :
  (forall i, i ∈ l -> 0 <= i + diff < 2 ^ 32 /\ bound i <= cap (i + diff)) ->
  forall result result',
    for_each (raise_level maxSubProj diff bound) result l = Some result' ->
    capped cap maxSubProj result -> capped cap maxSubProj result'.
Proof.
  induction l as [|i l IH]; intros Hl result result' Hrun Hcap.
  - injection Hrun as <-. exact Hcap.
  - cbn [for_each] in Hrun.
    destruct (raise_level maxSubProj diff bound result i) as [result1|] eqn:Hstep;
      [|discriminate].
    cbn [mbind option_bind] in Hrun.
    destruct (Hl i ltac:(left)) as [Hi Hbound].
    apply (IH (fun i' Hi' => Hl i' (list_elem_of_further _ _ _ Hi')) result1 result' Hrun).
    exact (raise_level_capped maxSubProj diff bound cap result result1 i Hi Hbound Hstep Hcap).
Qed.

Lemma levels_loop_capped (baseMatrices : list GM) (C s : Z) (maxSubProj : list Z)
    (diff nLevel mMin : Z) :
  0 <= diff -> 0 <= mMin -> 0 <= s ->
  diff + nLevel < 2 ^ 32 ->
  mMin + nLevel = C -> C < 2 ^ 32 ->
  forall (ks : list Z) (result res : list Z) (prev : Z),
    (forall k, k ∈ ks -> s <= k) ->
    (forall k r, k ∈ ks -> iteration_on_k baseMatrices k = Some r ->
                 r <= C /\ (r = C \/ k - 1 <= r)) ->
    prev <= nLevel ->
    levels_loop baseMatrices C maxSubProj diff nLevel mMin ks result prev = Some res ->
    capped (fun j => mMin - diff + j + 2 - s) maxSubProj result ->
    capped (fun j => mMin - diff + j + 2 - s) maxSubProj res.
Proof.
  intros Hdiff HmMin Hs Hlen Hcols HC.
  induction ks as [|k ks IH]; intros result res prev Hks Hiter Hprev Hrun Hcap.
  - injection Hrun as <-. exact Hcap.
  - cbn [levels_loop] in Hrun.
    destruct (iteration_on_k baseMatrices k) as [r|] eqn:Hr; [|discriminate].
    cbn [mbind option_bind] in Hrun.
    destruct (Hiter k r ltac:(left) Hr) as [HrC Hrk].
    pose proof (Hks k ltac:(left)) as Hsk.
    assert (forall k', k' ∈ ks -> s <= k') as Hks'
      by (intros k' Hk'; apply Hks; right; exact Hk').
    assert (forall k' r', k' ∈ ks -> iteration_on_k baseMatrices k' = Some r' ->
              r' <= C /\ (r' = C \/ k' - 1 <= r')) as Hiter'
      by (intros k' r' Hk'; apply Hiter; right; exact Hk').
    destruct (Z.eqb_spec r C) as [->|HrneC].
    + exact (IH result res prev Hks' Hiter' Hprev Hrun Hcap).
    + destruct Hrk as [Heq|Hrk]; [contradiction|].
      set (first := if mMin <? r then u32 (r - mMin) else 0) in *.
      assert (0 <= first /\ r - mMin <= first) as [Hfirst Hfirst'].
      { unfold first. destruct (Z.ltb_spec mMin r).
        - rewrite u32_small by lia. lia.
        - lia. }
      destruct (for_each _ result (seqZ first (prev - first))) as [result1|] eqn:Hraise;
        [|discriminate].
      cbn [mbind option_bind] in Hrun.
      assert (capped (fun j => mMin - diff + j + 2 - s) maxSubProj result1) as Hcap1.
      { eapply raise_levels_capped; [|exact Hraise|exact Hcap].
        intros i Hi. apply elem_of_seqZ in Hi. split; [lia|].
        cbv beta. rewrite u32_small by lia. lia. }
      destruct (Z.leb_spec r mMin) as [Hle|Hgt].
      * injection Hrun as <-. exact Hcap1.
      * apply (IH result1 res (u32 (r - mMin)) Hks' Hiter'); [|exact Hrun|exact Hcap1].
        rewrite u32_small by lia. lia.
Qed.

Lemma capped_refl (cap : Z -> Z) (maxSubProj : list Z) :
  capped cap maxSubProj maxSubProj.
Proof. intros j m x Hm Hx. assert (x = m) as -> by congruence. lia. Qed.

(** X20. For [s >= 2] matrices and a valid multilevel call, if the
    single-net routine returns for every [k] an index that is [nCols]
    or at least [k - 1], then the entry of the result for the level with
    [c] columns is at most the larger of [c - s + 1] and the entry of
    [maxSubProj] for that level. *)
Theorem multilevel_capped (baseMatrices : list GM) (M0 : GM)
    (mMin : Z) (maxSubProj : list Z) :
  let s := Z.of_nat (length baseMatrices) in
  let C := u32 (nCols M0) in
  let R := u32 (nRows M0) in
  read baseMatrices 0 = Some M0 ->
  2 <= s < 2 ^ 32 ->
  0 <= mMin < C ->
  Z.of_nat (length maxSubProj) = C - mMin ->
  Forall (fun m => 0 <= m) maxSubProj ->
  (forall back k,
     last maxSubProj = Some back -> s <= k <= u32 (R - back) ->
     exists r, iteration_on_k baseMatrices k = Some r /\ r <= C /\ (r = C \/ k - 1 <= r)) ->
  exists res,
    computeTValue_multilevel baseMatrices mMin maxSubProj = Some res
    /\ forall j m x,
         read maxSubProj j = Some m -> read res j = Some x ->
         x <= Z.max (mMin + j + 1 - s + 1) m.
Proof.
  intros s C R HM0 Hs HmMin Hlevels Hpos Hiter.
  destruct (computeTValue_multilevel_defined baseMatrices M0 mMin maxSubProj
              HM0 Hs HmMin Hlevels Hpos) as (res & Hrun & _).
  { intros back k Hback Hk. destruct (Hiter back k Hback Hk) as (r & Hr & HrC & _).
    exists r. split; assumption. }
  exists res. split; [exact Hrun|].
  pose proof (u32_range (nCols M0)) as HC. fold C in HC.
  unfold computeTValue_multilevel in Hrun. rewrite HM0 in Hrun.
  cbn [mbind option_bind] in Hrun. fold s C R in Hrun.
  destruct (Z.eqb_spec s 1) as [Hs1|_]; [lia|].
  rewrite (u32_small (s - 1)) in Hrun by lia.
  assert (forall diff nLevel mMin',
            0 <= diff -> s - 1 <= mMin' -> mMin' - diff = mMin ->
            mMin' + nLevel = C -> diff + nLevel = Z.of_nat (length maxSubProj) ->
            refine_levels baseMatrices R C s maxSubProj diff nLevel mMin' = Some res ->
            capped (fun j => mMin + j + 2 - s) maxSubProj res) as Hrefine.
  { intros diff nLevel mMin' Hdiff HmMin' Hshift Hcols Hlen Hrefine.
    unfold refine_levels in Hrefine.
    destruct (for_each _ maxSubProj (seqZ 0 nLevel)) as [result|] eqn:Hraise; [|discriminate].
    cbn [mbind option_bind] in Hrefine.
    destruct (last maxSubProj) as [back|] eqn:Hback; [|discriminate].
    cbn [mbind option_bind] in Hrefine.
    rewrite <- Hshift.
    eapply (levels_loop_capped baseMatrices C s maxSubProj diff nLevel mMin');
      [lia|lia|lia|lia|exact Hcols|lia| | |reflexivity|exact Hrefine|].
    - intros k Hk. apply elem_of_reverse, elem_of_seqZ in Hk. lia.
    - intros k r Hk Hr. apply elem_of_reverse, elem_of_seqZ in Hk.
      destruct (Hiter back k eq_refl ltac:(lia)) as (r' & Hr' & HrC & Hrk).
      assert (r' = r) as -> by congruence. split; assumption.
    - eapply raise_levels_capped; [|exact Hraise|apply capped_refl].
      intros i Hi. apply elem_of_seqZ in Hi. split; [lia|].
      cbv beta. rewrite u32_small by lia. lia. }
  assert (capped (fun j => mMin + j + 2 - s) maxSubProj res) as Hcap.
  { destruct (Z.ltb_spec mMin (s - 1)) as [Hlt|Hge].
    - rewrite (u32_small (s - 1 - mMin)) in Hrun by lia.
      destruct (Z.leb_spec (Z.of_nat (length maxSubProj)) (s - 1 - mMin)) as [Hfew|Hmany].
      + injection Hrun as <-. apply capped_refl.
      + rewrite (u32_small (Z.of_nat (length maxSubProj) - (s - 1 - mMin))) in Hrun by lia.
        apply (Hrefine (s - 1 - mMin) (Z.of_nat (length maxSubProj) - (s - 1 - mMin)) (s - 1));
          [lia|lia|lia|lia|lia|exact Hrun].
    - apply (Hrefine 0 (Z.of_nat (length maxSubProj)) mMin);
        [lia|lia|lia|lia|lia|exact Hrun]. }
  intros j m x Hm Hx. pose proof (Hcap j m x Hm Hx) as Hle. cbv beta in Hle. lia.
Qed.

End CapFacts.

Section CapWitnesses.
Import Reference GaussMethod.

Lemma multilevel_capped_witness :
  computeTValue_multilevel [I3; J3] 0 [0; 0; 0] = Some [0; 0; 1].
Proof.
  destruct (multilevel_capped [I3; J3] I3 0 [0; 0; 0]) as (res & Hrun & _).
  - reflexivity.
  - simpl. lia.
  - vm_compute. split; [discriminate | reflexivity].
  - reflexivity.
  - repeat constructor; lia.
  - intros back k Hback Hk. injection Hback as <-.
    change (Z.of_nat (length [I3; J3])) with 2 in Hk.
    change (u32 (u32 (nRows I3) - 0)) with 3 in Hk.
    assert (k = 2 \/ k = 3) as [-> | ->] by lia.
    + exists 1. split; [reflexivity|]. split; [vm_compute; discriminate|].
      right. lia.
    + exists 3. split; [reflexivity|]. split; [vm_compute; discriminate|].
      left. reflexivity.
  - rewrite Hrun. vm_compute in Hrun. injection Hrun as <-. reflexivity.
Defined.

End CapWitnesses.

(** ** The sums for POD and for product weights *)

Section ShiftFacts.
Import LatticeTester SumHelperPAlphaSL10 SumForms.

Lemma shift_coordinates_weight (weights : ProductWeights) (j : nat) :
  getWeightForCoordinate (shift_coordinates weights) j
  = getWeightForCoordinate weights (S j).
Proof.
  unfold getWeightForCoordinate, shift_coordinates. cbn.
  rewrite lookup_tail. reflexivity.
Qed.

Lemma foldl_product_from {A : Type} (f : A -> R) (l : list A) :
  forall val : R,
    foldl (fun val x => (val * f x)%R) val l
    = (val * foldr (fun x acc => (f x * acc)%R) 1%R l)%R.
Proof.
  induction l as [|x l IH]; intros val; simpl; [lra|]. rewrite IH. lra.
Qed.

(** The sum for product weights, when the exponent is not zero: a
    weight 0 gives the factor 1 whether it is skipped or not. *)
Lemma sumProduct_closed (weights : ProductWeights) (normType z lambda : R)
    (dimension : nat) :
  (lambda * 2 / normType <> 0)%R ->
  sumProduct weights normType z lambda dimension
  = (foldr
       (fun coord acc =>
          ((1 + z * std_pow (getWeightForCoordinate weights coord)
                            (lambda * 2 / normType)) * acc)%R)
       1%R (seq 0 dimension) - 1)%R.
Proof.
  intros Hq. unfold sumProduct. f_equal.
  rewrite <- (Rmult_1_l (foldr _ _ _)).
  rewrite <- (foldl_product_from
                (fun coord => (1 + z * std_pow (getWeightForCoordinate weights coord)
                                               (lambda * 2 / normType))%R)).
  apply foldl_ext_elem. intros val coord _. unfold nonzero.
  destruct (Req_dec_T (getWeightForCoordinate weights coord) 0) as [H0|_]; [|reflexivity].
  rewrite H0. unfold std_pow.
  destruct (Req_dec_T 0 0) as [_|Hne]; [|contradiction].
  destruct (Req_dec_T (lambda * 2 / normType) 0) as [Hz|_]; [contradiction|]. lra.
Qed.

(** X21. Where [std::pow] gives a real number for the weights of the
    orders and of the coordinates [1..dimension] ([normType] is not
    zero, no weight is zero with a negative exponent, nor negative with
    an exponent that is not an integer), when the exponent
    [2 λ / normType] is not zero and the order-dependent part gives the
    rescaled weight 1 to every order up to the dimension, the sum for
    POD weights is the sum for the product weights of its product part
    with the coordinates shifted by one: the POD sum reads the weights
    of the coordinates [1..dimension], the product sum those of
    [0..dimension-1]. *)
Theorem sumPOD_shifted_product (weights : PODWeights)
    (normType z lambda : R) (dimension : nat) :
  normType <> 0%R ->
  (lambda * 2 / normType <> 0)%R ->
  (forall order, (1 <= order <= dimension)%nat ->
     pow_is_real (getWeightForOrder (getOrderDependentWeights weights) order)
                 (lambda * 2 / normType)) ->
  (forall s, (1 <= s <= dimension)%nat ->
     pow_is_real (getWeightForCoordinate (getProductWeights weights) s)
                 (lambda * 2 / normType)) ->
  (forall order, (1 <= order <= dimension)%nat ->
     std_pow (getWeightForOrder (getOrderDependentWeights weights) order)
             (lambda * 2 / normType) = 1%R) ->
  sumPOD weights normType z lambda dimension
  = sumProduct (shift_coordinates (getProductWeights weights))
      normType z lambda dimension.
Proof.
  intros _ Hq _ _ Hunit.
  destruct (pod_states (getProductWeights weights) normType z lambda dimension)
    as (Htotal & Hhead & Hlen).
  cbv zeta in *. unfold sumPOD.
  set (states := foldl _ [1%R] (seq 1 dimension)) in *.
  rewrite (total_orders states
             (fun order => std_pow (getWeightForOrder (getOrderDependentWeights weights) order)
                                   (lambda * 2 / normType)) dimension Hlen Hunit).
  rewrite Htotal, Hhead.
  rewrite (sumProduct_closed _ normType z lambda dimension Hq). f_equal.
  unfold coordinate_product. rewrite <- fmap_S_seq.
  generalize (seq 0 dimension) as l. induction l as [|j l IH]; [reflexivity|].
  cbn [fmap list_fmap foldr]. rewrite shift_coordinates_weight.
  f_equal. exact IH.
Qed.

Lemma sumPOD_shifted_product_witness :
  sumPOD unit_orders 2 1 1 2
  = sumProduct {| pw_defaultWeight := 0; pw_weights := [2; 3]%R |} 2 1 1 2.
Proof.
  apply (sumPOD_shifted_product unit_orders 2 1 1 2).
  - lra.
  - lra.
  - intros order _. left. unfold getWeightForOrder. simpl. lra.
  - intros s Hs. left. unfold getWeightForCoordinate.
    destruct s as [|[|[|s]]]; try lia; simpl; lra.
  - intros order _. unfold getWeightForOrder. simpl. apply std_pow_one. lra.
Defined.

End ShiftFacts.
